(** * HyperTile attention tiling: tile-size selection, tensor partitioning,
      the forward wrapper and the scoped patching of attention modules.

    Shallow embedding of [modules/sd_hijack_hypertile.py].  Python integers
    are [Z]; the elements of torch's int64 tensors are [Z] with the
    wrap-around of the operations that can leave the int64 range written
    out; a one-dimensional tensor is a list, a tensor of several dimensions
    a shape with its elements in row-major order.  Python exceptions are
    the [Raise] results of the [result] type.  The process-wide variables
    and the closure variables of the wrapper are a state that is passed
    along; the module objects are a store indexed by the address of the
    object, once with the objects that their attributes hold and where
    the attributes are found, and once up to the addresses of those
    objects.  Floating point (the stage size and the depth
    of a call of the wrapper) is not modelled and is taken as given. *)

From Stdlib Require Import ZArith Lia String Ascii DecimalString.
From stdpp Require Import base decidable option list numbers sorting gmap strings.

Local Open Scope Z_scope.

(** ** Exceptions and fallible results *)

Inductive exn : Type :=
  | AssertionError
  | RuntimeError
  | ValueError
  | IndexError
  | ZeroDivisionError
  | OverflowError
  | EinopsError.

Inductive result (A : Type) : Type :=
  | Ok (a : A)
  | Raise (e : exn).
Arguments Ok {A} a.
Arguments Raise {A} e.

#[global] Instance exn_eq_dec : EqDecision exn.
Proof. solve_decision. Defined.

#[global] Instance result_ret : MRet result := λ A a, Ok a.
#[global] Instance result_bind : MBind result := λ A B f m,
  match m with
  | Ok a => f a
  | Raise e => Raise e
  end.

(** ** int64 tensor arithmetic *)

Definition int64_min : Z := - 2 ^ 63.
Definition int64_max : Z := 2 ^ 63 - 1.
Definition uint64_max : Z := 2 ^ 64 - 1.

(** A Python integer that is passed to a tensor operation as a scalar is
    converted to a C integer of 64 bits, signed or, when it is too large
    for that, unsigned; the conversion raises [OverflowError] on an
    integer that is outside both ranges, whatever the tensor holds. *)
Definition scalar (z : Z) : result Z :=
  if decide (int64_min ≤ z ≤ uint64_max) then Ok z else Raise OverflowError.

(** Two's complement reduction of a mathematical integer to int64. *)
Definition wrap64 (z : Z) : Z := (z + 2 ^ 63) `mod` 2 ^ 64 - 2 ^ 63.

(** [Tensor.sub(scalar)] and [Tensor.abs()] on one int64 element, for a
    scalar that the conversion has accepted.  These are the two
    operations of the selector that can leave the range: the quotients and
    the product of line 30 stay between 0 and the dimension. *)
Definition sub64 (a b : Z) : Z := wrap64 (a - b).
Definition abs64 (a : Z) : Z := wrap64 (Z.abs a).

(** [torch.arange(start, stop)]: the integers of [start, stop) as an int64
    tensor; torch refuses a stop that is below the int64 range or whose
    last element would be above it, and a stop below the start. *)
Definition arange (start stop : Z) : result (list Z) :=
  if decide (stop < int64_min ∨ int64_max < stop - 1) then Raise OverflowError
  else if decide (stop < start) then Raise RuntimeError
  else Ok ((λ i : nat, start + Z.of_nat i) <$> seq 0 (Z.to_nat (stop - start))).

(** [t[pos]] for an index tensor [pos]: an index out of range raises. *)
Definition index_select (t : list Z) (pos : list nat) : result (list Z) :=
  match mapM (λ i : nat, t !! i) pos with
  | Some l => Ok l
  | None => Raise IndexError
  end.

(** The element of a tensor at an index, 0 out of range. *)
Definition key_of (keys : list Z) (i : nat) : Z := default 0 (keys !! i).

(** [Tensor.argsort()] is called without [stable=True]: torch returns the
    indices that sort the keys in ascending order and leaves the relative
    order of equal keys open.  The interface keeps exactly that contract;
    [stable_argsort] and [std_sort_argsort] below are two implementations
    of it: the sort that [stable=True] would give, and the sort that the
    CPU kernel runs without it. *)
Class ArgSort : Type := {
  argsort : list Z → list nat;
  argsort_perm : ∀ keys, argsort keys ≡ₚ seq 0 (length keys);
  argsort_sorted : ∀ keys,
    StronglySorted Z.le (key_of keys <$> argsort keys);
}.

(** Insertion of an index into a list of indices ordered by key; [before]
    decides whether the new index goes in front of an index whose key
    is equal. *)
Fixpoint insert_by_key (before : bool) (keys : list Z) (i : nat)
    (l : list nat) : list nat :=
  match l with
  | [] => [i]
  | j :: l' =>
      let ki := key_of keys i in
      let kj := key_of keys j in
      if decide (ki < kj) then i :: l
      else if decide (ki = kj) then
        (if before then i :: l else j :: insert_by_key before keys i l')
      else j :: insert_by_key before keys i l'
  end.

Definition argsort_with (before : bool) (keys : list Z) : list nat :=
  foldr (insert_by_key before keys) [] (seq 0 (length keys)).

(** ** The sort that [argsort] runs

    Without [stable=True] the CPU kernel of torch sorts the pairs of key
    and index with [std::sort], which compares the keys only.  That is
    introsort: quicksort with a median-of-three pivot on ranges of more
    than 16 elements, heapsort once the partitions are nested deeper than
    twice the logarithm of the length, and one insertion sort over the
    whole array at the end.  Up to 16 keys it is the insertion sort alone,
    which keeps equal keys in the order of their indices.  The array is
    the list of the indices. *)

Section std_sort.
Variable keys : list Z.
Local Open Scope nat_scope.


















End std_sort.

(** ** Tile size selector *)

Section selector.
Context `{ArgSort}.

Definition possible_tile_sizes
    (dimension tile_size min_tile_size tile_options : Z) : result (list Z) :=
  if decide (tile_options < 1) then Raise AssertionError
  else
    let min_tile_size := Z.min (Z.min min_tile_size tile_size) dimension in
    n ← arange 1 (dimension + 1);
    let n := filter (λ n : Z, dimension / n / 8 * 8 * n = dimension) n in
    min_tile_size ← scalar min_tile_size;
    let n := filter (λ n : Z, min_tile_size ≤ dimension / n) n in
    tile_size ← scalar tile_size;
    let pos := argsort ((λ n : Z, abs64 (sub64 (dimension / n) tile_size)) <$> n) in
    let pos := take (Z.to_nat tile_options) pos in
    index_select n pos.
End selector.

(** ** [parse_list] *)

(** Python's [x[i]] on a list: a negative index counts from the end, an
    index out of range raises [IndexError]. *)
Definition getitem {A} (x : list A) (i : Z) : result A :=
  let n := Z.of_nat (length x) in
  let k := if decide (i < 0) then i + n else i in
  if decide (0 ≤ k < n) then
    match x !! Z.to_nat k with
    | Some a => Ok a
    | None => Raise IndexError
    end
  else Raise IndexError.

(** [str] of an [int] and of a [list[int]]. *)
Definition str_int (z : Z) : string := NilZero.string_of_int (Z.to_int z).

Fixpoint join (sep : string) (l : list string) : string :=
  match l with
  | [] => EmptyString
  | [s] => s
  | s :: l' => (s +:+ sep +:+ join sep l')%string
  end.

Definition str_list (x : list Z) : string :=
  ("[" +:+ join ", " (str_int <$> x) +:+ "]")%string.

Definition parse_list (x : list Z) : result string :=
  if decide (length x = 0%nat) then
    v ← getitem x 0; Ok (str_int v)
  else Ok (str_list x).

(** ** Tensors and the einops rearrangements of the wrapper *)

(** A contiguous tensor: its shape and its elements in row-major order. *)
Record tensor (A : Type) : Type := Tensor {
  shape : list nat;
  data : list A;
}.
Arguments Tensor {A} shape data.
Arguments shape {A} t.
Arguments data {A} t.

Definition numel (sh : list nat) : nat := foldr Nat.mul 1%nat sh.
Definition ndim {A} (x : tensor A) : nat := length (shape x).
Definition well_formed {A} (x : tensor A) : Prop :=
  length (data x) = numel (shape x).

(** The elements of a tensor of [n] elements whose element [k] is element
    [src k] of [d]. *)
Definition gather {A} (src : nat → nat) (n : nat) (d : list A) : list A :=
  omap (λ k, d !! src k) (seq 0 n).

Section rearrange.
Local Open Scope nat_scope.
Context {A : Type}.

(** Row-major offset in a tensor of shape [_; d1; d2; d3]. *)
Definition offset4 (d1 d2 d3 i0 i1 i2 i3 : nat) : nat :=
  ((i0 * d1 + i1) * d2 + i2) * d3 + i3.

(** Source offset, in a tensor of shape [b; c; nh*h; nw*w], of element [k]
    of the tensor of shape [b*nh*nw; c; h; w] that holds its tiles. *)
Definition split4_src (c nh h nw w k : nat) : nat :=
  let x := k mod w in
  let y := (k / w) mod h in
  let ci := (k / w / h) mod c in
  let t := k / w / h / c in
  let j := t mod nw in
  let i := (t / nw) mod nh in
  let bi := t / nw / nh in
  offset4 c (nh * h) (nw * w) bi ci (i * h + y) (j * w + x).

(** Source offset, in the tensor of tiles, of element [k] of the tensor of
    shape [b; c; nh*h; nw*w]. *)
Definition merge4_src (c nh h nw w k : nat) : nat :=
  let X := k mod (nw * w) in
  let Y := (k / (nw * w)) mod (nh * h) in
  let ci := (k / (nw * w) / (nh * h)) mod c in
  let bi := k / (nw * w) / (nh * h) / c in
  offset4 c h w ((bi * nh + Y / h) * nw + X / w) ci (Y mod h) (X mod w).

(** [rearrange(x, "b c (nh h) (nw w) -> (b nh nw) c h w", nh=nh, nw=nw)] *)
Definition rearrange_split4 (nh nw : nat) (x : tensor A) : result (tensor A) :=
  match shape x with
  | [b; c; H; W] =>
      if decide (nh = 0 ∨ nw = 0) then Raise ZeroDivisionError
      else if decide (H mod nh = 0 ∧ W mod nw = 0) then
        let h := H / nh in
        let w := W / nw in
        let sh := [b * nh * nw; c; h; w] in
        Ok (Tensor sh (gather (split4_src c nh h nw w) (numel sh) (data x)))
      else Raise EinopsError
  | _ => Raise EinopsError
  end.

(** [rearrange(out, "(b nh nw) c h w -> b c (nh h) (nw w)", nh=nh, nw=nw)] *)
Definition rearrange_merge4 (nh nw : nat) (x : tensor A) : result (tensor A) :=
  match shape x with
  | [B; c; h; w] =>
      if decide (nh = 0 ∨ nw = 0) then Raise ZeroDivisionError
      else if decide (B mod (nh * nw) = 0) then
        let b := B / (nh * nw) in
        let sh := [b; c; nh * h; nw * w] in
        Ok (Tensor sh (gather (merge4_src c nh h nw w) (numel sh) (data x)))
      else Raise EinopsError
  | _ => Raise EinopsError
  end.

(** Source offset, in a sequence tensor of shape [b; nh*h*nw*w; c], of
    element [k] of the tensor of shape [b*nh*nw; h*w; c]. *)
Definition split3_src (c nh h nw w k : nat) : nat :=
  let ci := k mod c in
  let s := (k / c) mod (h * w) in
  let t := k / c / (h * w) in
  let x := s mod w in
  let y := s / w in
  let j := t mod nw in
  let i := (t / nw) mod nh in
  let bi := t / nw / nh in
  ((bi * (nh * h * nw * w) + ((i * h + y) * nw + j) * w + x) * c + ci).

(** Source offset, in the tensor of shape [b*nh*nw; h*w; c], of element
    [k] of the sequence tensor of shape [b; nh*h*nw*w; c]. *)
Definition merge3_src (c nh h nw w k : nat) : nat :=
  let ci := k mod c in
  let p := (k / c) mod (nh * h * nw * w) in
  let bi := k / c / (nh * h * nw * w) in
  let x := p mod w in
  let j := (p / w) mod nw in
  let y := (p / w / nw) mod h in
  let i := p / w / nw / h in
  ((((bi * nh + i) * nw + j) * (h * w) + (y * w + x)) * c + ci).

(** [rearrange(x, "b (nh h nw w) c -> (b nh nw) (h w) c", h=h, w=w, nh=nh, nw=nw)] *)
Definition rearrange_split3 (h w nh nw : nat) (x : tensor A) : result (tensor A) :=
  match shape x with
  | [b; L; c] =>
      if decide (L = nh * h * nw * w) then
        let sh := [b * nh * nw; h * w; c] in
        Ok (Tensor sh (gather (split3_src c nh h nw w) (numel sh) (data x)))
      else Raise EinopsError
  | _ => Raise EinopsError
  end.

(** [rearrange(out, "(b nh nw) hw c -> b nh nw hw c", nh=nh, nw=nw)]
    followed by
    [rearrange(out, "b nh nw (h w) c -> b (nh h nw w) c", h=h, w=w)] *)
Definition rearrange_merge3 (h w nh nw : nat) (x : tensor A) : result (tensor A) :=
  match shape x with
  | [B; hw; c] =>
      if decide (nh = 0 ∨ nw = 0) then Raise ZeroDivisionError
      else if decide (B mod (nh * nw) = 0) then
        if decide (hw = h * w) then
          let b := B / (nh * nw) in
          let sh := [b; nh * h * nw * w; c] in
          Ok (Tensor sh (gather (merge3_src c nh h nw w) (numel sh) (data x)))
        else Raise EinopsError
      else Raise EinopsError
  | _ => Raise EinopsError
  end.
End rearrange.

(** ** The forward wrapper *)

(** Process-wide variables of the module ([height], [width], [max_h],
    [max_w], [error_reported], [reset_needed]), the candidate lists [nhs]
    and [nws] of the enclosing [split_attention] call, and the error log. *)
Record log_entry : Type := HypertileError {
  log_width : Z;
  log_height : Z;
  log_exn : exn;
}.

Record wstate : Type := WState {
  height : Z;
  width : Z;
  max_h : Z;
  max_w : Z;
  error_reported : bool;
  reset_needed : bool;
  nhs : list Z;
  nws : list Z;
  log : list log_entry;
}.

(** Computations that read and write that state and may raise. *)
Definition W (A : Type) : Type := wstate → result A * wstate.

#[global] Instance W_ret : MRet W := λ A a s, (Ok a, s).
#[global] Instance W_bind : MBind W := λ A B f m s,
  match m s with
  | (Ok a, s') => f a s'
  | (Raise e, s') => (Raise e, s')
  end.

Definition lift {A} (r : result A) : W A := λ s, (r, s).
Definition get : W wstate := λ s, (Ok s, s).
Definition modify (f : wstate → wstate) : W unit := λ s, (Ok tt, f s).
Definition when (b : bool) (m : W unit) : W unit := if b then m else mret tt.

(** [random.randint(a, b)] draws an integer of [a, b] from the entropy [r]
    and raises [ValueError] on an empty range. *)
Definition randint (a b r : Z) : result Z :=
  if decide (b < a) then Raise ValueError else Ok (a + r `mod` (b - a + 1)).

(** Python's [a // b] on integers. *)
Definition floordiv (a b : Z) : result Z :=
  if decide (b = 0) then Raise ZeroDivisionError else Ok (a / b).

(** [x.size(i)] *)
Definition size {A} (x : tensor A) (i : nat) : result Z :=
  match shape x !! i with
  | Some d => Ok (Z.of_nat d)
  | None => Raise IndexError
  end.

Section wrapper.
Context `{ArgSort} {A : Type}.

(** Arguments of [split_attention]. *)
Variables (tile_size min_tile_size swap_size depth : Z).

(** Floating point is not modelled: [round(math.sqrt(ar * hw))] and
    [round(math.sqrt(hw / ar))], for the aspect ratio [ar] fixed when the
    scope is entered, and [round(math.log(down_ratio, 2))] on a positive
    [down_ratio], are taken as given functions of [hw] and [down_ratio]. *)
Variables (stage_h stage_w round_log2 : Z → Z).

(** The wrapped [forward]. *)
Variable forward : tensor A → result (tensor A).

Definition make_ns (r1 r2 : Z) : W (Z * Z) :=
  s ← get;
  i ← lift (randint 0 (Z.of_nat (length (nhs s)) - 1) r1);
  nh ← lift (getitem (nhs s) i);
  j ← lift (randint 0 (Z.of_nat (length (nws s)) - 1) r2);
  nw ← lift (getitem (nws s) j);
  mret (nh, nw).

Definition reset_nhs : W unit :=
  s ← get;
  l ← lift (possible_tile_sizes (height s) tile_size min_tile_size swap_size);
  modify (λ s, WState (height s) (width s) (max_h s) (max_w s)
                 (error_reported s) (reset_needed s) l (nws s) (log s)).

Definition reset_nws : W unit :=
  s ← get;
  l ← lift (possible_tile_sizes (width s) tile_size min_tile_size swap_size);
  modify (λ s, WState (height s) (width s) (max_h s) (max_w s)
                 (error_reported s) (reset_needed s) (nhs s) l (log s)).

(** Lines 47-48: the candidate lists when the scope is entered. *)
Definition init_candidates : W unit := reset_nhs;; reset_nws.

(** Lines 78-92: the candidate lists and the largest stage seen follow
    the stage size [h], [w] of the call. *)
Definition track_size (h w : Z) : W unit :=
  s ← get;
  if reset_needed s then
    reset_nhs;; reset_nws;;
    modify (λ s, WState (height s) (width s) (height s) (width s)
                   (error_reported s) false (nhs s) (nws s) (log s))
  else
    when (bool_decide (h > max_h s))
      (modify (λ s, WState (8 * h) (width s) (Z.max (max_h s) h) (max_w s)
                      (error_reported s) (reset_needed s) (nhs s) (nws s) (log s));;
       reset_nhs);;
    s ← get;
    when (bool_decide (w > max_w s))
      (modify (λ s, WState (height s) (8 * w) (max_h s) (Z.max (max_w s) w)
                      (error_reported s) (reset_needed s) (nhs s) (nws s) (log s));;
       reset_nws).

(** Lines 106-110: the first failure of a scope is logged. *)
Definition report (e : exn) : W unit :=
  s ← get;
  when (negb (error_reported s))
    (modify (λ s, WState (height s) (width s) (max_h s) (max_w s)
                    true (reset_needed s) (nhs s) (nws s)
                    (log s ++ [HypertileError (width s) (height s) e]))).

(** Lines 99-105, the suite of the [try]: its outcome, and the tensor
    the local variable [x] is bound to when the suite ends.  The
    partitioning rearrange rebinds [x]. *)
Definition unet_attempt (x : tensor A) (h w nh nw : Z) (do_split : bool)
    : result (tensor A) * tensor A :=
  let th := Z.to_nat (h / nh) in
  let tw := Z.to_nat (w / nw) in
  match (if do_split
         then rearrange_split3 th tw (Z.to_nat nh) (Z.to_nat nw) x
         else Ok x) with
  | Raise e => (Raise e, x)
  | Ok x' =>
      (out ← forward x';
       if do_split
       then rearrange_merge3 th tw (Z.to_nat nh) (Z.to_nat nw) out
       else Ok out,
       x')
  end.

(** Lines 99-111: the [try] statement of the flattened-sequence branch.
    The handler calls [forward] on the current binding of [x]. *)
Definition unet_try (x : tensor A) (h w nh nw : Z) (do_split : bool)
    : W (tensor A) :=
  match unet_attempt x h w nh nw do_split with
  | (Ok out, _) => mret out
  | (Raise e, x') => report e;; lift (forward x')
  end.

(** Lines 62-112: one call of the wrapper on the input [x], with the two
    random draws [r1] and [r2]. *)
Definition wrapper (r1 r2 : Z) (x : tensor A) : W (tensor A) :=
  '(nh, nw) ← make_ns r1 r2;
  if decide (ndim x = 4%nat) then
    x' ← lift (if decide (nh * nw > 1)
               then rearrange_split4 (Z.to_nat nh) (Z.to_nat nw) x
               else Ok x);
    out ← lift (forward x');
    lift (if decide (nh * nw > 1)
          then rearrange_merge4 (Z.to_nat nh) (Z.to_nat nw) out
          else Ok out)
  else
    hw ← lift (size x 1);
    let h := stage_h hw in
    let w := stage_w hw in
    track_size h w;;
    s ← get;
    down_ratio ← lift (floordiv (height s / 8) h);
    curr_depth ← lift (if decide (down_ratio ≤ 0) then Raise ValueError
                       else Ok (round_log2 down_ratio));
    let nh := Z.max 1 (nh / down_ratio) in
    let nw := Z.max 1 (nw / down_ratio) in
    let do_split :=
      bool_decide (curr_depth ≤ depth) && bool_decide (h `mod` nh = 0)
      && bool_decide (w `mod` nw = 0) && bool_decide (nh * nw > 1) in
    unet_try x h w nh nw do_split.
End wrapper.

(** ** The scoped patching of attention modules *)

(** What the attribute [forward] of a module evaluates to, up to the
    address of the object: [Native f] is a bound method of the method
    number [f] (a function and the module it is bound to; two bound
    methods of the same method are [==] in Python), [Wrapper g] a closure
    that [self_attn_forward] builds around the handle [g].  The objects
    themselves, with their addresses, are the [callable] objects further
    down; [handle_of] forgets the addresses. *)
Inductive handle : Type :=
  | Native (f : nat)
  | Wrapper (inner : handle).


(** A module object, up to the addresses of what its attributes hold and
    to where the attribute [forward] is found (on the class or in the
    instance dictionary): the qualified name of its class, what its
    [forward] attribute evaluates to and what its [_original_forward]
    attribute holds when it has one.  [py_module] further down is the
    object with both; [module_of] maps it here. *)
Record module_obj : Type := Module {
  qualname : string;
  forward : handle;
  original_forward : option handle;
}.

(** The tree of submodules: a node is a module object, named by its
    address, and its named children.  One object may sit at several
    places.  The region under the scope does not change the tree. *)
#[warnings="-register-all"]
Inductive module_tree : Type :=
  | MNode (id : nat) (children : list (string * module_tree)).

(** [nn.Module.named_modules(memo, prefix)]: the modules in pre-order
    with their dotted names, an object already in [memo] left out. *)
Fixpoint named_modules_from (memo : gset nat) (prefix : string)
    (t : module_tree) : gset nat * list (string * nat) :=
  match t with
  | MNode id children =>
      if decide (id ∈ memo) then (memo, [])
      else
        let submodules :=
          fix go (memo : gset nat) (cs : list (string * module_tree)) :=
            match cs with
            | [] => (memo, [])
            | (name, child) :: cs' =>
                let submodule_prefix :=
                  (prefix +:+ (if decide (prefix = EmptyString) then "" else ".")
                   +:+ name)%string in
                let '(memo1, out1) := named_modules_from memo submodule_prefix child in
                let '(memo2, out2) := go memo1 cs' in
                (memo2, out1 ++ out2)
            end in
        let '(memo', out) := submodules ({[id]} ∪ memo) children in
        (memo', (prefix, id) :: out)
  end.

Definition named_modules (layer : module_tree) : list (string * nat) :=
  (named_modules_from ∅ EmptyString layer).2.

(** [str.endswith] *)
Definition endswith (s suffix : string) : bool :=
  let n := String.length s in
  let k := String.length suffix in
  if decide (k ≤ n)%nat then String.eqb (substring (n - k) k s) suffix else false.

(** Line 116 and line 117: the classes that are hijacked, the names that
    are skipped. *)
Definition is_attention (m : module_obj) : bool :=
  bool_decide (qualname m ∈ ["Attention"; "CrossAttention"; "AttnBlock"]%string).

Definition is_cross_attention (name : string) : bool :=
  endswith name "attn2" || endswith name "attn_2".

(** What the scope did, for the statements only: [Patched id] is one
    execution of lines 119-120 on the module [id], [Restored id] one
    execution of lines 125-126. *)
Inductive event : Type :=
  | Patched (id : nat)
  | Restored (id : nat).

#[global] Instance event_eq_dec : EqDecision event.
Proof. solve_decision. Defined.

Record scope_state : Type := ScopeState {
  modules : gmap nat module_obj;
  trace : list event;
}.

(** Lines 116-120, for one item of [named_modules()].  Every module of
    the tree is an object of the store; an address with no object is
    skipped. *)
Definition patch_module (s : scope_state) (item : string * nat) : scope_state :=
  let '(name, id) := item in
  match modules s !! id with
  | Some m =>
      if is_attention m then
        if is_cross_attention name then s
        else
          let saved := Module (qualname m) (forward m) (Some (forward m)) in
          let patched := Module (qualname saved) (Wrapper (forward saved))
                           (original_forward saved) in
          ScopeState (<[id := patched]> (modules s)) (trace s ++ [Patched id])
      else s
  | None => s
  end.

(** Lines 124-126, for one item of [named_modules()]. *)
Definition restore_module (s : scope_state) (item : string * nat) : scope_state :=
  let '(_, id) := item in
  match modules s !! id with
  | Some m =>
      match original_forward m with
      | Some f =>
          ScopeState (<[id := Module (qualname m) f None]> (modules s))
            (trace s ++ [Restored id])
      | None => s
      end
  | None => s
  end.

(** How the region under the [with] statement ended. *)
Inductive outcome : Type :=
  | Returned
  | Raised (e : exn).

(** The yielded region: it runs on the module objects and returns or
    raises. *)
Definition region : Type := gmap nat module_obj → outcome * gmap nat module_obj.

(** Lines 115-120: the state when line 121 yields. *)
Definition enter_scope (layer : module_tree) (mods : gmap nat module_obj)
    : scope_state :=
  foldl patch_module (ScopeState mods []) (named_modules layer).

(** Lines 123-126: the [finally] suite. *)
Definition exit_scope (layer : module_tree) (s : scope_state) : scope_state :=
  foldl restore_module s (named_modules layer).

(** [try: suite finally: final]: the final suite runs however the suite
    ended, and the statement ends as the suite did. *)
Definition try_finally {S : Type} (suite : S → outcome * S) (final : S → S)
    : S → outcome * S :=
  λ s, let '(r, s') := suite s in (r, final s').

(** Lines 114-126: the modules are patched, line 121 yields to the region
    under the [with] statement, which returns or raises, and the [finally]
    suite restores the modules. *)
Definition split_attention (layer : module_tree) (body : region)
    (mods : gmap nat module_obj) : outcome * scope_state :=
  try_finally
    (λ s, let s1 := foldl patch_module s (named_modules layer) in
          let '(r, mods2) := body (modules s1) in
          (r, ScopeState mods2 (trace s1)))
    (exit_scope layer)
    (ScopeState mods []).

(** ** The module objects with the identity of their attributes *)

(** A callable object: its address, and what it is.  Reading a method
    that the class defines builds a new bound method object at every
    read; [self_attn_forward] builds a new closure at every call. *)
Inductive callable : Type :=
  | BoundMethod (addr : nat) (method : nat)
  | Closure (addr : nat) (wrapped : callable).

Fixpoint handle_of (c : callable) : handle :=
  match c with
  | BoundMethod _ method => Native method
  | Closure _ wrapped => Wrapper (handle_of wrapped)
  end.

(** A module object: the qualified name of its class, the method
    [forward] that its class defines, and the entries [forward] and
    [_original_forward] of its instance dictionary when there are such.
    An entry of the instance dictionary hides the method of the class. *)
Record py_module : Type := PyModule {
  py_qualname : string;
  class_forward : nat;
  dict_forward : option callable;
  dict_original_forward : option callable;
}.

Definition module_of (m : py_module) : module_obj :=
  Module (py_qualname m)
    (match dict_forward m with
     | Some c => handle_of c
     | None => Native (class_forward m)
     end)
    (handle_of <$> dict_original_forward m).

(** [module.forward] with [next] the first free address: the entry of the
    instance dictionary, the same object at every read, or else a new
    bound method of the method of the class. *)
Definition getattr_forward (m : py_module) (next : nat) : callable * nat :=
  match dict_forward m with
  | Some c => (c, next)
  | None => (BoundMethod next (class_forward m), S next)
  end.

Definition py_is_attention (m : py_module) : bool :=
  bool_decide (py_qualname m ∈ ["Attention"; "CrossAttention"; "AttnBlock"]%string).

Record py_state : Type := PyState {
  py_modules : gmap nat py_module;
  next_addr : nat;
  py_trace : list event;
}.

(** Lines 119-120 on the object [m]: [setattr] writes the instance
    dictionary; [module.forward] is read twice, and the closure is a new
    object. *)
Definition py_patched (next : nat) (m : py_module) : py_module * nat :=
  let '(saved, next) := getattr_forward m next in
  let m := PyModule (py_qualname m) (class_forward m) (dict_forward m) (Some saved) in
  let '(current, next) := getattr_forward m next in
  let wrapper := Closure next current in
  (PyModule (py_qualname m) (class_forward m) (Some wrapper) (dict_original_forward m),
   S next).

(** Lines 116-120, for one item of [named_modules()]. *)
Definition py_patch_module (s : py_state) (item : string * nat) : py_state :=
  let '(name, id) := item in
  match py_modules s !! id with
  | Some m =>
      if py_is_attention m then
        if is_cross_attention name then s
        else
          let '(patched, next) := py_patched (next_addr s) m in
          PyState (<[id := patched]> (py_modules s)) next (py_trace s ++ [Patched id])
      else s
  | None => s
  end.

(** Lines 124-126, for one item of [named_modules()]: [hasattr] and
    [module._original_forward] read the instance dictionary, [setattr]
    writes the entry [forward], [del] removes the entry
    [_original_forward]. *)
Definition py_restore_module (s : py_state) (item : string * nat) : py_state :=
  let '(_, id) := item in
  match py_modules s !! id with
  | Some m =>
      match dict_original_forward m with
      | Some c =>
          PyState (<[id := PyModule (py_qualname m) (class_forward m) (Some c) None]>
                     (py_modules s))
            (next_addr s) (py_trace s ++ [Restored id])
      | None => s
      end
  | None => s
  end.

(** The yielded region on the objects: it may build objects of its own. *)
Definition py_region : Type :=
  gmap nat py_module → nat → outcome * gmap nat py_module * nat.

Definition py_enter_scope (layer : module_tree) (mods : gmap nat py_module)
    (next : nat) : py_state :=
  foldl py_patch_module (PyState mods next []) (named_modules layer).

Definition py_exit_scope (layer : module_tree) (s : py_state) : py_state :=
  foldl py_restore_module s (named_modules layer).

(** Lines 114-126 on the objects. *)
Definition py_split_attention (layer : module_tree) (body : py_region)
    (mods : gmap nat py_module) (next : nat) : outcome * py_state :=
  try_finally
    (λ s, let s1 := foldl py_patch_module s (named_modules layer) in
          let '(r, mods2, next2) := body (py_modules s1) (next_addr s1) in
          (r, PyState mods2 next2 (py_trace s1)))
    (py_exit_scope layer)
    (PyState mods next []).

(** ** The host shims *)

(** The options of the host that the shims read, and whether its backend
    is diffusers. *)
Record options : Type := Options {
  hypertile_vae_enabled : bool;
  hypertile_unet_enabled : bool;
  hypertile_vae_tile : Z;
  hypertile_unet_tile : Z;
  backend_is_diffusers : bool;
}.

(** An attribute of an object: missing, [None], or a value. *)
Inductive attribute (A : Type) : Type :=
  | Missing
  | IsNone
  | Has (a : A).
Arguments Missing {A}.
Arguments IsNone {A}.
Arguments Has {A} a.

(** [getattr(obj, name, None)] *)
Definition getattr_or_none {A} (a : attribute A) : option A :=
  match a with
  | Has v => Some v
  | _ => None
  end.

(** The model holder [p.sd_model] and the generation request [p]. *)
Record ldm_model : Type := LdmModel {
  diffusion_model : attribute module_tree;
}.

Record sd_model : Type := SdModel {
  vae : attribute module_tree;
  first_stage_model : attribute module_tree;
  unet : attribute module_tree;
  model : attribute ldm_model;
}.

Record processing : Type := Processing {
  p_height : Z;
  p_width : Z;
  p_sd_model : option sd_model;
}.

(** What a shim returns: [nullcontext()], or the context manager of a
    call of [split_attention], whose body runs when the [with] statement
    is entered. *)
Inductive context : Type :=
  | NullContext
  | SplitAttention (layer : module_tree)
      (tile_size min_tile_size swap_size depth : Z).

(** The outcome of a shim: a context, or the [AttributeError] of
    [p.sd_model.model] on a holder without that attribute. *)
Inductive shim_outcome : Type :=
  | Returns (c : context)
  | AttributeError.

Inductive host_message : Type :=
  | Warning (text : string)
  | Info (text : string).

(** Lines 130-135 and 149-154: the process-wide variables at the start of
    a stage. *)
Definition start_stage (p : processing) (s : wstate) : wstate :=
  WState (p_height p) (p_width p) 0 0 false (reset_needed s) (nhs s) (nws s) (log s).

(** Lines 129-145: the outcome, the messages logged and the state. *)
Definition context_hypertile_vae (opts : options) (p : processing) (s : wstate)
    : shim_outcome * list host_message * wstate :=
  let s := start_stage p s in
  match p_sd_model p with
  | None => (Returns NullContext, [], s)
  | Some m =>
      if negb (hypertile_vae_enabled opts) then (Returns NullContext, [], s)
      else
        let vae := if backend_is_diffusers opts
                   then getattr_or_none (vae m)
                   else getattr_or_none (first_stage_model m) in
        match vae with
        | None =>
            (Returns NullContext,
             [Warning "Hypertile VAE is enabled but no VAE model was found"], s)
        | Some layer =>
            (Returns (SplitAttention layer (hypertile_vae_tile opts) 128 1 0),
             [Info ("Applying hypertile: vae=" +:+ str_int (hypertile_vae_tile opts))],
             s)
        end
  end.

(** Lines 148-164. *)
Definition context_hypertile_unet (opts : options) (p : processing) (s : wstate)
    : shim_outcome * list host_message * wstate :=
  let s := start_stage p s in
  match p_sd_model p with
  | None => (Returns NullContext, [], s)
  | Some m =>
      if negb (hypertile_unet_enabled opts) then (Returns NullContext, [], s)
      else
        let unet :=
          if backend_is_diffusers opts then Some (getattr_or_none (unet m))
          else
            match model m with
            | Missing => None
            | IsNone => Some None
            | Has inner => Some (getattr_or_none (diffusion_model inner))
            end in
        match unet with
        | None => (AttributeError, [], s)
        | Some None =>
            (Returns NullContext,
             [Warning "Hypertile Unet is enabled but no Unet model was found"], s)
        | Some (Some layer) =>
            (Returns (SplitAttention layer (hypertile_unet_tile opts) 128 1 0),
             [Info ("Applying hypertile: unet=" +:+ str_int (hypertile_unet_tile opts))],
             s)
        end
  end.

(** Lines 167-172. *)
Definition hypertile_set (p : processing) (s : wstate) : wstate :=
  WState (p_height p) (p_width p) (max_h s) (max_w s) false true
    (nhs s) (nws s) (log s).

(** Lines 46-48, which run when the [with] statement is entered, before
    any module is patched: the aspect ratio [height / width], of which
    only the division by zero is modelled, and the candidate lists. *)
Definition scope_prologue `{ArgSort} (tile_size min_tile_size swap_size : Z)
    : W unit :=
  s ← get;
  (if decide (width s = 0) then lift (Raise ZeroDivisionError) else mret tt);;
  init_candidates tile_size min_tile_size swap_size.

(** The part of entering a context that works on the process-wide
    variables and the candidate lists. *)
Definition enter_context `{ArgSort} (c : context) : W unit :=
  match c with
  | NullContext => mret tt
  | SplitAttention _ tile_size min_tile_size swap_size _ =>
      scope_prologue tile_size min_tile_size swap_size
  end.

(** * Vocabulary of the statements *)

(** The tensor [n] after the two boolean masks of lines 30 and 31. *)
Definition candidates (dimension tile_size min_tile_size : Z) : list Z :=
  filter (λ n : Z, Z.min (Z.min min_tile_size tile_size) dimension ≤ dimension / n)
    (filter (λ n : Z, dimension / n / 8 * 8 * n = dimension)
       ((λ i : nat, 1 + Z.of_nat i) <$> seq 0 (Z.to_nat (dimension + 1 - 1)))).

(** The scalars of lines 31 and 32 that the conversion accepts, for a
    dimension that is not negative: the clamp of line 27 is then the
    least of the two or the dimension. *)
Definition accepted (tile_size min_tile_size : Z) : Prop :=
  int64_min ≤ min_tile_size ∧ int64_min ≤ tile_size ≤ uint64_max.

(** The sort keys of line 32. *)
Definition sort_keys (dimension tile_size : Z) (n : list Z) : list Z :=
  (λ n : Z, abs64 (sub64 (dimension / n) tile_size)) <$> n.

(** The distance of the tile edge that [n] tiles give from the target. *)
Definition distance (dimension tile_size n : Z) : Z :=
  Z.abs (dimension / n - tile_size).

(** The arguments are int64 values, the dimension is positive, at least
    one option is asked for, and the distance of the largest tile edge from
    the target fits int64, as it does for every target that is not
    negative. *)
Definition valid_input (dimension tile_size tile_options : Z) : Prop :=
  1 ≤ dimension ≤ int64_max ∧ int64_min ≤ tile_size ≤ int64_max
  ∧ 1 ≤ tile_options ∧ dimension - tile_size ≤ int64_max.

(** The part of C3 on candidates at equal distance: they come in
    ascending order of [n]. *)
Definition ties_ascending (dimension tile_size : Z) (l : list Z) : Prop :=
  ∀ (i j : nat) (a b : Z),
    (i < j)%nat → l !! i = Some a → l !! j = Some b →
    distance dimension tile_size a = distance dimension tile_size b → a < b.

(** The order of a stable sort: by key, then by index. *)
Definition key_index_lt (keys : list Z) (i j : nat) : Prop :=
  key_of keys i < key_of keys j ∨ (key_of keys i = key_of keys j ∧ (i < j)%nat).

(** Whether lines 116-120 patch the item, and whether lines 124-126
    restore it, in a store of module objects. *)
Definition will_patch (mods : gmap nat module_obj) (item : string * nat) : bool :=
  match mods !! item.2 with
  | Some m => is_attention m && negb (is_cross_attention item.1)
  | None => false
  end.

Definition has_saved (mods : gmap nat module_obj) (item : string * nat) : bool :=
  match mods !! item.2 with
  | Some m => bool_decide (is_Some (original_forward m))
  | None => false
  end.

Definition patched_obj (m : module_obj) : module_obj :=
  Module (qualname m) (Wrapper (forward m)) (Some (forward m)).

Definition restored_obj (m : module_obj) : module_obj :=
  match original_forward m with
  | Some f => Module (qualname m) f None
  | None => m
  end.

Definition py_will_patch (mods : gmap nat py_module) (item : string * nat) : bool :=
  match mods !! item.2 with
  | Some m => py_is_attention m && negb (is_cross_attention item.1)
  | None => false
  end.

Definition py_has_saved (mods : gmap nat py_module) (item : string * nat) : bool :=
  match mods !! item.2 with
  | Some m => bool_decide (is_Some (dict_original_forward m))
  | None => false
  end.

Definition py_restored (m : py_module) : py_module :=
  match dict_original_forward m with
  | Some c => PyModule (py_qualname m) (class_forward m) (Some c) None
  | None => m
  end.

(** The region leaves the module objects in place and does not touch the
    entry [_original_forward] of their instance dictionaries. *)
Definition py_keeps_saved (body : py_region) : Prop :=
  ∀ mods next id m, mods !! id = Some m →
    ∃ m', (body mods next).1.2 !! id = Some m'
      ∧ dict_original_forward m' = dict_original_forward m.





(** A forward computation that works element by element. *)
Definition pointwise {A} (f : A → A) (t : tensor A) : tensor A :=
  Tensor (shape t) (f <$> data t).

(** What a scope does to the process-wide variables, one step after
    another: a call of the [try] statement of lines 99-111, or anything
    else (the draw, the size tracking), which is taken as a function on
    the state. *)
Inductive scope_step (A : Type) : Type :=
  | TryStep (x : tensor A) (h w nh nw : Z) (do_split : bool)
  | OtherStep (g : wstate → wstate).
Arguments TryStep {A} x h w nh nw do_split.
Arguments OtherStep {A} g.

Definition run_step {A} (forward : tensor A → result (tensor A))
    (s : wstate) (step : scope_step A) : wstate :=
  match step with
  | TryStep x h w nh nw do_split => (unet_try forward x h w nh nw do_split s).2
  | OtherStep g => g s
  end.

(** Whether the suite of the [try] raises at a step. *)
Definition attempt_fails {A} (forward : tensor A → result (tensor A))
    (step : scope_step A) : bool :=
  match step with
  | TryStep x h w nh nw do_split =>
      match (unet_attempt forward x h w nh nw do_split).1 with
      | Raise _ => true
      | Ok _ => false
      end
  | OtherStep _ => false
  end.

(** A step outside the [try] statement that leaves [error_reported] and
    the log alone, as the draw and the size tracking do. *)
Definition keeps_log {A} (step : scope_step A) : Prop :=
  match step with
  | TryStep _ _ _ _ _ _ => True
  | OtherStep g => ∀ s, error_reported (g s) = error_reported s ∧ log (g s) = log s
  end.

(** A forward computation that accepts a batch of one element only, and
    one that returns its input as a one-dimensional tensor. *)
Definition batch_one_forward (t : tensor Z) : result (tensor Z) :=
  if decide (shape t !! 0%nat = Some 1%nat) then Ok t else Raise RuntimeError.

Definition flatten_forward (t : tensor Z) : result (tensor Z) :=
  Ok (Tensor [length (data t)] (data t)).

(** A sequence of four tokens of one channel: a stage of 2 by 2. *)
Definition four_tokens : tensor Z := Tensor [1; 4; 1]%nat [10; 20; 30; 40].

(** A network with a self-attention module that sits at two places, a
    cross-attention module and an attention block, and a region that
    raises. *)
Definition demo_layer : module_tree :=
  MNode 0 [("down", MNode 1 [("attn1", MNode 2 []); ("attn2", MNode 3 [])]);
           ("mid", MNode 4 [("attn_1", MNode 5 []); ("shared", MNode 2 [])])]%string.

Definition demo_modules : gmap nat module_obj :=
  list_to_map
    [(0, Module "UNet" (Native 10) None); (1, Module "Block" (Native 11) None);
     (2, Module "Attention" (Native 12) None);
     (3, Module "Attention" (Native 13) None);
     (4, Module "Block" (Native 14) None);
     (5, Module "AttnBlock" (Native 15) None)]%nat.

Definition raising_region : region := λ mods, (Raised RuntimeError, mods).

(** The same network as objects: no module has an entry of its own in the
    instance dictionary, every [forward] is the method of the class. *)
Definition py_demo_modules : gmap nat py_module :=
  list_to_map
    [(0, PyModule "UNet" 10 None None); (1, PyModule "Block" 11 None None);
     (2, PyModule "Attention" 12 None None);
     (3, PyModule "Attention" 13 None None);
     (4, PyModule "Block" 14 None None);
     (5, PyModule "AttnBlock" 15 None None)]%nat.

Definition py_raising_region : py_region := λ mods next,
  (Raised RuntimeError, mods, next).

(** A region that returns, and a region that enters the scope again on
    the same network. *)
Definition returning_region : region := λ mods, (Returned, mods).

Definition nested_region : region := λ mods,
  let '(r, s) := split_attention demo_layer returning_region mods in
  (r, modules s).

(** The region that enters the scope again on the network [layer] and
    does nothing under it. *)
Definition reentering_region (layer : module_tree) : region := λ mods,
  let '(r, s) := split_attention layer returning_region mods in
  (r, modules s).

(** * Properties *)

(** ** Sorting by key *)

Lemma insert_by_key_perm before keys i l :
  insert_by_key before keys i l ≡ₚ i :: l.
Proof.
  induction l as [|j l IH]; simpl; [done|].
  repeat case_decide; try done.
  - destruct before; [done|]. rewrite IH. apply Permutation_swap.
  - rewrite IH. apply Permutation_swap.
Qed.

Lemma foldr_insert_by_key_perm before keys l :
  foldr (insert_by_key before keys) [] l ≡ₚ l.
Proof.
  induction l as [|i l IH]; simpl; [done|].
  by rewrite insert_by_key_perm, IH.
Qed.

Lemma insert_by_key_sorted before keys i l :
  Sorted Z.le (key_of keys <$> l) →
  Sorted Z.le (key_of keys <$> insert_by_key before keys i l).
Proof.
  induction l as [|j l IH]; simpl; intros Hs.
  - repeat constructor.
  - fold (key_of keys i) (key_of keys j).
    apply Sorted_inv in Hs as [Hs Hhd].
    assert (Hins : key_of keys j ≤ key_of keys i →
      Sorted Z.le (key_of keys <$> j :: insert_by_key before keys i l)).
    { intros Hle. simpl. constructor; [by apply IH|].
      destruct l as [|j' l]; simpl.
      - by constructor.
      - fold (key_of keys i) (key_of keys j').
        apply HdRel_inv in Hhd.
        repeat case_decide; try destruct before; by constructor. }
    repeat case_decide.
    + simpl. repeat constructor; [done..|lia].
    + destruct before; [|apply Hins; lia].
      simpl. repeat constructor; [done..|lia].
    + apply Hins. lia.
Qed.

Lemma argsort_with_perm before keys :
  argsort_with before keys ≡ₚ seq 0 (length keys).
Proof. apply foldr_insert_by_key_perm. Qed.

Lemma argsort_with_sorted before keys :
  StronglySorted Z.le (key_of keys <$> argsort_with before keys).
Proof.
  apply Sorted_StronglySorted; [intros x y z; lia|].
  unfold argsort_with. generalize (seq 0 (length keys)) as l.
  induction l as [|i l IH]; simpl; [constructor|].
  by apply (insert_by_key_sorted before keys i).
Qed.

(** The stable sort: equal keys keep the order of their indices. *)
Definition stable_argsort : ArgSort :=
  {| argsort := argsort_with true;
     argsort_perm := argsort_with_perm true;
     argsort_sorted := argsort_with_sorted true |}.


Section std_sort_facts.
Variable keys : list Z.














End std_sort_facts.


#[global] Instance key_index_lt_trans (keys : list Z) : Transitive (key_index_lt keys).
Proof. unfold key_index_lt. intros i j k ??. lia. Qed.

Lemma insert_by_key_stable keys i l :
  Forall (λ j, (i < j)%nat) l →
  Sorted (key_index_lt keys) l →
  Sorted (key_index_lt keys) (insert_by_key true keys i l).
Proof.
  induction l as [|j l IH]; simpl; intros Hlt Hs.
  - repeat constructor.
  - apply Forall_cons in Hlt as [Hij Hlt]. apply Sorted_inv in Hs as [Hs Hhd].
    repeat case_decide.
    + apply Sorted_cons; [by apply Sorted_cons|]. constructor. by left.
    + apply Sorted_cons; [by apply Sorted_cons|]. constructor. by right.
    + apply Sorted_cons; [by apply IH|].
      assert (key_index_lt keys j i) by (left; lia).
      destruct l as [|j' l]; simpl.
      * by constructor.
      * apply HdRel_inv in Hhd. repeat case_decide; by constructor.
Qed.

(** The stable sort orders the indices by key and, at equal keys, by
    index. *)
Lemma stable_argsort_sorted (keys : list Z) :
  StronglySorted (key_index_lt keys) (argsort_with true keys).
Proof.
  apply Sorted_StronglySorted; [apply _|].
  unfold argsort_with. generalize 0%nat as a, (length keys) as n.
  intros a n. revert a. induction n as [|n IH]; intros a; simpl; [constructor|].
  apply insert_by_key_stable; [|apply IH].
  apply Forall_forall. intros j Hj.
  rewrite foldr_insert_by_key_perm in Hj. apply elem_of_seq in Hj. lia.
Qed.

Lemma StronglySorted_lookup {B} (R : relation B) (l : list B) (i j : nat) (x y : B) :
  StronglySorted R l → (i < j)%nat → l !! i = Some x → l !! j = Some y → R x y.
Proof.
  intros Hs. revert i j. induction Hs as [|a l Hs IH Hall]; intros i j Hij Hi Hj.
  { by rewrite lookup_nil in Hi. }
  destruct j as [|j]; [lia|]. simpl in Hj.
  destruct i as [|i]; simpl in Hi.
  - injection Hi as ->. rewrite Forall_forall in Hall.
    by eapply Hall, list_elem_of_lookup_2.
  - apply (IH i j); [lia|done..].
Qed.

(** ** Tile size selector *)

Lemma index_select_Ok (t : list Z) (pos : list nat) :
  Forall (λ i, (i < length t)%nat) pos →
  index_select t pos = Ok (key_of t <$> pos).
Proof.
  intros Hpos. unfold index_select.
  assert (mapM (λ i : nat, t !! i) pos = Some (key_of t <$> pos)) as ->; [|done].
  apply mapM_Some. induction Hpos as [|i pos Hi _ IH]; simpl; constructor; [|done].
  apply lookup_lt_is_Some in Hi as [x Hx]. unfold key_of. by rewrite Hx.
Qed.

Lemma arange_Ok (start stop : Z) :
  start ≤ stop → int64_min ≤ stop → stop - 1 ≤ int64_max →
  arange start stop
  = Ok ((λ i : nat, start + Z.of_nat i) <$> seq 0 (Z.to_nat (stop - start))).
Proof. intros. unfold arange. case_decide; [lia|]. case_decide; [lia|done]. Qed.

Lemma scalar_Ok (z : Z) : int64_min ≤ z ≤ uint64_max → scalar z = Ok z.
Proof. intros. unfold scalar. by case_decide. Qed.

Lemma scalar_inv (z z' : Z) : scalar z = Ok z' → z' = z ∧ int64_min ≤ z ≤ uint64_max.
Proof. unfold scalar. case_decide; [|done]. by intros [= <-]. Qed.

Lemma int64_lt_uint64 : int64_max < uint64_max.
Proof. unfold int64_max, uint64_max. lia. Qed.

Lemma int64_min_neg : int64_min < 0.
Proof. unfold int64_min. lia. Qed.

Ltac in_range :=
  unfold accepted, valid_input, uint64_max, int64_max, int64_min in *; simpl in *; lia.

Lemma elem_of_arange (start stop n : Z) :
  n ∈ (λ i : nat, start + Z.of_nat i) <$> seq 0 (Z.to_nat (stop - start))
  ↔ start ≤ n < stop.
Proof.
  rewrite list_elem_of_fmap. setoid_rewrite elem_of_seq. split.
  - intros (i & -> & Hi). lia.
  - intros Hn. exists (Z.to_nat (n - start)). lia.
Qed.

Lemma elem_of_candidates (dimension tile_size min_tile_size n : Z) :
  n ∈ candidates dimension tile_size min_tile_size ↔
  1 ≤ n ≤ dimension ∧ dimension / n / 8 * 8 * n = dimension
  ∧ Z.min (Z.min min_tile_size tile_size) dimension ≤ dimension / n.
Proof.
  unfold candidates. rewrite !list_elem_of_filter, elem_of_arange. lia.
Qed.

Section selector_facts.
Context `{ArgSort}.

Lemma argsort_lt (keys : list Z) :
  Forall (λ i, (i < length keys)%nat) (argsort keys).
Proof.
  apply Forall_forall. intros i Hi.
  rewrite (argsort_perm keys) in Hi. apply elem_of_seq in Hi. lia.
Qed.

(** On an int64 dimension that is not negative, with at least one option
    asked for and scalars that the conversion accepts, the selector
    returns, and what it returns is the candidates at the first positions
    of the sorted order. *)
Lemma possible_tile_sizes_Ok (dimension tile_size min_tile_size tile_options : Z) :
  0 ≤ dimension ≤ int64_max → 1 ≤ tile_options → accepted tile_size min_tile_size →
  possible_tile_sizes dimension tile_size min_tile_size tile_options
  = Ok (key_of (candidates dimension tile_size min_tile_size)
          <$> take (Z.to_nat tile_options)
                (argsort (sort_keys dimension tile_size
                            (candidates dimension tile_size min_tile_size)))).
Proof.
  intros Hd Hk (Hm & Ht1 & Ht2). unfold possible_tile_sizes.
  pose proof int64_lt_uint64. pose proof int64_min_neg.
  case_decide; [lia|]. rewrite arange_Ok by lia. simpl.
  rewrite scalar_Ok by lia. simpl. rewrite scalar_Ok by lia. simpl.
  fold (candidates dimension tile_size min_tile_size).
  fold (sort_keys dimension tile_size (candidates dimension tile_size min_tile_size)).
  apply index_select_Ok. apply Forall_take.
  eapply Forall_impl; [apply argsort_lt|].
  intros i. simpl. unfold sort_keys. by rewrite length_fmap.
Qed.

Lemma selected_elem_of (dimension tile_size min_tile_size tile_options n : Z) l :
  possible_tile_sizes dimension tile_size min_tile_size tile_options = Ok l →
  n ∈ l → n ∈ candidates dimension tile_size min_tile_size.
Proof.
  unfold possible_tile_sizes. case_decide; [done|].
  unfold arange. case_decide; [done|]. case_decide; [done|]. simpl.
  destruct (scalar (Z.min _ _)) as [c|] eqn:Hc; [|done].
  apply scalar_inv in Hc as [-> _]. simpl.
  destruct (scalar tile_size) as [t|] eqn:Ht; [|done].
  apply scalar_inv in Ht as [-> _]. simpl.
  fold (candidates dimension tile_size min_tile_size).
  unfold index_select. destruct (mapM _ _) as [l'|] eqn:Hm; [|done].
  intros [= <-] Hn. apply mapM_Some in Hm.
  apply list_elem_of_lookup in Hn as [j Hj].
  destruct (Forall2_lookup_r _ _ _ _ _ Hm Hj) as (i & _ & Hi).
  by apply list_elem_of_lookup_2 in Hi.
Qed.
(** A candidate [n] makes the dimension [n] times a multiple of 8. *)
Lemma candidates_not_multiple_of_8 (dimension tile_size min_tile_size : Z) :
  dimension `mod` 8 ≠ 0 → candidates dimension tile_size min_tile_size = [].
Proof.
  intros H8.
  destruct (candidates dimension tile_size min_tile_size) as [|n ns] eqn:Hc; [done|].
  assert (Hn : n ∈ candidates dimension tile_size min_tile_size) by (rewrite Hc; left).
  apply elem_of_candidates in Hn as (Hn & Hdiv & _). destruct H8.
  rewrite <- Hdiv.
  replace (dimension / n / 8 * 8 * n) with (dimension / n / 8 * n * 8) by lia.
  apply Z.mod_mul. lia.
Qed.

Lemma possible_tile_sizes_nil (dimension tile_size min_tile_size tile_options : Z) :
  0 ≤ dimension ≤ int64_max → dimension `mod` 8 ≠ 0 → 1 ≤ tile_options →
  accepted tile_size min_tile_size →
  possible_tile_sizes dimension tile_size min_tile_size tile_options = Ok [].
Proof.
  intros Hd H8 Hk Hacc. rewrite possible_tile_sizes_Ok by done.
  rewrite candidates_not_multiple_of_8 by done.
  pose proof (argsort_perm (sort_keys dimension tile_size [])) as Hp.
  apply Permutation_nil_r in Hp. rewrite Hp. by rewrite take_nil.
Qed.

(** The selector returns a list on no other arguments. *)
Lemma possible_tile_sizes_Ok_inv (dimension tile_size min_tile_size tile_options : Z) l :
  possible_tile_sizes dimension tile_size min_tile_size tile_options = Ok l →
  0 ≤ dimension ≤ int64_max ∧ 1 ≤ tile_options ∧ accepted tile_size min_tile_size.
Proof.
  unfold possible_tile_sizes. case_decide; [done|].
  unfold arange. case_decide; [done|]. case_decide; [done|]. simpl.
  destruct (scalar (Z.min _ _)) as [c|] eqn:Hc; [|done].
  apply scalar_inv in Hc as [-> Hc]. simpl.
  destruct (scalar tile_size) as [t|] eqn:Ht; [|done].
  apply scalar_inv in Ht as [-> Ht]. intros _.
  unfold accepted. lia.
Qed.
End selector_facts.

Lemma wrap64_id (z : Z) : int64_min ≤ z ≤ int64_max → wrap64 z = z.
Proof.
  unfold int64_min, int64_max, wrap64. intros Hz.
  rewrite Z.mod_small; lia.
Qed.

Lemma sort_key_distance (dimension tile_size n : Z) :
  tile_size ≤ int64_max → dimension - tile_size ≤ int64_max →
  1 ≤ n ≤ dimension →
  abs64 (sub64 (dimension / n) tile_size) = distance dimension tile_size n.
Proof.
  intros Ht Hdt Hn. unfold abs64, sub64, distance.
  assert (0 ≤ dimension / n ≤ dimension).
  { split; [apply Z.div_pos; lia|]. apply Z.div_le_upper_bound; nia. }
  unfold int64_min, int64_max in *.
  rewrite (wrap64_id (dimension / n - tile_size)) by (unfold int64_min, int64_max; lia).
  apply wrap64_id. unfold int64_min, int64_max. lia.
Qed.


Lemma candidate_divides (dimension n : Z) :
  1 ≤ n → dimension / n / 8 * 8 * n = dimension →
  dimension `mod` n = 0 ∧ (dimension / n) `mod` 8 = 0.
Proof.
  intros Hn Heq.
  pose proof (Z.mul_div_le dimension n ltac:(lia)).
  pose proof (Z.mul_div_le (dimension / n) 8 ltac:(lia)).
  assert (dimension / n / 8 * 8 = dimension / n) by nia.
  split.
  - rewrite Z.mod_eq by lia. nia.
  - rewrite Z.mod_eq by lia. lia.
Qed.

(** A key strictly below all the others is sorted first. *)
Lemma argsort_head_min `{ArgSort} (k0 : Z) (ks : list Z) :
  Forall (λ k, k0 < k) ks → ∃ pos, argsort (k0 :: ks) = 0%nat :: pos.
Proof.
  intros Hks.
  pose proof (argsort_perm (k0 :: ks)) as Hp.
  pose proof (argsort_sorted (k0 :: ks)) as Hs.
  destruct (argsort (k0 :: ks)) as [|p pos].
  { apply Permutation_length in Hp. done. }
  destruct p as [|p]; [by eexists|]. exfalso.
  assert (Hp' : S p ∈ seq 0 (length (k0 :: ks))) by (rewrite <- Hp; left).
  apply elem_of_seq in Hp'. simpl in Hp'.
  destruct (lookup_lt_is_Some_2 ks p) as [kp Hkp]; [lia|].
  assert (k0 < kp) by (eapply (proj1 (Forall_forall _ _) Hks), list_elem_of_lookup_2, Hkp).
  assert (Hz : 0%nat ∈ S p :: pos) by (rewrite Hp; simpl; left).
  apply elem_of_cons in Hz as [|Hz]; [done|].
  csimpl in Hs. apply StronglySorted_cons in Hs as [Hall _].
  rewrite Forall_fmap, Forall_forall in Hall.
  specialize (Hall _ Hz). unfold key_of in Hall. simpl in Hall.
  rewrite Hkp in Hall. simpl in Hall. lia.
Qed.

Lemma candidates_self (dimension : Z) :
  1 ≤ dimension → dimension `mod` 8 = 0 →
  ∃ ns, candidates dimension dimension 1 = 1 :: ns ∧ Forall (λ n, 2 ≤ n ≤ dimension) ns.
Proof.
  intros Hd H8. unfold candidates.
  replace (Z.to_nat (dimension + 1 - 1)) with (S (Z.to_nat (dimension - 1))) by lia.
  cbn [seq fmap list_fmap]. rewrite <- fmap_S_seq, <- list_fmap_compose.
  change (1 + Z.of_nat 0) with 1.
  assert (Hdiv : dimension / 1 / 8 * 8 * 1 = dimension).
  { rewrite Z.div_1_r. apply Z.div_exact in H8; lia. }
  rewrite (filter_cons_True (λ n : Z, dimension / n / 8 * 8 * n = dimension)) by done.
  rewrite filter_cons_True by (rewrite Z.div_1_r; lia).
  eexists. split; [done|].
  apply Forall_forall. intros n Hn.
  apply list_elem_of_filter in Hn as [_ Hn]. apply list_elem_of_filter in Hn as [_ Hn].
  apply list_elem_of_fmap in Hn as (i & -> & Hi). apply elem_of_seq in Hi.
  simpl. lia.
Qed.

Lemma StronglySorted_seq (a n : nat) : StronglySorted lt (seq a n).
Proof.
  revert a. induction n as [|n IH]; intros a; simpl; constructor; [done|].
  apply Forall_forall. intros j Hj%elem_of_seq. lia.
Qed.

Lemma StronglySorted_filter {B} (R : relation B) (P : B → Prop)
    `{!∀ x, Decision (P x)} (l : list B) :
  StronglySorted R l → StronglySorted R (filter P l).
Proof.
  induction 1 as [|x l Hs IH Hall]; [constructor|].
  rewrite filter_cons. case_decide; [|done].
  constructor; [done|]. rewrite Forall_forall in *.
  intros y Hy%list_elem_of_filter. apply Hall. tauto.
Qed.

(** The candidates are in ascending order of [n]. *)
Lemma candidates_increasing (dimension tile_size min_tile_size : Z) :
  StronglySorted Z.lt (candidates dimension tile_size min_tile_size).
Proof.
  unfold candidates. do 2 apply StronglySorted_filter.
  eapply StronglySorted_fmap; [|apply StronglySorted_seq].
  intros i j Hij. simpl in *. lia.
Qed.

(** With a stable argsort the candidates at equal distance are in
    ascending order of [n]: the order that C3 states is the order of a
    stable sort. *)
Lemma possible_tile_sizes_stable_ties
    (dimension tile_size min_tile_size tile_options : Z) :
  valid_input dimension tile_size tile_options → int64_min ≤ min_tile_size →
  ∃ l, @possible_tile_sizes stable_argsort dimension tile_size min_tile_size
         tile_options = Ok l
    ∧ ties_ascending dimension tile_size l.
Proof.
  intros ([Hd1 Hd2] & [Ht1 Ht2] & Hk & Hdt) Hm.
  eexists. split; [apply possible_tile_sizes_Ok; in_range|].
  set (cands := candidates dimension tile_size min_tile_size).
  set (keys := sort_keys dimension tile_size cands).
  intros i j a b Hij Hi Hj Hdist.
  apply list_lookup_fmap_Some in Hi as (p & -> & Hp).
  apply list_lookup_fmap_Some in Hj as (q & -> & Hq).
  apply lookup_take_Some in Hp as [Hp _]. apply lookup_take_Some in Hq as [Hq _].
  pose proof (stable_argsort_sorted keys) as Hs.
  pose proof (StronglySorted_lookup _ _ i j p q Hs Hij Hp Hq) as Hpq.
  assert (Hlt : ∀ i p, argsort_with true keys !! i = Some p →
    ∃ n, cands !! p = Some n ∧ key_of cands p = n
      ∧ key_of keys p = distance dimension tile_size n).
  { intros i' p' Hp'. apply list_elem_of_lookup_2 in Hp'.
    rewrite (argsort_with_perm true keys) in Hp'. apply elem_of_seq in Hp'.
    unfold keys, sort_keys in Hp'. rewrite length_fmap in Hp'.
    destruct (lookup_lt_is_Some_2 cands p') as [n Hn]; [lia|].
    exists n. split; [done|]. unfold key_of, keys, sort_keys.
    rewrite list_lookup_fmap, Hn. simpl. split; [done|].
    apply list_elem_of_lookup_2, elem_of_candidates in Hn as (Hn & _).
    apply sort_key_distance; lia. }
  destruct (Hlt _ _ Hp) as (n1 & Hn1 & He1 & Hk1).
  destruct (Hlt _ _ Hq) as (n2 & Hn2 & He2 & Hk2).
  rewrite He1, He2 in *.
  destruct Hpq as [Hpq|[_ Hpq]]; [lia|].
  exact (StronglySorted_lookup _ _ p q n1 n2
           (candidates_increasing dimension tile_size min_tile_size) Hpq Hn1 Hn2).
Qed.

Section selector_claims.
Context `{ArgSort}.

(** C2: on a dimension of at least 1 and with at least one option asked
    for, every [n] of a list that the selector returns divides the
    dimension, gives a tile edge [dimension // n] that is a multiple of
    8, and gives a tile edge of at least
    [min(min_tile_size, tile_size, dimension)]; and the selector does
    return a list when the dimension is an int64 and the conversion
    accepts the two scalars. *)
Theorem possible_tile_sizes_sound (dimension tile_size min_tile_size tile_options : Z) :
  1 ≤ dimension → 1 ≤ tile_options →
  (∀ l, possible_tile_sizes dimension tile_size min_tile_size tile_options = Ok l →
     ∀ n, n ∈ l →
       dimension `mod` n = 0 ∧ (dimension / n) `mod` 8 = 0
       ∧ Z.min (Z.min min_tile_size tile_size) dimension ≤ dimension / n)
  ∧ (dimension ≤ int64_max → accepted tile_size min_tile_size →
     ∃ l, possible_tile_sizes dimension tile_size min_tile_size tile_options = Ok l).
Proof.
  intros Hd Hk. split.
  - intros l Hl n Hn.
    eapply selected_elem_of in Hn; [|exact Hl].
    apply elem_of_candidates in Hn as ([Hn1 Hn2] & Hdiv & Hmin).
    destruct (candidate_divides dimension n) as [? ?]; [lia|done|].
    done.
  - intros Hmax Hacc. eexists. apply possible_tile_sizes_Ok; [lia|done..].
Qed.

(** C9, amended: on an int64 dimension of at least 1 that is not a
    multiple of 8 the selector returns the empty list, for every
    [tile_size] and [min_tile_size] that the conversion to a scalar
    accepts; and whatever list the selector returns on a dimension that
    is not a multiple of 8 is empty, [n = 1] being no candidate. *)
Theorem possible_tile_sizes_not_multiple_of_8
    (dimension tile_size min_tile_size tile_options : Z) :
  1 ≤ dimension ≤ int64_max → dimension `mod` 8 ≠ 0 → 1 ≤ tile_options →
  (accepted tile_size min_tile_size →
   possible_tile_sizes dimension tile_size min_tile_size tile_options = Ok [])
  ∧ (∀ l, possible_tile_sizes dimension tile_size min_tile_size tile_options = Ok l →
       l = [])
  ∧ 1 ∉ candidates dimension tile_size min_tile_size.
Proof.
  intros Hd H8 Hk. split; [|split].
  - intros Hacc. apply possible_tile_sizes_nil; [lia|done..].
  - intros [|n l] Hl; [done|].
    assert (Hn : n ∈ candidates dimension tile_size min_tile_size).
    { eapply selected_elem_of; [exact Hl|left]. }
    rewrite candidates_not_multiple_of_8 in Hn by done. by apply elem_of_nil in Hn.
  - rewrite candidates_not_multiple_of_8 by done. apply not_elem_of_nil.
Qed.

(** C8, amended: for every dimension from 1 to the largest int64 that is
    a multiple of 8, [possible_tile_sizes(dimension, dimension, 1, 1)]
    returns a list that contains [n = 1]. *)
Theorem possible_tile_sizes_no_split (dimension : Z) :
  1 ≤ dimension ≤ int64_max → dimension `mod` 8 = 0 →
  ∃ l, possible_tile_sizes dimension dimension 1 1 = Ok l ∧ 1 ∈ l.
Proof.
  intros Hd H8. rewrite possible_tile_sizes_Ok by in_range.
  destruct (candidates_self dimension) as (ns & Hc & Hns); [lia|done|].
  rewrite Hc. cbn [sort_keys fmap list_fmap].
  destruct (argsort_head_min (abs64 (sub64 (dimension / 1) dimension))
              ((λ n : Z, abs64 (sub64 (dimension / n) dimension)) <$> ns))
    as [pos Hpos].
  { rewrite Forall_fmap. eapply Forall_impl; [exact Hns|].
    intros n Hn. cbv beta in Hn. simpl.
    rewrite !sort_key_distance by (unfold int64_max in *; lia).
    unfold distance. rewrite Z.div_1_r, Z.sub_diag. simpl.
    assert (0 ≤ dimension / n) by (apply Z.div_pos; lia).
    assert (dimension / n < dimension) by (apply Z.div_lt; lia).
    lia. }
  rewrite Hpos. eexists. split; [done|]. simpl. left.
Qed.

End selector_claims.

Lemma possible_tile_sizes_sound_witness :
  1 ≤ 512 ∧ 1 ≤ 1
  ∧ @possible_tile_sizes stable_argsort 512 256 256 1 = Ok [2]
  ∧ (∀ l, @possible_tile_sizes stable_argsort 512 256 256 1 = Ok l →
       ∀ n, n ∈ l →
         512 `mod` n = 0 ∧ (512 / n) `mod` 8 = 0
         ∧ Z.min (Z.min 256 256) 512 ≤ 512 / n)
  ∧ (512 ≤ int64_max → accepted 256 256 →
     ∃ l, @possible_tile_sizes stable_argsort 512 256 256 1 = Ok l).
Proof.
  split; [lia|]. split; [lia|]. split; [reflexivity|].
  apply (@possible_tile_sizes_sound stable_argsort 512 256 256 1); lia.
Defined.

Lemma possible_tile_sizes_not_multiple_of_8_witness :
  1 ≤ 100 ≤ int64_max ∧ 100 `mod` 8 ≠ 0 ∧ 1 ≤ 1 ∧ accepted 256 128
  ∧ (accepted 256 128 → @possible_tile_sizes stable_argsort 100 256 128 1 = Ok [])
  ∧ (∀ l, @possible_tile_sizes stable_argsort 100 256 128 1 = Ok l → l = [])
  ∧ 1 ∉ candidates 100 256 128.
Proof.
  split; [in_range|]. split; [done|]. split; [lia|]. split; [in_range|].
  apply (@possible_tile_sizes_not_multiple_of_8 stable_argsort 100 256 128 1);
    [in_range|done|lia].
Defined.

(** C9 as stated fails on a [tile_size] that torch does not accept as a
    scalar: line 32 converts it before it looks at the tensor, which is
    empty here, and the conversion raises [OverflowError]. *)
Lemma possible_tile_sizes_not_multiple_of_8_overflow :
  1 ≤ 100 ∧ 100 `mod` 8 ≠ 0 ∧ 1 ≤ 1
  ∧ @possible_tile_sizes stable_argsort 100 (2 ^ 64) 128 1 = Raise OverflowError
  ∧ @possible_tile_sizes stable_argsort 100 (2 ^ 64) 128 1 ≠ Ok [].
Proof. split; [lia|]. split; [done|]. split; [lia|]. split; done. Qed.

Lemma possible_tile_sizes_no_split_witness :
  1 ≤ 512 ≤ int64_max ∧ 512 `mod` 8 = 0
  ∧ ∃ l, @possible_tile_sizes stable_argsort 512 512 1 1 = Ok l ∧ 1 ∈ l.
Proof.
  split; [unfold int64_max; lia|]. split; [done|].
  apply (@possible_tile_sizes_no_split stable_argsort 512);
    [unfold int64_max; lia|done].
Defined.

(** C8 as stated fails at the dimension 0, a multiple of 8: there is no
    [n] in [1, 0], and the selector returns the empty list. *)
Lemma possible_tile_sizes_no_split_at_0 :
  0 `mod` 8 = 0
  ∧ @possible_tile_sizes stable_argsort 0 0 1 1 = Ok []
  ∧ ¬ ∃ l, @possible_tile_sizes stable_argsort 0 0 1 1 = Ok l ∧ 1 ∈ l.
Proof.
  split; [done|]. split; [done|].
  intros (l & [= <-] & Hin). by apply elem_of_nil in Hin.
Qed.



(** ** [parse_list] *)


Example parse_list_example : parse_list [1; -2; 30] = Ok "[1, -2, 30]"%string.
Proof. reflexivity. Qed.

Example possible_tile_sizes_example :
  @possible_tile_sizes stable_argsort 512 256 256 1 = Ok [2].
Proof. reflexivity. Qed.

(** ** Partition and reassembly of a 4-D tensor *)

Section index_arithmetic.
Local Open Scope nat_scope.

Lemma digit_div (q m r : nat) : r < m → (q * m + r) / m = q.
Proof. intros. symmetry. apply (Nat.div_unique _ _ _ r); lia. Qed.

Lemma digit_mod (q m r : nat) : r < m → (q * m + r) mod m = r.
Proof. intros. symmetry. apply (Nat.mod_unique _ _ q); lia. Qed.

Lemma digit_lt (q n m r : nat) : q < n → r < m → q * m + r < n * m.
Proof. nia. Qed.

Lemma div_lt_mul (k n m : nat) : k < n * m → k / m < n.
Proof. intros. apply Nat.Div0.div_lt_upper_bound. lia. Qed.

Lemma mod_lt_pos (k n m : nat) : k < n * m → k mod m < m.
Proof. intros. apply Nat.mod_upper_bound. lia. Qed.

Lemma div_mod_digit (k m : nat) : k / m * m + k mod m = k.
Proof. pose proof (Nat.div_mod_eq k m). lia. Qed.

(** The offset of the tile element that holds element [k] is within the
    tensor of tiles. *)
Lemma merge4_src_lt (b c nh h nw w k : nat) :
  k < b * c * (nh * h) * (nw * w) →
  merge4_src c nh h nw w k < b * nh * nw * c * h * w.
Proof.
  intros Hk. unfold merge4_src, offset4.
  set (X := k mod (nw * w)). set (k1 := k / (nw * w)).
  set (Y := k1 mod (nh * h)). set (k2 := k1 / (nh * h)).
  assert (HX : X < nw * w) by (eapply mod_lt_pos, Hk).
  assert (Hk1 : k1 < b * c * (nh * h)) by (apply div_lt_mul, Hk).
  assert (HY : Y < nh * h) by (eapply mod_lt_pos, Hk1).
  assert (Hk2 : k2 < b * c) by (apply div_lt_mul, Hk1).
  assert (k2 mod c < c) by (eapply mod_lt_pos, Hk2).
  assert (k2 / c < b) by (apply div_lt_mul, Hk2).
  assert (X / w < nw) by (apply div_lt_mul, HX).
  assert (X mod w < w) by (eapply mod_lt_pos, HX).
  assert (Y / h < nh) by (apply div_lt_mul, HY).
  assert (Y mod h < h) by (eapply mod_lt_pos, HY).
  repeat apply digit_lt; done.
Qed.

(** The offset of the element that a tile element comes from is within
    the tensor. *)
Lemma split4_src_lt (b c nh h nw w k : nat) :
  k < b * nh * nw * c * h * w →
  split4_src c nh h nw w k < b * c * (nh * h) * (nw * w).
Proof.
  intros Hk. unfold split4_src, offset4.
  set (k1 := k / w). set (k2 := k1 / h). set (t := k2 / c). set (t1 := t / nw).
  assert (k mod w < w) by (eapply mod_lt_pos, Hk).
  assert (Hk1 : k1 < b * nh * nw * c * h) by (apply div_lt_mul, Hk).
  assert (k1 mod h < h) by (eapply mod_lt_pos, Hk1).
  assert (Hk2 : k2 < b * nh * nw * c) by (apply div_lt_mul, Hk1).
  assert (k2 mod c < c) by (eapply mod_lt_pos, Hk2).
  assert (Ht : t < b * nh * nw) by (apply div_lt_mul, Hk2).
  assert (t mod nw < nw) by (eapply mod_lt_pos, Ht).
  assert (Ht1 : t1 < b * nh) by (apply div_lt_mul, Ht).
  assert (t1 mod nh < nh) by (eapply mod_lt_pos, Ht1).
  assert (t1 / nh < b) by (apply div_lt_mul, Ht1).
  repeat apply digit_lt; done.
Qed.

(** Reassembly reads back, at every offset, the element that the
    partition took from that offset. *)
Lemma split4_merge4_src (b c nh h nw w k : nat) :
  k < b * c * (nh * h) * (nw * w) →
  split4_src c nh h nw w (merge4_src c nh h nw w k) = k.
Proof.
  intros Hk. unfold merge4_src, offset4.
  set (X := k mod (nw * w)). set (k1 := k / (nw * w)).
  set (Y := k1 mod (nh * h)). set (k2 := k1 / (nh * h)).
  assert (HX : X < nw * w) by (eapply mod_lt_pos, Hk).
  assert (Hk1 : k1 < b * c * (nh * h)) by (apply div_lt_mul, Hk).
  assert (HY : Y < nh * h) by (eapply mod_lt_pos, Hk1).
  assert (Hk2 : k2 < b * c) by (apply div_lt_mul, Hk1).
  assert (Hci : k2 mod c < c) by (eapply mod_lt_pos, Hk2).
  assert (Hj : X / w < nw) by (apply div_lt_mul, HX).
  assert (Hx : X mod w < w) by (eapply mod_lt_pos, HX).
  assert (Hi : Y / h < nh) by (apply div_lt_mul, HY).
  assert (Hy : Y mod h < h) by (eapply mod_lt_pos, HY).
  unfold split4_src, offset4.
  rewrite !(digit_mod _ w), !(digit_div _ w) by done.
  rewrite !(digit_mod _ h), !(digit_div _ h) by done.
  rewrite !(digit_mod _ c), !(digit_div _ c) by done.
  rewrite !(digit_mod _ nw), !(digit_div _ nw) by done.
  rewrite !(digit_mod _ nh), !(digit_div _ nh) by done.
  rewrite !div_mod_digit. unfold k2, Y, X, k1.
  rewrite !div_mod_digit. done.
Qed.
End index_arithmetic.

Section gather_facts.
Local Open Scope nat_scope.
Context {A : Type}.
Implicit Types (d : list A) (src : nat → nat).

Lemma gather_Forall2 src n d :
  (∀ k, k < n → src k < length d) →
  Forall2 (λ k a, d !! src k = Some a) (seq 0 n) (gather src n d).
Proof.
  intros Hsrc. unfold gather.
  assert (Hl : Forall (λ k, src k < length d) (seq 0 n)).
  { apply Forall_forall. intros k Hk%elem_of_seq. apply Hsrc. lia. }
  induction Hl as [|k l Hk _ IH]; csimpl; [constructor|].
  apply lookup_lt_is_Some in Hk as [a Ha]. rewrite Ha. simpl.
  by constructor.
Qed.

Lemma gather_length src n d :
  (∀ k, k < n → src k < length d) → length (gather src n d) = n.
Proof.
  intros Hsrc. apply gather_Forall2, Forall2_length in Hsrc.
  by rewrite length_seq in Hsrc.
Qed.

Lemma gather_lookup src n d k :
  (∀ k, k < n → src k < length d) → k < n →
  gather src n d !! k = d !! src k.
Proof.
  intros Hsrc Hk. pose proof (gather_Forall2 _ _ _ Hsrc) as Hall.
  destruct (Forall2_lookup_l _ _ _ k k Hall) as (a & Ha & Hka).
  { apply lookup_seq. lia. }
  by rewrite Ha, Hka.
Qed.

(** Gathering through [g] what was gathered through [f] gives the list
    back when [f] undoes [g]. *)
Lemma gather_gather f g n d :
  length d = n →
  (∀ k, k < n → f k < n) → (∀ k, k < n → g k < n) →
  (∀ k, k < n → f (g k) = k) →
  gather g n (gather f n d) = d.
Proof.
  intros Hd Hf Hg Hfg.
  assert (Hf' : ∀ k, k < n → f k < length d) by (intros; rewrite Hd; auto).
  assert (Hg' : ∀ k, k < n → g k < length (gather f n d)).
  { intros. rewrite gather_length by done. auto. }
  apply list_eq. intros k. destruct (decide (k < n)) as [Hk|Hk].
  - rewrite gather_lookup by done. rewrite gather_lookup by auto.
    by rewrite Hfg.
  - rewrite !lookup_ge_None_2; [done|lia|]. rewrite gather_length by done. lia.
Qed.
End gather_facts.

(** C5: a tensor of shape [(b, c, nh*h, nw*w)], on a grid of [nh] by [nw]
    tiles with at least one tile each way, is partitioned into a tensor of
    shape [(b*nh*nw, c, h, w)], and the reassembly of that tensor with the
    same grid is the tensor itself, shape and elements. *)
Theorem rearrange_split4_merge4 {A} (x : tensor A) (b c nh h nw w : nat) :
  shape x = [b; c; nh * h; nw * w]%nat → well_formed x →
  (1 ≤ nh)%nat → (1 ≤ nw)%nat →
  ∃ y, rearrange_split4 nh nw x = Ok y
    ∧ shape y = [b * nh * nw; c; h; w]%nat ∧ well_formed y
    ∧ rearrange_merge4 nh nw y = Ok x.
Proof.
  intros Hsh Hwf Hnh Hnw. destruct x as [sh d]. simpl in Hsh. subst sh.
  unfold well_formed in Hwf. simpl in Hwf.
  assert (Hlen : length d = (b * c * (nh * h) * (nw * w))%nat) by lia.
  assert (Hnum : (b * nh * nw * c * h * w = b * c * (nh * h) * (nw * w))%nat) by lia.
  unfold rearrange_split4. simpl.
  case_decide as H0; [lia|clear H0].
  rewrite !(Nat.mul_comm nh h), !(Nat.mul_comm nw w), !Nat.Div0.mod_mul.
  case_decide as H0; [clear H0|by destruct H0].
  rewrite !Nat.div_mul by lia. rewrite !(Nat.mul_comm h nh), !(Nat.mul_comm w nw).
  eexists. split; [done|]. split; [done|].
  assert (Hsplit : ∀ k, (k < b * c * (nh * h) * (nw * w))%nat →
    (split4_src c nh h nw w k < length d)%nat).
  { intros k Hk. rewrite Hlen. apply split4_src_lt. lia. }
  split.
  { unfold well_formed. simpl. rewrite gather_length; [lia|].
    intros k Hk. apply Hsplit. lia. }
  unfold rearrange_merge4. simpl.
  case_decide as H0; [lia|clear H0].
  replace (b * nh * nw)%nat with (b * (nh * nw))%nat by lia.
  rewrite Nat.Div0.mod_mul. case_decide as H0; [clear H0|done].
  rewrite Nat.div_mul by lia. do 2 f_equal.
  replace (b * (nh * nw) * (c * (h * (w * 1))))%nat
    with (b * c * (nh * h) * (nw * w))%nat by lia.
  replace (b * (c * (nh * h * (nw * w * 1))))%nat
    with (b * c * (nh * h) * (nw * w))%nat by lia.
  apply gather_gather; [done|..].
  - intros k Hk. apply split4_src_lt. lia.
  - intros k Hk. rewrite <- Hnum. by apply merge4_src_lt.
  - intros k Hk. by apply (split4_merge4_src b).
Qed.

Lemma rearrange_split4_merge4_witness :
  let x : tensor Z := Tensor [1; 1; 4; 4]%nat
                        [0; 1; 2; 3; 4; 5; 6; 7; 8; 9; 10; 11; 12; 13; 14; 15] in
  ∃ y, rearrange_split4 2 2 x = Ok y
    ∧ shape y = [1 * 2 * 2; 1; 2; 2]%nat ∧ well_formed y
    ∧ rearrange_merge4 2 2 y = Ok x.
Proof.
  apply (rearrange_split4_merge4 _ 1 1 2 2 2 2); [done|done|lia|lia].
Defined.

Example rearrange_split4_example :
  rearrange_split4 2 2
    (Tensor [1; 1; 4; 4]%nat [0; 1; 2; 3; 4; 5; 6; 7; 8; 9; 10; 11; 12; 13; 14; 15])
  = Ok (Tensor [4; 1; 2; 2]%nat
          [0; 1; 4; 5; 2; 3; 6; 7; 8; 9; 12; 13; 10; 11; 14; 15]).
Proof. reflexivity. Qed.

(** ** The forward wrapper *)

Section wrapper_facts.
Context `{ArgSort} {A : Type}.
Variables (tile_size min_tile_size swap_size depth : Z).
Variables (stage_h stage_w round_log2 : Z → Z).
Variable forward : tensor A → result (tensor A).

Lemma randint_range (a b r : Z) :
  a ≤ b → ∃ i, randint a b r = Ok i ∧ a ≤ i ≤ b.
Proof.
  intros. unfold randint. case_decide; [lia|].
  eexists. split; [done|].
  pose proof (Z.mod_pos_bound r (b - a + 1)). lia.
Qed.

Lemma getitem_Ok {B} (l : list B) (i : Z) :
  0 ≤ i < Z.of_nat (length l) → ∃ a, getitem l i = Ok a ∧ a ∈ l.
Proof.
  intros Hi. unfold getitem.
  destruct (decide (i < 0)); [lia|]. case_decide; [|lia].
  destruct (lookup_lt_is_Some_2 l (Z.to_nat i)) as [a Ha]; [lia|].
  rewrite Ha. eexists. split; [done|]. by eapply list_elem_of_lookup_2.
Qed.

(** The draw of the tile grid raises as soon as one of the candidate
    lists is empty, and leaves the state as it was. *)
Lemma make_ns_empty (r1 r2 : Z) (s : wstate) :
  nhs s = [] ∨ nws s = [] → make_ns r1 r2 s = (Raise ValueError, s).
Proof.
  intros Hempty. unfold make_ns, mbind, W_bind, get, lift. simpl.
  destruct (nhs s) as [|nh0 l] eqn:Hnhs.
  { done. }
  destruct Hempty as [|Hnws]; [done|].
  destruct (randint_range 0 (Z.of_nat (length (nh0 :: l)) - 1) r1) as (i & -> & Hi).
  { simpl. lia. }
  destruct (getitem_Ok (nh0 :: l) i) as (nh & -> & _); [lia|].
  by rewrite Hnws.
Qed.

Lemma wrapper_empty_candidates (r1 r2 : Z) (x : tensor A) (s : wstate) :
  nhs s = [] ∨ nws s = [] →
  wrapper tile_size min_tile_size swap_size depth stage_h stage_w round_log2
    forward r1 r2 x s = (Raise ValueError, s).
Proof.
  intros Hempty. unfold wrapper.
  unfold mbind at 1. unfold W_bind. by rewrite make_ns_empty.
Qed.

(** Logging does not raise. *)
Lemma report_Ok (e : exn) (s : wstate) : (report e s).1 = Ok tt.
Proof.
  unfold report, mbind, W_bind, get, when, modify. simpl.
  by destruct (error_reported s).
Qed.

(** When the partitioning rearrange has succeeded and [forward] or the
    reassembly then raises, the handler calls [forward] on the
    partitioned tensor. *)
Lemma unet_try_fallback_partitioned (x x' : tensor A) (h w nh nw : Z) (e : exn)
    (s : wstate) :
  rearrange_split3 (Z.to_nat (h / nh)) (Z.to_nat (w / nw))
    (Z.to_nat nh) (Z.to_nat nw) x = Ok x' →
  (out ← forward x';
   rearrange_merge3 (Z.to_nat (h / nh)) (Z.to_nat (w / nw))
     (Z.to_nat nh) (Z.to_nat nw) out) = Raise e →
  unet_try forward x h w nh nw true s
  = (forward x', (report e s).2).
Proof.
  intros Hsplit Hfail. unfold unet_try, unet_attempt.
  rewrite Hsplit, Hfail.
  unfold mbind, W_bind, lift. pose proof (report_Ok e s) as Hr.
  destruct (report e s) as [r s']. simpl in *. by subst r.
Qed.

(** When the partitioning rearrange itself raises, the handler calls
    [forward] on the input of the wrapper. *)
Lemma unet_try_fallback_unpartitioned (x : tensor A) (h w nh nw : Z) (e : exn)
    (s : wstate) :
  rearrange_split3 (Z.to_nat (h / nh)) (Z.to_nat (w / nw))
    (Z.to_nat nh) (Z.to_nat nw) x = Raise e →
  unet_try forward x h w nh nw true s = (forward x, (report e s).2).
Proof.
  intros Hsplit. unfold unet_try, unet_attempt. rewrite Hsplit.
  unfold mbind, W_bind, lift. pose proof (report_Ok e s) as Hr.
  destruct (report e s) as [r s']. simpl in *. by subst r.
Qed.
End wrapper_facts.

(** C4 fails on the code.  The handler of line 111 calls [forward] on the
    variable [x], which line 101 has rebound to the partitioned tensor.
    First run: a pass of 16 by 16 pixels with the candidates [2] and [2],
    a stage of 2 by 2 tokens; [forward] raises on the partitioned batch of
    four tiles, the handler calls it on that batch again and the wrapper
    raises, where [forward] on the input of the wrapper returns.  Second
    run: the reassembly raises on what [forward] returned for a grid of 1
    by 2 tiles, and the wrapper returns the result of [forward] on the
    partitioned tensor, which is not its result on the input. *)
Theorem unet_try_fallback_on_rebound_input :
  (batch_one_forward four_tokens = Ok four_tokens
   ∧ (@wrapper stable_argsort Z 8 8 1 0 (λ _, 2) (λ _, 2) (λ _, 0)
        batch_one_forward 0 0 four_tokens
        (WState 16 16 0 0 false false [2] [2] [])).1
     = Raise RuntimeError)
  ∧ (flatten_forward four_tokens = Ok (Tensor [4%nat] [10; 20; 30; 40])
     ∧ (unet_try flatten_forward four_tokens 2 2 1 2 true
          (WState 16 16 2 2 false false [1] [2] [])).1
       = Ok (Tensor [4%nat] [10; 30; 20; 40])).
Proof. repeat split. Qed.

(** C7 fails on the code.  With a height of 100 pixels, which is not a
    multiple of 8, the scope is entered with an empty list of candidates
    for the height, and every call of the wrapper raises [ValueError]
    from the draw of the tile grid ([random.randint(0, -1)]), whatever the
    input, the wrapped [forward] and the random draws. *)
Theorem wrapper_raises_on_empty_candidates `{ArgSort} {A : Type}
    (depth : Z) (stage_h stage_w round_log2 : Z → Z)
    (forward : tensor A → result (tensor A)) (r1 r2 : Z) (x : tensor A) :
  ∃ s, init_candidates 256 128 1 (WState 100 512 0 0 false false [] [] [])
       = (Ok tt, s)
    ∧ nhs s = []
    ∧ wrapper 256 128 1 depth stage_h stage_w round_log2 forward r1 r2 x s
      = (Raise ValueError, s).
Proof.
  unfold init_candidates, reset_nhs, reset_nws, mbind, W_bind, get, lift, modify.
  cbn [height width].
  rewrite possible_tile_sizes_nil by (done || in_range).
  rewrite (possible_tile_sizes_Ok 512) by in_range.
  eexists. split; [done|]. split; [done|].
  apply wrapper_empty_candidates. by left.
Qed.

(** ** The scoped patching of attention modules *)

Lemma module_tree_nested_ind (P : module_tree → Prop) :
  (∀ id children, Forall (λ c, P c.2) children → P (MNode id children)) →
  ∀ t, P t.
Proof.
  intros Hnode. fix IH 1. intros [id children]. apply Hnode.
  induction children as [|[name child] children IHc]; constructor; [apply IH|apply IHc].
Qed.

(** [named_modules] yields every module object once: an item is not in
    the memo the traversal starts from, and is in the memo it ends with. *)
Lemma named_modules_from_spec (t : module_tree) (memo : gset nat) (prefix : string) :
  let '(memo', out) := named_modules_from memo prefix t in
  NoDup (out.*2) ∧ memo ⊆ memo' ∧ ∀ id, id ∈ (out.*2) → (id ∉ memo) ∧ id ∈ memo'.
Proof.
  revert memo prefix. induction t as [id children IH] using module_tree_nested_ind.
  intros memo prefix. simpl. case_decide as Hid.
  { split; [constructor|]. split; [done|]. intros i Hi. by apply elem_of_nil in Hi. }
  match goal with |- context [?go ({[id]} ∪ memo) children] => set (submodules := go) end.
  assert (Hgo : ∀ memo0,
    let '(memo', out) := submodules memo0 children in
    NoDup (out.*2) ∧ memo0 ⊆ memo' ∧ ∀ i, i ∈ (out.*2) → (i ∉ memo0) ∧ i ∈ memo').
  { clear Hid. induction IH as [|[name child] children Hchild _ IHc]; intros memo0; simpl.
    { split; [constructor|]. split; [done|]. intros i Hi. by apply elem_of_nil in Hi. }
    simpl in Hchild.
    match goal with |- context [named_modules_from memo0 ?p child] =>
      specialize (Hchild memo0 p); destruct (named_modules_from memo0 p child) as [memo1 out1]
    end.
    specialize (IHc memo1). destruct (submodules memo1 children) as [memo2 out2].
    destruct Hchild as (Hnd1 & Hsub1 & Hout1), IHc as (Hnd2 & Hsub2 & Hout2).
    rewrite fmap_app. split; [|split].
    - apply NoDup_app. split; [done|]. split; [|done].
      intros i Hi1 Hi2. apply Hout1 in Hi1. apply Hout2 in Hi2. tauto.
    - by transitivity memo1.
    - intros i Hi. apply elem_of_app in Hi as [Hi|Hi].
      + destruct (Hout1 i Hi). auto.
      + destruct (Hout2 i Hi) as [Hnot Hin]. split; [|done].
        intros Hmemo. apply Hnot, Hsub1, Hmemo. }
  specialize (Hgo ({[id]} ∪ memo)).
  destruct (submodules ({[id]} ∪ memo) children) as [memo' out].
  destruct Hgo as (Hnd & Hsub & Hout). csimpl. split; [|split].
  - constructor; [|done]. intros Hi. destruct (Hout id Hi) as [Hnot _].
    apply Hnot, elem_of_union_l, elem_of_singleton. done.
  - intros i Hi. by apply Hsub, elem_of_union_r.
  - intros i Hi. apply elem_of_cons in Hi as [->|Hi].
    + split; [done|]. by apply Hsub, elem_of_union_l, elem_of_singleton.
    + destruct (Hout i Hi) as [Hnot Hin]. split; [|done].
      intros Hmemo. by apply Hnot, elem_of_union_r.
Qed.

Lemma named_modules_NoDup (layer : module_tree) : NoDup ((named_modules layer).*2).
Proof.
  unfold named_modules.
  pose proof (named_modules_from_spec layer ∅ EmptyString) as Hspec.
  destruct (named_modules_from ∅ EmptyString layer) as [memo out]. apply Hspec.
Qed.

Lemma filter_ext_elem_of {B} (P Q : B → Prop) `{!∀ x, Decision (P x)}
    `{!∀ x, Decision (Q x)} (l : list B) :
  (∀ x, x ∈ l → P x ↔ Q x) → filter P l = filter Q l.
Proof.
  induction l as [|x l IH]; intros Hext; [done|].
  rewrite !filter_cons. rewrite IH by (intros; apply Hext; by right).
  destruct (decide (P x)) as [HP|HP], (decide (Q x)) as [HQ|HQ]; try done.
  - destruct HQ. by apply Hext; [left|].
  - destruct HP. by apply Hext; [left|].
Qed.

Lemma patch_module_other (s : scope_state) (item : string * nat) (id : nat) :
  id ≠ item.2 → modules (patch_module s item) !! id = modules s !! id.
Proof.
  intros Hne. destruct item as [name id']. unfold patch_module. simpl in *.
  destruct (modules s !! id') as [m|]; [|done].
  destruct (is_attention m), (is_cross_attention name); simpl; try done.
  by rewrite lookup_insert_ne.
Qed.

Lemma patch_module_self (s : scope_state) (item : string * nat) :
  modules (patch_module s item) !! item.2
  = (if will_patch (modules s) item then patched_obj else id) <$> modules s !! item.2.
Proof.
  destruct item as [name id']. unfold patch_module, will_patch. simpl.
  destruct (modules s !! id') as [m|] eqn:Hm; [|by rewrite Hm].
  destruct (is_attention m), (is_cross_attention name); simpl; rewrite ?Hm; try done.
  by rewrite lookup_insert_eq.
Qed.

Lemma patch_module_trace (s : scope_state) (item : string * nat) :
  trace (patch_module s item)
  = trace s ++ (if will_patch (modules s) item then [Patched item.2] else []).
Proof.
  destruct item as [name id']. unfold patch_module, will_patch. simpl.
  destruct (modules s !! id') as [m|]; [|by rewrite app_nil_r].
  destruct (is_attention m), (is_cross_attention name); simpl; by rewrite ?app_nil_r.
Qed.

Lemma will_patch_ext (mods mods' : gmap nat module_obj) (item : string * nat) :
  mods' !! item.2 = mods !! item.2 → will_patch mods' item = will_patch mods item.
Proof. unfold will_patch. by intros ->. Qed.

Lemma restore_module_other (s : scope_state) (item : string * nat) (id : nat) :
  id ≠ item.2 → modules (restore_module s item) !! id = modules s !! id.
Proof.
  intros Hne. destruct item as [name id']. unfold restore_module. simpl in *.
  destruct (modules s !! id') as [m|]; [|done].
  destruct (original_forward m); simpl; [|done].
  by rewrite lookup_insert_ne.
Qed.

Lemma restore_module_self (s : scope_state) (item : string * nat) :
  modules (restore_module s item) !! item.2
  = (if has_saved (modules s) item then restored_obj else id) <$> modules s !! item.2.
Proof.
  destruct item as [name id']. unfold restore_module, has_saved, restored_obj. simpl.
  destruct (modules s !! id') as [m|] eqn:Hm; [|by rewrite Hm].
  destruct (original_forward m) as [f|] eqn:Hf; simpl; rewrite ?Hm; simpl.
  - rewrite lookup_insert_eq. by rewrite Hf.
  - done.
Qed.

Lemma restore_module_trace (s : scope_state) (item : string * nat) :
  trace (restore_module s item)
  = trace s ++ (if has_saved (modules s) item then [Restored item.2] else []).
Proof.
  destruct item as [name id']. unfold restore_module, has_saved. simpl.
  destruct (modules s !! id') as [m|]; [|by rewrite app_nil_r].
  destruct (original_forward m); simpl; by rewrite ?app_nil_r.
Qed.

Lemma has_saved_ext (mods mods' : gmap nat module_obj) (item : string * nat) :
  mods' !! item.2 = mods !! item.2 → has_saved mods' item = has_saved mods item.
Proof. unfold has_saved. by intros ->. Qed.

(** A loop over the items of [named_modules()] whose step reads and
    writes the object of its item only: every object is seen in the state
    the loop started from. *)
Section loop_over_items.
Variable step : scope_state → string * nat → scope_state.
Variable fires : gmap nat module_obj → string * nat → bool.
Variable update : module_obj → module_obj.
Variable mark : nat → event.
Hypothesis step_other : ∀ s it id,
  id ≠ it.2 → modules (step s it) !! id = modules s !! id.
Hypothesis step_self : ∀ s it,
  modules (step s it) !! it.2
  = (if fires (modules s) it then update else id) <$> modules s !! it.2.
Hypothesis step_trace : ∀ s it,
  trace (step s it) = trace s ++ (if fires (modules s) it then [mark it.2] else []).
Hypothesis fires_ext : ∀ mods mods' it,
  mods' !! it.2 = mods !! it.2 → fires mods' it = fires mods it.

Lemma loop_over_items_spec (items : list (string * nat)) (s : scope_state) :
  NoDup (items.*2) →
  let s' := foldl step s items in
  trace s' = trace s ++ (mark ∘ snd <$> filter (λ it, fires (modules s) it) items)
  ∧ (∀ id, id ∉ (items.*2) → modules s' !! id = modules s !! id)
  ∧ (∀ it, it ∈ items →
       modules s' !! it.2
       = (if fires (modules s) it then update else id) <$> modules s !! it.2).
Proof.
  revert s. induction items as [|it items IH]; intros s Hnd; simpl.
  { split; [by rewrite app_nil_r|]. split; [done|].
    intros it Hit. by apply elem_of_nil in Hit. }
  apply NoDup_cons in Hnd as [Hit Hnd].
  destruct (IH (step s it) Hnd) as (Htr & Hother & Hin).
  assert (Hne : ∀ it', it' ∈ items → it'.2 ≠ it.2).
  { intros it' Hit' Heq. apply Hit. rewrite <- Heq. apply list_elem_of_fmap. eauto. }
  assert (Hsame : ∀ it', it' ∈ items →
    fires (modules (step s it)) it' = fires (modules s) it').
  { intros it' Hit'. apply fires_ext, step_other. auto. }
  split; [|split].
  - rewrite Htr, step_trace, <- app_assoc. f_equal.
    rewrite (filter_ext_elem_of _ (λ it', fires (modules s) it') items)
      by (intros it' Hit'; by rewrite Hsame).
    rewrite filter_cons. destruct (fires (modules s) it); by case_decide.
  - intros id' Hid. csimpl in Hid. apply not_elem_of_cons in Hid as [Hne' Hid].
    rewrite Hother by done. by apply step_other.
  - intros it' [->|Hit']%elem_of_cons.
    + rewrite Hother by done. apply step_self.
    + rewrite Hin, Hsame by done. f_equal. apply step_other. auto.
Qed.
End loop_over_items.






#[global] Instance Patched_inj : Inj (=) (=) Patched.
Proof. by intros ?? [=]. Qed.
#[global] Instance Restored_inj : Inj (=) (=) Restored.
Proof. by intros ?? [=]. Qed.

Lemma enter_scope_spec (layer : module_tree) (mods : gmap nat module_obj) :
  let s1 := enter_scope layer mods in
  trace s1 = Patched ∘ snd <$> filter (λ it, will_patch mods it) (named_modules layer)
  ∧ (∀ id, id ∉ ((named_modules layer).*2) → modules s1 !! id = mods !! id)
  ∧ (∀ it, it ∈ named_modules layer →
       modules s1 !! it.2
       = (if will_patch mods it then patched_obj else id) <$> mods !! it.2).
Proof.
  apply (loop_over_items_spec patch_module will_patch patched_obj Patched
           patch_module_other patch_module_self patch_module_trace will_patch_ext
           (named_modules layer) (ScopeState mods [])),
    named_modules_NoDup.
Qed.

Lemma exit_scope_spec (layer : module_tree) (s : scope_state) :
  let s' := exit_scope layer s in
  trace s'
  = trace s ++ (Restored ∘ snd <$> filter (λ it, has_saved (modules s) it)
                                     (named_modules layer))
  ∧ (∀ id, id ∉ ((named_modules layer).*2) → modules s' !! id = modules s !! id)
  ∧ (∀ it, it ∈ named_modules layer →
       modules s' !! it.2
       = (if has_saved (modules s) it then restored_obj else id) <$> modules s !! it.2).
Proof.
  apply (loop_over_items_spec restore_module has_saved restored_obj Restored
           restore_module_other restore_module_self restore_module_trace
           has_saved_ext (named_modules layer) s),
    named_modules_NoDup.
Qed.

(** A module that the scope has patched is an item of [named_modules()]
    and holds, when line 121 yields, the wrapper of the handle it held
    before the scope, and that handle as [_original_forward]. *)
Lemma enter_scope_patched (layer : module_tree) (mods : gmap nat module_obj) (id : nat) :
  Patched id ∈ trace (enter_scope layer mods) →
  ∃ name m0, (name, id) ∈ named_modules layer ∧ mods !! id = Some m0
    ∧ modules (enter_scope layer mods) !! id = Some (patched_obj m0).
Proof.
  destruct (enter_scope_spec layer mods) as (Htr & _ & Hin). rewrite Htr.
  intros ([name id'] & [= <-] & [Hfire Hit]%list_elem_of_filter)%list_elem_of_fmap.
  specialize (Hin _ Hit). simpl in *.
  apply Is_true_true in Hfire. rewrite Hfire in Hin.
  unfold will_patch in Hfire. simpl in Hfire.
  destruct (mods !! id) as [m0|]; [|done]. eauto.
Qed.

Lemma split_attention_eq (layer : module_tree) (body : region)
    (mods : gmap nat module_obj) :
  split_attention layer body mods
  = (let s1 := enter_scope layer mods in
     let '(r, mods2) := body (modules s1) in
     (r, exit_scope layer (ScopeState mods2 (trace s1)))).
Proof.
  unfold split_attention, try_finally, enter_scope. simpl.
  by destruct (body _).
Qed.




Example demo_named_modules :
  named_modules demo_layer
  = [("", 0); ("down", 1); ("down.attn1", 2); ("down.attn2", 3);
     ("mid", 4); ("mid.attn_1", 5)]%nat%string.
Proof. reflexivity. Qed.

Example demo_scope_trace :
  (split_attention demo_layer raising_region demo_modules).1 = Raised RuntimeError
  ∧ trace (split_attention demo_layer raising_region demo_modules).2
    = [Patched 2; Patched 5; Restored 2; Restored 5]%nat
  ∧ modules (enter_scope demo_layer demo_modules) !! 2%nat
    = Some (Module "Attention" (Wrapper (Native 12)) (Some (Native 12)))
  ∧ modules (split_attention demo_layer raising_region demo_modules).2 !! 2%nat
    = Some (Module "Attention" (Native 12) None).
Proof. repeat split; vm_compute; reflexivity. Qed.


(** The two hypotheses of C6 are needed.  A region that enters the
    scope again on the same network overwrites and deletes the saved
    handles: inside it the handle of a module is the wrapper of a wrapper,
    and the outer scope finds nothing to restore. *)
Example returning_region_restored :
  (split_attention demo_layer returning_region demo_modules).1 = Returned
  ∧ modules (split_attention demo_layer returning_region demo_modules).2 !! 5%nat
    = Some (Module "AttnBlock" (Native 15) None).
Proof. split; vm_compute; reflexivity. Qed.

Example nested_activation_not_restored :
  modules (enter_scope demo_layer (modules (enter_scope demo_layer demo_modules)))
    !! 2%nat
  = Some (Module "Attention" (Wrapper (Wrapper (Native 12)))
            (Some (Wrapper (Native 12))))
  ∧ modules (split_attention demo_layer nested_region demo_modules).2 !! 2%nat
    = Some (Module "Attention" (Wrapper (Native 12)) None).
Proof. split; vm_compute; reflexivity. Qed.

(** * Further properties of the selector *)

Lemma StronglySorted_lt_NoDup (l : list Z) : StronglySorted Z.lt l → NoDup l.
Proof.
  induction 1 as [|x l Hs IH Hall]; constructor; [|done].
  intros Hx. rewrite Forall_forall in Hall. specialize (Hall _ Hx). lia.
Qed.

Lemma candidates_NoDup (dimension tile_size min_tile_size : Z) :
  NoDup (candidates dimension tile_size min_tile_size).
Proof. apply StronglySorted_lt_NoDup, candidates_increasing. Qed.

Lemma key_of_seq (l : list Z) : key_of l <$> seq 0 (length l) = l.
Proof.
  apply list_eq. intros i. rewrite list_lookup_fmap.
  destruct (decide (i < length l)%nat) as [Hi|Hi].
  - rewrite lookup_seq_lt by done. simpl. unfold key_of.
    by destruct (lookup_lt_is_Some_2 l i Hi) as [x ->].
  - rewrite lookup_seq_ge by lia. simpl. symmetry. apply lookup_ge_None. lia.
Qed.

Lemma key_of_lookup (l : list Z) (i : nat) :
  (i < length l)%nat → l !! i = Some (key_of l i).
Proof.
  intros Hi. unfold key_of. by destruct (lookup_lt_is_Some_2 l i Hi) as [x ->].
Qed.

Section selector_further.
Context `{ArgSort}.

Lemma argsort_NoDup (keys : list Z) : NoDup (argsort keys).
Proof. rewrite (argsort_perm keys). apply NoDup_seq. Qed.

Lemma argsort_length (keys : list Z) : length (argsort keys) = length keys.
Proof. by rewrite (argsort_perm keys), length_seq. Qed.

Lemma sort_keys_length (dimension tile_size : Z) (n : list Z) :
  length (sort_keys dimension tile_size n) = length n.
Proof. unfold sort_keys. by rewrite length_fmap. Qed.

Lemma possible_tile_sizes_no_option (dimension tile_size min_tile_size tile_options : Z) :
  tile_options < 1 →
  possible_tile_sizes dimension tile_size min_tile_size tile_options
  = Raise AssertionError.
Proof. intros Hk. unfold possible_tile_sizes. by case_decide; [|lia]. Qed.

Lemma possible_tile_sizes_negative (dimension tile_size min_tile_size tile_options : Z) :
  1 ≤ tile_options → int64_min ≤ dimension + 1 → dimension < 0 →
  possible_tile_sizes dimension tile_size min_tile_size tile_options
  = Raise RuntimeError.
Proof.
  intros Hk Hmin Hd. unfold possible_tile_sizes, arange.
  case_decide; [lia|]. case_decide; [unfold int64_max in *; lia|].
  by case_decide; [|lia].
Qed.

Lemma possible_tile_sizes_too_large (dimension tile_size min_tile_size tile_options : Z) :
  1 ≤ tile_options → dimension + 1 < int64_min ∨ int64_max < dimension →
  possible_tile_sizes dimension tile_size min_tile_size tile_options
  = Raise OverflowError.
Proof.
  intros Hk Hd. unfold possible_tile_sizes, arange.
  case_decide; [lia|]. by case_decide; [|lia].
Qed.

Lemma possible_tile_sizes_refused (dimension tile_size min_tile_size tile_options : Z) :
  1 ≤ tile_options → 0 ≤ dimension ≤ int64_max →
  ¬ accepted tile_size min_tile_size →
  possible_tile_sizes dimension tile_size min_tile_size tile_options
  = Raise OverflowError.
Proof.
  pose proof int64_lt_uint64. pose proof int64_min_neg.
  intros Hk Hd Hacc. unfold possible_tile_sizes, arange.
  case_decide; [lia|]. case_decide; [lia|]. case_decide; [lia|]. simpl.
  unfold scalar. repeat case_decide; simpl; try reflexivity.
  destruct Hacc. unfold accepted. lia.
Qed.

(** The outcomes of the selector.  It raises [AssertionError] when fewer
    than one option is asked for, whatever the dimension.  With at least
    one option it raises [RuntimeError] on a negative dimension, where
    [torch.arange] refuses the bounds, and [OverflowError] on a dimension
    outside the range that [torch.arange] takes or, the dimension being
    in range, on a [min_tile_size] or a [tile_size] that the conversion
    to a scalar does not accept.  In every other case it returns a list: the indices that
    [argsort] gives are never out of range. *)
Theorem possible_tile_sizes_outcome (dimension tile_size min_tile_size tile_options : Z) :
  (tile_options < 1 →
     possible_tile_sizes dimension tile_size min_tile_size tile_options
     = Raise AssertionError)
  ∧ (1 ≤ tile_options → int64_min ≤ dimension + 1 → dimension < 0 →
     possible_tile_sizes dimension tile_size min_tile_size tile_options
     = Raise RuntimeError)
  ∧ (1 ≤ tile_options → dimension + 1 < int64_min ∨ int64_max < dimension →
     possible_tile_sizes dimension tile_size min_tile_size tile_options
     = Raise OverflowError)
  ∧ (1 ≤ tile_options → 0 ≤ dimension ≤ int64_max →
     ¬ accepted tile_size min_tile_size →
     possible_tile_sizes dimension tile_size min_tile_size tile_options
     = Raise OverflowError)
  ∧ (1 ≤ tile_options → 0 ≤ dimension ≤ int64_max →
     accepted tile_size min_tile_size →
     ∃ l, possible_tile_sizes dimension tile_size min_tile_size tile_options = Ok l).
Proof.
  split; [apply possible_tile_sizes_no_option|].
  split; [apply possible_tile_sizes_negative|].
  split; [apply possible_tile_sizes_too_large|].
  split; [apply possible_tile_sizes_refused|].
  intros Hk Hd Hacc. eexists. by apply possible_tile_sizes_Ok.
Qed.

(** On arguments that torch accepts, the selector returns as many
    candidates as were asked for, or all of them when fewer qualify, and
    returns no candidate twice. *)
Theorem possible_tile_sizes_count (dimension tile_size min_tile_size tile_options : Z) :
  0 ≤ dimension ≤ int64_max → 1 ≤ tile_options → accepted tile_size min_tile_size →
  ∃ l, possible_tile_sizes dimension tile_size min_tile_size tile_options = Ok l
    ∧ length l = Nat.min (Z.to_nat tile_options)
                   (length (candidates dimension tile_size min_tile_size))
    ∧ NoDup l
    ∧ ((length (candidates dimension tile_size min_tile_size)
        ≤ Z.to_nat tile_options)%nat →
       l ≡ₚ candidates dimension tile_size min_tile_size).
Proof.
  intros Hd Hk Hacc. eexists. split; [by apply possible_tile_sizes_Ok|].
  set (cands := candidates dimension tile_size min_tile_size).
  set (keys := sort_keys dimension tile_size cands).
  assert (Hlen : length (argsort keys) = length cands).
  { unfold keys. by rewrite argsort_length, sort_keys_length. }
  split; [|split].
  - by rewrite length_fmap, length_take, Hlen.
  - apply NoDup_fmap_2_strong.
    + intros p q Hp%elem_of_take Hq%elem_of_take Heq.
      destruct Hp as (i & Hp%list_elem_of_lookup_2 & _).
      destruct Hq as (j & Hq%list_elem_of_lookup_2 & _).
      pose proof (argsort_lt keys) as Hlt. rewrite Forall_forall in Hlt.
      apply Hlt in Hp, Hq. unfold keys in Hp, Hq. rewrite sort_keys_length in Hp, Hq.
      apply key_of_lookup in Hp, Hq. rewrite Heq in Hp.
      exact (proj1 (NoDup_alt cands) (candidates_NoDup _ _ _) p q _ Hp Hq).
    + eapply sublist_NoDup; [apply argsort_NoDup|apply sublist_take].
  - intros Hfew. rewrite take_ge by lia.
    rewrite (argsort_perm keys). unfold keys. rewrite sort_keys_length.
    by rewrite key_of_seq.
Qed.
End selector_further.

Lemma possible_tile_sizes_count_witness :
  0 ≤ 1024 ≤ int64_max ∧ 1 ≤ 5 ∧ accepted 256 128
  ∧ ∃ l, @possible_tile_sizes stable_argsort 1024 256 128 5 = Ok l
    ∧ length l = Nat.min (Z.to_nat 5) (length (candidates 1024 256 128))
    ∧ NoDup l
    ∧ ((length (candidates 1024 256 128) ≤ Z.to_nat 5)%nat →
       l ≡ₚ candidates 1024 256 128).
Proof.
  split; [in_range|]. split; [lia|]. split; [in_range|].
  apply (@possible_tile_sizes_count stable_argsort 1024 256 128 5); in_range.
Defined.

Lemma one_elem_of_candidates (dimension tile_size min_tile_size : Z) :
  1 ≤ dimension → dimension `mod` 8 = 0 →
  1 ∈ candidates dimension tile_size min_tile_size.
Proof.
  intros Hd H8. apply elem_of_candidates. rewrite Z.div_1_r.
  apply Z.div_exact in H8; lia.
Qed.

(** A key strictly below all the others is sorted first, wherever it is. *)
Lemma argsort_head_least `{ArgSort} (keys : list Z) (i0 : nat) :
  (i0 < length keys)%nat →
  (∀ j, (j < length keys)%nat → j ≠ i0 → key_of keys i0 < key_of keys j) →
  ∃ pos, argsort keys = i0 :: pos.
Proof.
  intros Hi0 Hleast.
  pose proof (argsort_perm keys) as Hp.
  pose proof (argsort_sorted keys) as Hs.
  destruct (argsort keys) as [|p pos].
  { apply Permutation_length in Hp. rewrite length_seq in Hp. simpl in Hp. lia. }
  destruct (decide (p = i0)) as [->|Hne]; [by eexists|]. exfalso.
  assert (Hp' : p ∈ seq 0 (length keys)) by (rewrite <- Hp; left).
  apply elem_of_seq in Hp'.
  assert (Hin : i0 ∈ p :: pos) by (rewrite Hp; apply elem_of_seq; lia).
  apply elem_of_cons in Hin as [|Hin]; [done|].
  csimpl in Hs. apply StronglySorted_cons in Hs as [Hall _].
  rewrite Forall_fmap, Forall_forall in Hall. specialize (Hall _ Hin). simpl in Hall.
  specialize (Hleast p ltac:(lia) Hne). lia.
Qed.

Section selector_ranking.
Context `{ArgSort}.

(** On an int64 dimension of at least 1 and scalars that the conversion
    accepts, the selector returns the empty list exactly when the
    dimension is not a multiple of 8: on a multiple of 8 the split into
    one tile always qualifies. *)
Theorem possible_tile_sizes_empty_iff
    (dimension tile_size min_tile_size tile_options : Z) :
  1 ≤ dimension ≤ int64_max → 1 ≤ tile_options → accepted tile_size min_tile_size →
  possible_tile_sizes dimension tile_size min_tile_size tile_options = Ok []
  ↔ dimension `mod` 8 ≠ 0.
Proof.
  intros Hd Hk Hacc. split.
  - intros Hnil H8. rewrite possible_tile_sizes_Ok in Hnil by (done || lia).
    injection Hnil as Hnil. apply (f_equal length) in Hnil.
    rewrite length_fmap, length_take, argsort_length, sort_keys_length in Hnil.
    pose proof (one_elem_of_candidates dimension tile_size min_tile_size
                  (proj1 Hd) H8) as H1.
    destruct (candidates dimension tile_size min_tile_size); [by apply elem_of_nil in H1|].
    simpl in Hnil. lia.
  - intros H8. apply possible_tile_sizes_nil; [lia|done..].
Qed.

(** Every returned [n] gives a tile edge of at least 8, the stride of the
    convolutions, so a dimension is never split into more than an eighth
    of it. *)
Theorem possible_tile_sizes_edge_at_least_8
    (dimension tile_size min_tile_size tile_options : Z) (l : list Z) :
  possible_tile_sizes dimension tile_size min_tile_size tile_options = Ok l →
  ∀ n, n ∈ l → 1 ≤ n ∧ 8 ≤ dimension / n ∧ 8 * n ≤ dimension.
Proof.
  intros Hl n Hn. eapply selected_elem_of in Hn; [|exact Hl].
  apply elem_of_candidates in Hn as ([Hn1 Hn2] & Hdiv & _).
  destruct (candidate_divides dimension n) as [Hmod H8]; [lia|done|].
  assert (1 ≤ dimension / n) by (apply Z.div_le_lower_bound; lia).
  apply Z.div_exact in H8; [|lia].
  assert (8 ≤ dimension / n) by lia.
  pose proof (Z.mul_div_le dimension n ltac:(lia)). split; [lia|]. split; [done|]. nia.
Qed.

(** The candidates that are left out are at least as far from the
    target as every candidate that is returned. *)
Theorem possible_tile_sizes_closest
    (dimension tile_size min_tile_size tile_options : Z) :
  valid_input dimension tile_size tile_options → int64_min ≤ min_tile_size →
  ∃ l, possible_tile_sizes dimension tile_size min_tile_size tile_options = Ok l
    ∧ ∀ a n, a ∈ l → n ∈ candidates dimension tile_size min_tile_size → n ∉ l →
        distance dimension tile_size a ≤ distance dimension tile_size n.
Proof.
  intros ([Hd1 Hd2] & [Ht1 Ht2] & Hk & Hdt) Hm.
  eexists. split; [apply possible_tile_sizes_Ok; in_range|].
  set (cands := candidates dimension tile_size min_tile_size).
  set (keys := sort_keys dimension tile_size cands).
  assert (Hkey : ∀ i, (i < length cands)%nat →
    key_of keys i = distance dimension tile_size (key_of cands i)).
  { intros i Hi. pose proof (key_of_lookup cands i Hi) as Hn.
    unfold keys, sort_keys, key_of at 1. rewrite list_lookup_fmap, Hn. simpl.
    apply list_elem_of_lookup_2, elem_of_candidates in Hn as (Hn & _).
    apply sort_key_distance; lia. }
  assert (Hlt : ∀ i, i ∈ argsort keys → (i < length cands)%nat).
  { intros i Hi. rewrite (argsort_perm keys) in Hi. apply elem_of_seq in Hi.
    unfold keys in Hi. rewrite sort_keys_length in Hi. lia. }
  intros a n Ha Hn Hout.
  apply list_elem_of_fmap in Ha as (p & -> & Hp).
  apply list_elem_of_lookup in Hn as [q Hq].
  assert (Hq' : (q < length cands)%nat) by (by eapply lookup_lt_Some).
  assert (Hqpos : q ∈ argsort keys).
  { rewrite (argsort_perm keys). unfold keys. rewrite sort_keys_length.
    apply elem_of_seq. lia. }
  rewrite <- (take_drop (Z.to_nat tile_options) (argsort keys)) in Hqpos.
  apply elem_of_app in Hqpos as [Hqpos|Hqpos].
  { destruct Hout. apply list_elem_of_fmap. exists q. split; [|done].
    rewrite (key_of_lookup cands q Hq') in Hq. by injection Hq. }
  pose proof (argsort_sorted keys) as Hs.
  rewrite <- (take_drop (Z.to_nat tile_options) (argsort keys)), fmap_app in Hs.
  assert (Hp' : (p < length cands)%nat).
  { apply Hlt. apply elem_of_take in Hp as (i & Hi & _).
    by eapply list_elem_of_lookup_2. }
  assert (Hle : key_of keys p ≤ key_of keys q).
  { apply (StronglySorted_app_1_elem_of _ _ _ _ _ Hs); apply list_elem_of_fmap; eauto. }
  rewrite (Hkey p Hp'), (Hkey q Hq') in Hle.
  rewrite (key_of_lookup cands q Hq') in Hq. by injection Hq as <-.
Qed.
End selector_ranking.

Section selector_target.
Context `{ArgSort}.

(** When the target tile size is a multiple of 8 that divides the
    dimension, the number of tiles that hits it exactly comes first. *)
Theorem possible_tile_sizes_exact_first (n0 tile_size min_tile_size tile_options : Z) :
  1 ≤ n0 → 1 ≤ tile_size → tile_size `mod` 8 = 0 →
  n0 * tile_size ≤ int64_max → int64_min ≤ min_tile_size → 1 ≤ tile_options →
  ∃ l, possible_tile_sizes (n0 * tile_size) tile_size min_tile_size tile_options
       = Ok (n0 :: l).
Proof.
  intros Hn0 Ht H8 Hmax Hm Hk.
  set (dimension := n0 * tile_size).
  assert (Hd : 1 ≤ dimension) by (unfold dimension; nia).
  assert (Hdiv0 : dimension / n0 = tile_size).
  { unfold dimension. rewrite Z.mul_comm. apply Z.div_mul. lia. }
  assert (Hacc : accepted tile_size min_tile_size).
  { pose proof int64_lt_uint64. pose proof int64_min_neg.
    unfold accepted. split; [done|]. split; [lia|]. unfold dimension in *. nia. }
  rewrite possible_tile_sizes_Ok by (done || (unfold dimension in *; lia)).
  set (cands := candidates dimension tile_size min_tile_size).
  set (keys := sort_keys dimension tile_size cands).
  assert (Hin : n0 ∈ cands).
  { apply elem_of_candidates. rewrite Hdiv0.
    apply Z.div_exact in H8; [|lia]. unfold dimension. split; [nia|]. split; lia. }
  apply list_elem_of_lookup in Hin as [i0 Hi0].
  assert (Hi0' : (i0 < length cands)%nat) by (by eapply lookup_lt_Some).
  assert (Hkey : ∀ i n, cands !! i = Some n →
    key_of keys i = distance dimension tile_size n).
  { intros i n Hn. unfold keys, sort_keys, key_of. rewrite list_lookup_fmap, Hn. simpl.
    apply list_elem_of_lookup_2, elem_of_candidates in Hn as (Hn & _).
    apply sort_key_distance; unfold int64_max in *; lia. }
  destruct (argsort_head_least keys i0) as [pos Hpos].
  { unfold keys. by rewrite sort_keys_length. }
  { intros j Hj Hne. unfold keys in Hj. rewrite sort_keys_length in Hj.
    destruct (lookup_lt_is_Some_2 cands j Hj) as [n Hn].
    rewrite (Hkey _ _ Hi0), (Hkey _ _ Hn). unfold distance.
    rewrite Hdiv0, Z.sub_diag. simpl.
    assert (dimension / n ≠ tile_size); [|lia]. intros Heq.
    pose proof Hn as Hc. apply list_elem_of_lookup_2, elem_of_candidates in Hc
      as (Hn1 & Hdiv & _).
    destruct (candidate_divides dimension n) as [Hmod _]; [lia|done|].
    apply Z.div_exact in Hmod; [|lia]. rewrite Heq in Hmod.
    assert (n = n0) as -> by (unfold dimension in Hmod; nia).
    apply Hne. exact (proj1 (NoDup_alt cands) (candidates_NoDup _ _ _) j i0 _ Hn Hi0). }
  rewrite Hpos.
  replace (Z.to_nat tile_options) with (S (Z.to_nat (tile_options - 1))) by lia.
  csimpl. rewrite (key_of_lookup cands i0 Hi0') in Hi0. injection Hi0 as ->.
  by eexists.
Qed.

(** Asking for more options adds candidates at the end of the list and
    changes none of those that fewer options give: whenever the selector
    returns a list for the larger number of options, it returns the first
    elements of that list for the smaller number; and it returns for both
    on an int64 dimension that is not negative and scalars that the
    conversion accepts. *)
Theorem possible_tile_sizes_prefix
    (dimension tile_size min_tile_size tile_options more_options : Z) :
  1 ≤ tile_options ≤ more_options →
  (∀ l', possible_tile_sizes dimension tile_size min_tile_size more_options = Ok l' →
     possible_tile_sizes dimension tile_size min_tile_size tile_options
     = Ok (take (Z.to_nat tile_options) l'))
  ∧ (0 ≤ dimension ≤ int64_max → accepted tile_size min_tile_size →
     ∃ l l', possible_tile_sizes dimension tile_size min_tile_size tile_options = Ok l
       ∧ possible_tile_sizes dimension tile_size min_tile_size more_options = Ok l'
       ∧ l = take (Z.to_nat tile_options) l').
Proof.
  intros Hk.
  assert (Htake : ∀ l', 0 ≤ dimension ≤ int64_max → accepted tile_size min_tile_size →
    possible_tile_sizes dimension tile_size min_tile_size more_options = Ok l' →
    possible_tile_sizes dimension tile_size min_tile_size tile_options
    = Ok (take (Z.to_nat tile_options) l')).
  { intros l' Hd Hacc Hl'.
    rewrite possible_tile_sizes_Ok in Hl' by (done || lia). injection Hl' as <-.
    rewrite possible_tile_sizes_Ok by (done || lia).
    rewrite <- fmap_take, take_take. do 3 f_equal. lia. }
  split.
  - intros l' Hl'.
    destruct (possible_tile_sizes_Ok_inv _ _ _ _ _ Hl') as (Hd & _ & Hacc).
    by apply Htake.
  - intros Hd Hacc. do 2 eexists.
    split; [apply Htake; [done..|]|]; [|split; [|done]];
      apply possible_tile_sizes_Ok; done || lia.
Qed.
End selector_target.

Lemma possible_tile_sizes_empty_iff_witness :
  1 ≤ 100 ≤ int64_max ∧ 1 ≤ 1 ∧ accepted 256 128
  ∧ (@possible_tile_sizes stable_argsort 100 256 128 1 = Ok [] ↔ 100 `mod` 8 ≠ 0).
Proof.
  split; [in_range|]. split; [lia|]. split; [in_range|].
  apply (@possible_tile_sizes_empty_iff stable_argsort 100 256 128 1); in_range.
Defined.

Lemma possible_tile_sizes_edge_at_least_8_witness :
  @possible_tile_sizes stable_argsort 1024 256 128 5 = Ok [4; 8; 2; 1]
  ∧ ∀ n, n ∈ [4; 8; 2; 1] → 1 ≤ n ∧ 8 ≤ 1024 / n ∧ 8 * n ≤ 1024.
Proof.
  split; [reflexivity|].
  apply (@possible_tile_sizes_edge_at_least_8 stable_argsort 1024 256 128 5).
  reflexivity.
Defined.

Lemma possible_tile_sizes_closest_witness :
  valid_input 1024 256 2 ∧ int64_min ≤ 128
  ∧ ∃ l, @possible_tile_sizes stable_argsort 1024 256 128 2 = Ok l
    ∧ ∀ a n, a ∈ l → n ∈ candidates 1024 256 128 → n ∉ l →
        distance 1024 256 a ≤ distance 1024 256 n.
Proof.
  assert (Hv : valid_input 1024 256 2) by (unfold valid_input, int64_min, int64_max; lia).
  assert (Hm : int64_min ≤ 128) by (unfold int64_min; lia).
  split; [exact Hv|]. split; [exact Hm|].
  apply (@possible_tile_sizes_closest stable_argsort 1024 256 128 2 Hv Hm).
Defined.

Lemma possible_tile_sizes_exact_first_witness :
  1 ≤ 2 ∧ 1 ≤ 256 ∧ 256 `mod` 8 = 0 ∧ 2 * 256 ≤ int64_max ∧ int64_min ≤ 256 ∧ 1 ≤ 1
  ∧ ∃ l, @possible_tile_sizes stable_argsort (2 * 256) 256 256 1 = Ok (2 :: l).
Proof.
  assert (Hmax : 2 * 256 ≤ int64_max) by (unfold int64_max; lia).
  assert (Hm : int64_min ≤ 256) by (unfold int64_min; lia).
  split; [lia|]. split; [lia|]. split; [done|]. split; [exact Hmax|].
  split; [exact Hm|]. split; [lia|].
  apply (@possible_tile_sizes_exact_first stable_argsort 2 256 256 1);
    [lia|lia|done|exact Hmax|exact Hm|lia].
Defined.

Lemma possible_tile_sizes_prefix_witness :
  1 ≤ 2 ≤ 5
  ∧ @possible_tile_sizes stable_argsort 1024 256 128 5 = Ok [4; 8; 2; 1]
  ∧ (∀ l', @possible_tile_sizes stable_argsort 1024 256 128 5 = Ok l' →
       @possible_tile_sizes stable_argsort 1024 256 128 2 = Ok (take (Z.to_nat 2) l'))
  ∧ (0 ≤ 1024 ≤ int64_max → accepted 256 128 →
     ∃ l l', @possible_tile_sizes stable_argsort 1024 256 128 2 = Ok l
       ∧ @possible_tile_sizes stable_argsort 1024 256 128 5 = Ok l'
       ∧ l = take (Z.to_nat 2) l').
Proof.
  split; [lia|]. split; [reflexivity|].
  apply (@possible_tile_sizes_prefix stable_argsort 1024 256 128 2 5); lia.
Defined.

(** * Partition and reassembly of a sequence tensor *)

Section sequence_index_arithmetic.
Local Open Scope nat_scope.

Lemma merge3_src_lt (b c nh h nw w k : nat) :
  k < b * (nh * h * nw * w) * c →
  merge3_src c nh h nw w k < b * nh * nw * (h * w) * c.
Proof.
  intros Hk. unfold merge3_src.
  set (k1 := k / c). set (p := k1 mod (nh * h * nw * w)).
  assert (k mod c < c) by (eapply mod_lt_pos, Hk).
  assert (Hk1 : k1 < b * (nh * h * nw * w)) by (apply div_lt_mul, Hk).
  assert (Hp : p < nh * h * nw * w) by (eapply mod_lt_pos, Hk1).
  assert (k1 / (nh * h * nw * w) < b) by (apply div_lt_mul, Hk1).
  assert (p mod w < w) by (eapply mod_lt_pos, Hp).
  assert (Hp1 : p / w < nh * h * nw) by (apply div_lt_mul, Hp).
  assert (p / w mod nw < nw) by (eapply mod_lt_pos, Hp1).
  assert (Hp2 : p / w / nw < nh * h) by (apply div_lt_mul, Hp1).
  assert (p / w / nw mod h < h) by (eapply mod_lt_pos, Hp2).
  assert (p / w / nw / h < nh) by (apply div_lt_mul, Hp2).
  repeat apply digit_lt; done.
Qed.

Lemma split3_src_lt (b c nh h nw w k : nat) :
  k < b * nh * nw * (h * w) * c →
  split3_src c nh h nw w k < b * (nh * h * nw * w) * c.
Proof.
  intros Hk. unfold split3_src.
  set (k1 := k / c). set (s := k1 mod (h * w)). set (t := k1 / (h * w)).
  assert (k mod c < c) by (eapply mod_lt_pos, Hk).
  assert (Hk1 : k1 < b * nh * nw * (h * w)) by (apply div_lt_mul, Hk).
  assert (Hs : s < h * w) by (eapply mod_lt_pos, Hk1).
  assert (Ht : t < b * nh * nw) by (apply div_lt_mul, Hk1).
  assert (s mod w < w) by (eapply mod_lt_pos, Hs).
  assert (s / w < h) by (apply div_lt_mul, Hs).
  assert (t mod nw < nw) by (eapply mod_lt_pos, Ht).
  assert (Ht1 : t / nw < b * nh) by (apply div_lt_mul, Ht).
  assert (t / nw mod nh < nh) by (eapply mod_lt_pos, Ht1).
  assert (t / nw / nh < b) by (apply div_lt_mul, Ht1).
  apply digit_lt; [|done].
  rewrite <- Nat.add_assoc. apply digit_lt; [done|].
  repeat apply digit_lt; done.
Qed.

Lemma split3_merge3_src (b c nh h nw w k : nat) :
  k < b * (nh * h * nw * w) * c →
  split3_src c nh h nw w (merge3_src c nh h nw w k) = k.
Proof.
  intros Hk. unfold merge3_src.
  set (k1 := k / c). set (p := k1 mod (nh * h * nw * w)).
  assert (Hci : k mod c < c) by (eapply mod_lt_pos, Hk).
  assert (Hk1 : k1 < b * (nh * h * nw * w)) by (apply div_lt_mul, Hk).
  assert (Hp : p < nh * h * nw * w) by (eapply mod_lt_pos, Hk1).
  assert (Hx : p mod w < w) by (eapply mod_lt_pos, Hp).
  assert (Hp1 : p / w < nh * h * nw) by (apply div_lt_mul, Hp).
  assert (Hj : p / w mod nw < nw) by (eapply mod_lt_pos, Hp1).
  assert (Hp2 : p / w / nw < nh * h) by (apply div_lt_mul, Hp1).
  assert (Hy : p / w / nw mod h < h) by (eapply mod_lt_pos, Hp2).
  assert (Hi : p / w / nw / h < nh) by (apply div_lt_mul, Hp2).
  assert (Hs : p / w / nw mod h * w + p mod w < h * w) by (by apply digit_lt).
  unfold split3_src.
  rewrite !(digit_mod _ c), !(digit_div _ c) by done.
  rewrite !(digit_mod _ (h * w)), !(digit_div _ (h * w)) by done.
  rewrite !(digit_mod _ w), !(digit_div _ w) by done.
  rewrite !(digit_mod _ nw), !(digit_div _ nw) by done.
  rewrite !(digit_mod _ nh), !(digit_div _ nh) by done.
  rewrite (div_mod_digit (p / w / nw) h), (div_mod_digit (p / w) nw).
  rewrite <- Nat.add_assoc, (div_mod_digit p w).
  unfold p. rewrite (div_mod_digit k1 (nh * h * nw * w)).
  unfold k1. apply div_mod_digit.
Qed.
End sequence_index_arithmetic.

(** The round trip of lines 101-105: a sequence tensor of shape
    [(b, nh*h*nw*w, c)], on a grid of [nh] by [nw] tiles with at least one
    tile each way, is partitioned into a tensor of shape
    [(b*nh*nw, h*w, c)], and the reassembly of that tensor is the tensor
    itself, shape and elements. *)
Theorem rearrange_split3_merge3 {A} (x : tensor A) (b c nh h nw w : nat) :
  shape x = [b; nh * h * nw * w; c]%nat → well_formed x →
  (1 ≤ nh)%nat → (1 ≤ nw)%nat →
  ∃ y, rearrange_split3 h w nh nw x = Ok y
    ∧ shape y = [b * nh * nw; h * w; c]%nat ∧ well_formed y
    ∧ rearrange_merge3 h w nh nw y = Ok x.
Proof.
  intros Hsh Hwf Hnh Hnw. destruct x as [sh d]. simpl in Hsh. subst sh.
  unfold well_formed in Hwf. simpl in Hwf.
  assert (Hlen : length d = (b * (nh * h * nw * w) * c)%nat) by lia.
  assert (Hnum : (b * nh * nw * (h * w) * c = b * (nh * h * nw * w) * c)%nat) by lia.
  unfold rearrange_split3. simpl. case_decide as H0; [clear H0|done].
  eexists. split; [done|]. split; [done|].
  split.
  { unfold well_formed. simpl. rewrite gather_length; [lia|].
    intros k Hk. rewrite Hlen. apply split3_src_lt. lia. }
  unfold rearrange_merge3. simpl.
  case_decide as H0; [lia|clear H0].
  replace (b * nh * nw)%nat with (b * (nh * nw))%nat by lia.
  rewrite Nat.Div0.mod_mul. case_decide as H0; [clear H0|done].
  case_decide as H0; [clear H0|done].
  rewrite Nat.div_mul by lia. do 2 f_equal.
  replace (b * (nh * nw) * (h * w * (c * 1)))%nat
    with (b * (nh * h * nw * w) * c)%nat by lia.
  replace (b * (nh * h * nw * w * (c * 1)))%nat
    with (b * (nh * h * nw * w) * c)%nat by lia.
  apply gather_gather; [done|..].
  - intros k Hk. apply split3_src_lt. lia.
  - intros k Hk. rewrite <- Hnum. by apply merge3_src_lt.
  - intros k Hk. by apply (split3_merge3_src b).
Qed.

Lemma rearrange_split3_merge3_witness :
  let x : tensor Z := Tensor [1; 2 * 2 * 2 * 2; 1]%nat
                        [0; 1; 2; 3; 4; 5; 6; 7; 8; 9; 10; 11; 12; 13; 14; 15] in
  ∃ y, rearrange_split3 2 2 2 2 x = Ok y
    ∧ shape y = [1 * 2 * 2; 2 * 2; 1]%nat ∧ well_formed y
    ∧ rearrange_merge3 2 2 2 2 y = Ok x.
Proof.
  apply (rearrange_split3_merge3 _ 1 1 2 2 2 2); [done|done|lia|lia].
Defined.

(** * Further properties of the forward wrapper *)

Lemma gather_fmap {A} (f : A → A) (src : nat → nat) (n : nat) (d : list A) :
  gather src n (f <$> d) = f <$> gather src n d.
Proof.
  unfold gather. induction (seq 0 n) as [|k l IH]; [done|].
  csimpl. rewrite list_lookup_fmap, IH. by destruct (d !! src k).
Qed.

Lemma rearrange_split4_eq {A} (x : tensor A) (b c nh h nw w : nat) :
  shape x = [b; c; nh * h; nw * w]%nat → (1 ≤ nh)%nat → (1 ≤ nw)%nat →
  rearrange_split4 nh nw x
  = Ok (Tensor [b * nh * nw; c; h; w]%nat
          (gather (split4_src c nh h nw w) (b * c * (nh * h) * (nw * w)) (data x))).
Proof.
  intros Hsh Hnh Hnw. unfold rearrange_split4. rewrite Hsh.
  case_decide as H0; [lia|clear H0].
  rewrite !(Nat.mul_comm nh h), !(Nat.mul_comm nw w), !Nat.Div0.mod_mul.
  case_decide as H0; [clear H0|by destruct H0].
  rewrite !Nat.div_mul by lia. do 3 f_equal. simpl. lia.
Qed.

Lemma rearrange_merge4_eq {A} (y : tensor A) (b c nh h nw w : nat) :
  shape y = [b * nh * nw; c; h; w]%nat → (1 ≤ nh)%nat → (1 ≤ nw)%nat →
  rearrange_merge4 nh nw y
  = Ok (Tensor [b; c; nh * h; nw * w]%nat
          (gather (merge4_src c nh h nw w) (b * c * (nh * h) * (nw * w)) (data y))).
Proof.
  intros Hsh Hnh Hnw. unfold rearrange_merge4. rewrite Hsh.
  case_decide as H0; [lia|clear H0].
  replace (b * nh * nw)%nat with (b * (nh * nw))%nat by lia.
  rewrite Nat.Div0.mod_mul. case_decide as H0; [clear H0|done].
  rewrite Nat.div_mul by lia. do 3 f_equal. simpl. lia.
Qed.

Lemma merge4_split4_data {A} (d : list A) (b c nh h nw w : nat) :
  length d = (b * c * (nh * h) * (nw * w))%nat →
  gather (merge4_src c nh h nw w) (b * c * (nh * h) * (nw * w))
    (gather (split4_src c nh h nw w) (b * c * (nh * h) * (nw * w)) d) = d.
Proof.
  intros Hlen. apply gather_gather; [done|..].
  - intros k Hk. apply split4_src_lt. lia.
  - intros k Hk.
    replace (b * c * (nh * h) * (nw * w))%nat with (b * nh * nw * c * h * w)%nat by lia.
    by apply merge4_src_lt.
  - intros k Hk. by apply (split4_merge4_src b).
Qed.

Lemma rearrange_split3_eq {A} (x : tensor A) (b c nh h nw w : nat) :
  shape x = [b; nh * h * nw * w; c]%nat →
  rearrange_split3 h w nh nw x
  = Ok (Tensor [b * nh * nw; h * w; c]%nat
          (gather (split3_src c nh h nw w) (b * (nh * h * nw * w) * c) (data x))).
Proof.
  intros Hsh. unfold rearrange_split3. rewrite Hsh.
  case_decide as H0; [clear H0|done]. do 3 f_equal. simpl. lia.
Qed.

Lemma rearrange_merge3_eq {A} (y : tensor A) (b c nh h nw w : nat) :
  shape y = [b * nh * nw; h * w; c]%nat → (1 ≤ nh)%nat → (1 ≤ nw)%nat →
  rearrange_merge3 h w nh nw y
  = Ok (Tensor [b; nh * h * nw * w; c]%nat
          (gather (merge3_src c nh h nw w) (b * (nh * h * nw * w) * c) (data y))).
Proof.
  intros Hsh Hnh Hnw. unfold rearrange_merge3. rewrite Hsh.
  case_decide as H0; [lia|clear H0].
  replace (b * nh * nw)%nat with (b * (nh * nw))%nat by lia.
  rewrite Nat.Div0.mod_mul. case_decide as H0; [clear H0|done].
  case_decide as H0; [clear H0|done].
  rewrite Nat.div_mul by lia. do 3 f_equal. simpl. lia.
Qed.

Lemma merge3_split3_data {A} (d : list A) (b c nh h nw w : nat) :
  length d = (b * (nh * h * nw * w) * c)%nat →
  gather (merge3_src c nh h nw w) (b * (nh * h * nw * w) * c)
    (gather (split3_src c nh h nw w) (b * (nh * h * nw * w) * c) d) = d.
Proof.
  intros Hlen. apply gather_gather; [done|..].
  - intros k Hk. apply split3_src_lt. lia.
  - intros k Hk.
    replace (b * (nh * h * nw * w) * c)%nat with (b * nh * nw * (h * w) * c)%nat by lia.
    by apply merge3_src_lt.
  - intros k Hk. by apply (split3_merge3_src b).
Qed.

Lemma make_ns_Ok (r1 r2 : Z) (s : wstate) :
  nhs s ≠ [] → nws s ≠ [] →
  ∃ nh nw, make_ns r1 r2 s = (Ok (nh, nw), s) ∧ nh ∈ nhs s ∧ nw ∈ nws s.
Proof.
  intros Hh Hw. unfold make_ns, mbind, W_bind, get, lift. simpl.
  destruct (randint_range 0 (Z.of_nat (length (nhs s)) - 1) r1) as (i & -> & Hi).
  { destruct (nhs s); [done|]. simpl. lia. }
  destruct (getitem_Ok (nhs s) i) as (nh & -> & Hnh); [lia|].
  destruct (randint_range 0 (Z.of_nat (length (nws s)) - 1) r2) as (j & -> & Hj).
  { destruct (nws s); [done|]. simpl. lia. }
  destruct (getitem_Ok (nws s) j) as (nw & -> & Hnw); [lia|].
  by exists nh, nw.
Qed.

(** The draw of the tile grid: it raises [ValueError] when a candidate
    list is empty; otherwise it returns a candidate of each list and
    leaves the state as it was, so that with one candidate in each list
    the grid does not depend on the random numbers. *)
Theorem make_ns_outcome (r1 r2 : Z) (s : wstate) :
  (nhs s = [] ∨ nws s = [] → make_ns r1 r2 s = (Raise ValueError, s))
  ∧ (nhs s ≠ [] → nws s ≠ [] →
     ∃ nh nw, make_ns r1 r2 s = (Ok (nh, nw), s) ∧ nh ∈ nhs s ∧ nw ∈ nws s)
  ∧ (∀ a b, nhs s = [a] → nws s = [b] → make_ns r1 r2 s = (Ok (a, b), s)).
Proof.
  split; [apply make_ns_empty|]. split; [apply make_ns_Ok|].
  intros a b Ha Hb.
  destruct (make_ns_Ok r1 r2 s) as (nh & nw & -> & Hnh & Hnw); [by rewrite ?Ha, ?Hb..|].
  rewrite Ha in Hnh. rewrite Hb in Hnw.
  apply list_elem_of_singleton in Hnh, Hnw. by subst.
Qed.

Section wrapper_further.
Context `{ArgSort} {A : Type}.
Variables (tile_size min_tile_size swap_size depth : Z).
Variables (stage_h stage_w round_log2 : Z → Z).
Variable forward : tensor A → result (tensor A).

Lemma wrapper_4d (r1 r2 nh nw : Z) (x : tensor A) (s : wstate) :
  ndim x = 4%nat → make_ns r1 r2 s = (Ok (nh, nw), s) →
  wrapper tile_size min_tile_size swap_size depth stage_h stage_w round_log2
    forward r1 r2 x s
  = (x' ← (if decide (nh * nw > 1)
           then rearrange_split4 (Z.to_nat nh) (Z.to_nat nw) x else Ok x);
     out ← forward x';
     if decide (nh * nw > 1)
     then rearrange_merge4 (Z.to_nat nh) (Z.to_nat nw) out else Ok out,
     s).
Proof.
  intros Hdim Hns. unfold wrapper. unfold mbind at 1. unfold W_bind. rewrite Hns.
  case_decide; [|done]. unfold mbind, W_bind, lift.
  destruct (if decide (nh * nw > 1) then _ else _) as [x'|e]; [|done]. simpl.
  by destruct (forward x').
Qed.

(** On a 4-D input and candidate lists that hold the grid of one tile
    only, the wrapper is the wrapped [forward] on the input, and the
    state stays as it was. *)
Theorem wrapper_4d_single_tile (r1 r2 : Z) (x : tensor A) (s : wstate) :
  ndim x = 4%nat → nhs s ≠ [] → nws s ≠ [] →
  Forall (λ n, n = 1) (nhs s) → Forall (λ n, n = 1) (nws s) →
  wrapper tile_size min_tile_size swap_size depth stage_h stage_w round_log2
    forward r1 r2 x s
  = (forward x, s).
Proof.
  intros Hdim Hh Hw Hh1 Hw1.
  destruct (make_ns_Ok r1 r2 s Hh Hw) as (nh & nw & Hns & Hnh & Hnw).
  rewrite Forall_forall in Hh1, Hw1. apply Hh1 in Hnh. apply Hw1 in Hnw. subst.
  rewrite (wrapper_4d r1 r2 1 1) by done.
  case_decide; [lia|]. simpl. by destruct (forward x).
Qed.

(** The 4-D branch has no fallback: when no candidate for the height
    divides the height of the input, the partitioning rearrange raises
    and so does the wrapper, whatever the wrapped [forward] is. *)
Theorem wrapper_4d_indivisible (r1 r2 : Z) (x : tensor A) (s : wstate)
    (b c H' W' : nat) :
  shape x = [b; c; H'; W'] → nhs s ≠ [] → nws s ≠ [] →
  Forall (λ n, 1 ≤ n ∧ Z.of_nat H' `mod` n ≠ 0) (nhs s) →
  Forall (λ n, 1 ≤ n) (nws s) →
  wrapper tile_size min_tile_size swap_size depth stage_h stage_w round_log2
    forward r1 r2 x s
  = (Raise EinopsError, s).
Proof.
  intros Hsh Hh Hw Hhs Hws.
  destruct (make_ns_Ok r1 r2 s Hh Hw) as (nh & nw & Hns & Hnh & Hnw).
  rewrite Forall_forall in Hhs, Hws. apply Hhs in Hnh as [Hnh Hmod]. apply Hws in Hnw.
  rewrite (wrapper_4d r1 r2 nh nw); [|by unfold ndim; rewrite Hsh|done].
  assert (Hne : nh ≠ 1) by (intros ->; by rewrite Z.mod_1_r in Hmod).
  case_decide as Hgrid; [|nia].
  unfold rearrange_split4. rewrite Hsh.
  case_decide as Hz; [lia|clear Hz].
  case_decide as Hd; [|done]. destruct Hd as [Hd _]. destruct Hmod.
  apply (f_equal Z.of_nat) in Hd. rewrite Nat2Z.inj_mod in Hd.
  rewrite Z2Nat.id in Hd by lia. done.
Qed.
End wrapper_further.

Lemma divide_to_nat (n : Z) (D : nat) :
  1 ≤ n → (n | Z.of_nat D) → ∃ q : nat, D = (Z.to_nat n * q)%nat.
Proof.
  intros Hn [q Hq]. exists (Z.to_nat q).
  assert (0 ≤ q) by nia. apply Nat2Z.inj.
  rewrite Nat2Z.inj_mul, !Z2Nat.id by lia. lia.
Qed.

(** Tiling is exact for a computation that works element by element: on
    a 4-D input whose height and width every candidate divides, the
    wrapper returns what the wrapped [forward] returns on the whole
    input, whatever grid is drawn, and leaves the state as it was. *)
Theorem wrapper_4d_pointwise `{ArgSort} {A : Type}
    (tile_size min_tile_size swap_size depth : Z)
    (stage_h stage_w round_log2 : Z → Z) (f : A → A)
    (r1 r2 : Z) (x : tensor A) (s : wstate) (b c H' W' : nat) :
  shape x = [b; c; H'; W'] → well_formed x →
  nhs s ≠ [] → nws s ≠ [] →
  Forall (λ n, 1 ≤ n ∧ (n | Z.of_nat H')) (nhs s) →
  Forall (λ n, 1 ≤ n ∧ (n | Z.of_nat W')) (nws s) →
  wrapper tile_size min_tile_size swap_size depth stage_h stage_w round_log2
    (λ t, Ok (pointwise f t)) r1 r2 x s
  = (Ok (pointwise f x), s).
Proof.
  intros Hsh Hwf Hh Hw Hhs Hws.
  destruct (make_ns_Ok r1 r2 s Hh Hw) as (nh & nw & Hns & Hnh & Hnw).
  rewrite Forall_forall in Hhs, Hws.
  apply Hhs in Hnh as [Hnh Hdh]. apply Hws in Hnw as [Hnw Hdw].
  rewrite (wrapper_4d _ _ _ _ _ _ _ _ r1 r2 nh nw); [|by unfold ndim; rewrite Hsh|done].
  case_decide as Hgrid; [|done].
  destruct (divide_to_nat nh H' Hnh Hdh) as [h ->].
  destruct (divide_to_nat nw W' Hnw Hdw) as [w ->].
  destruct x as [sh d]. simpl in Hsh. subst sh.
  unfold well_formed in Hwf. simpl in Hwf.
  rewrite (rearrange_split4_eq _ b c (Z.to_nat nh) h (Z.to_nat nw) w) by (done || lia).
  simpl. unfold pointwise at 1. simpl.
  rewrite (rearrange_merge4_eq _ b c (Z.to_nat nh) h (Z.to_nat nw) w) by (done || lia).
  simpl. rewrite <- gather_fmap, gather_fmap, gather_fmap.
  rewrite merge4_split4_data by lia. done.
Qed.

Lemma wrapper_4d_pointwise_witness :
  let x : tensor Z := Tensor [1; 1; 4; 4]%nat
                        [0; 1; 2; 3; 4; 5; 6; 7; 8; 9; 10; 11; 12; 13; 14; 15] in
  let s := WState 32 32 0 0 false false [2; 1] [4] [] in
  shape x = [1; 1; 4; 4]%nat ∧ well_formed x
  ∧ @wrapper stable_argsort Z 8 8 2 0 (λ _, 2) (λ _, 2) (λ _, 0)
      (λ t, Ok (pointwise Z.succ t)) 7 3 x s
    = (Ok (pointwise Z.succ x), s).
Proof.
  split; [done|]. split; [done|].
  apply (@wrapper_4d_pointwise stable_argsort Z 8 8 2 0 _ _ _ Z.succ 7 3 _ _ 1 1 4 4)%nat;
    try done.
  - apply Forall_cons_2; [split; [lia|by exists 2]|].
    apply Forall_cons_2; [split; [lia|by exists 4]|]. apply Forall_nil_2.
  - apply Forall_cons_2; [split; [lia|by exists 1]|]. apply Forall_nil_2.
Defined.

Lemma unet_try_pointwise_eq {A : Type} (f : A → A) (x : tensor A)
    (h w nh nw : Z) (do_split : bool) (s : wstate) (b c : nat) :
  shape x = [b; Z.to_nat (h * w); c] → well_formed x →
  0 ≤ h → 0 ≤ w → 1 ≤ nh → 1 ≤ nw → h `mod` nh = 0 → w `mod` nw = 0 →
  unet_try (λ t, Ok (pointwise f t)) x h w nh nw do_split s
  = (Ok (pointwise f x), s).
Proof.
  intros Hsh Hwf Hh Hw Hnh Hnw Hdh Hdw.
  unfold unet_try, unet_attempt. destruct do_split; [|done].
  apply Z.div_exact in Hdh; [|lia]. apply Z.div_exact in Hdw; [|lia].
  assert (0 ≤ h / nh) by (apply Z.div_pos; lia).
  assert (0 ≤ w / nw) by (apply Z.div_pos; lia).
  set (th := Z.to_nat (h / nh)) in *. set (tw := Z.to_nat (w / nw)) in *.
  assert (HL : Z.to_nat (h * w) = (Z.to_nat nh * th * Z.to_nat nw * tw)%nat).
  { unfold th, tw. rewrite <- !Z2Nat.inj_mul by nia. f_equal. nia. }
  rewrite HL in Hsh. destruct x as [sh d]. simpl in Hsh. subst sh.
  unfold well_formed in Hwf. simpl in Hwf.
  rewrite (rearrange_split3_eq _ b c (Z.to_nat nh) th (Z.to_nat nw) tw) by done.
  simpl. unfold pointwise at 1. simpl.
  rewrite (rearrange_merge3_eq _ b c (Z.to_nat nh) th (Z.to_nat nw) tw) by (done || lia).
  simpl. rewrite <- gather_fmap, gather_fmap, gather_fmap.
  rewrite merge3_split3_data by lia. done.
Qed.

(** Tiling is exact for a computation that works element by element, in
    the flattened-sequence branch too: on a sequence of [h * w] tokens and
    a grid that divides [h] and [w], the [try] statement returns what the
    wrapped [forward] returns on the whole input, split or not, logs
    nothing and leaves the state as it was. *)
Theorem unet_try_pointwise {A : Type} (f : A → A) (x : tensor A)
    (h w nh nw : Z) (do_split : bool) (s : wstate) (b c : nat) :
  shape x = [b; Z.to_nat (h * w); c] → well_formed x →
  0 ≤ h → 0 ≤ w → 1 ≤ nh → 1 ≤ nw → h `mod` nh = 0 → w `mod` nw = 0 →
  unet_try (λ t, Ok (pointwise f t)) x h w nh nw do_split s
  = (Ok (pointwise f x), s).
Proof. apply unet_try_pointwise_eq. Qed.

Lemma unet_try_pointwise_witness :
  let x : tensor Z := Tensor [1; Z.to_nat (2 * 2); 1]%nat [10; 20; 30; 40] in
  let s := WState 16 16 2 2 false false [1] [2] [] in
  well_formed x
  ∧ unet_try (λ t, Ok (pointwise Z.succ t)) x 2 2 1 2 true s
    = (Ok (pointwise Z.succ x), s).
Proof.
  split; [done|].
  apply (unet_try_pointwise Z.succ _ 2 2 1 2 true _ 1 1); done || lia.
Defined.

Section wrapper_state.
Context {A : Type}.
Variable forward : tensor A → result (tensor A).

Lemma report_flagged (e : exn) (s : wstate) :
  error_reported s = true → report e s = (Ok tt, s).
Proof.
  intros Hr. unfold report, mbind, W_bind, get, when. simpl. by rewrite Hr.
Qed.

Lemma report_first (e : exn) (s : wstate) :
  error_reported s = false →
  report e s
  = (Ok tt, WState (height s) (width s) (max_h s) (max_w s) true (reset_needed s)
              (nhs s) (nws s) (log s ++ [HypertileError (width s) (height s) e])).
Proof.
  intros Hr. unfold report, mbind, W_bind, get, when, modify. simpl. by rewrite Hr.
Qed.

Lemma unet_try_Ok (x x' out : tensor A) (h w nh nw : Z) (do_split : bool) (s : wstate) :
  unet_attempt forward x h w nh nw do_split = (Ok out, x') →
  unet_try forward x h w nh nw do_split s = (Ok out, s).
Proof. intros Ha. unfold unet_try. by rewrite Ha. Qed.

Lemma unet_try_Raise (x x' : tensor A) (e : exn) (h w nh nw : Z) (do_split : bool)
    (s : wstate) :
  unet_attempt forward x h w nh nw do_split = (Raise e, x') →
  unet_try forward x h w nh nw do_split s
  = (forward x',
     if error_reported s then s
     else WState (height s) (width s) (max_h s) (max_w s) true (reset_needed s)
            (nhs s) (nws s) (log s ++ [HypertileError (width s) (height s) e])).
Proof.
  intros Ha. unfold unet_try. rewrite Ha. unfold mbind, W_bind, lift.
  destruct (error_reported s) eqn:Hr.
  - by rewrite report_flagged.
  - by rewrite report_first.
Qed.

Lemma run_step_log (step : scope_step A) (s : wstate) :
  keeps_log step →
  let s' := run_step forward s step in
  if attempt_fails forward step && negb (error_reported s)
  then error_reported s' = true
       ∧ ∃ e, log s' = log s ++ [HypertileError (width s) (height s) e]
  else error_reported s' = error_reported s ∧ log s' = log s.
Proof.
  destruct step as [x h w nh nw do_split|g]; simpl; [intros _|intros Hg; apply Hg].
  destruct (unet_attempt forward x h w nh nw do_split) as [[out|e] x'] eqn:Ha; simpl.
  - by rewrite (unet_try_Ok _ _ _ _ _ _ _ _ _ Ha).
  - rewrite (unet_try_Raise _ _ _ _ _ _ _ _ _ Ha). simpl.
    destruct (error_reported s) eqn:Hr; simpl; [done|]. split; [done|]. by exists e.
Qed.

Lemma run_steps_flagged (steps : list (scope_step A)) (s : wstate) :
  Forall keeps_log steps → error_reported s = true →
  error_reported (foldl (run_step forward) s steps) = true
  ∧ log (foldl (run_step forward) s steps) = log s.
Proof.
  intros Hsteps. revert s. induction Hsteps as [|step steps Hstep _ IH]; intros s Hr.
  { done. }
  simpl. pose proof (run_step_log step s Hstep) as Hlog. simpl in Hlog.
  rewrite Hr, andb_false_r in Hlog. destruct Hlog as [Hr' Hl'].
  destruct (IH (run_step forward s step)) as [? ?]; [congruence|]. split; congruence.
Qed.

(** A failure of the partitioned execution is logged once.  A call of the
    [try] statement whose suite returns leaves the state as it was; one
    whose suite raises returns what [forward] gives on the current
    binding of [x], and it leaves the state as it was when
    [error_reported] is set, and otherwise sets [error_reported] and adds
    one entry to the log, with the width and the height of that moment and
    the exception.  So over the steps of a scope, where the steps outside
    the [try] statement leave [error_reported] and the log alone: once
    [error_reported] is set the log does not grow; from a state where it
    is not set, the log stays as it is when no suite raises, and grows by
    exactly one entry when some suite does. *)
Theorem unet_try_logs_once (x : tensor A) (h w nh nw : Z) (do_split : bool)
    (s : wstate) (steps : list (scope_step A)) :
  (∀ out x', unet_attempt forward x h w nh nw do_split = (Ok out, x') →
     unet_try forward x h w nh nw do_split s = (Ok out, s))
  ∧ (∀ e x', unet_attempt forward x h w nh nw do_split = (Raise e, x') →
     unet_try forward x h w nh nw do_split s
     = (forward x',
        if error_reported s then s
        else WState (height s) (width s) (max_h s) (max_w s) true (reset_needed s)
               (nhs s) (nws s) (log s ++ [HypertileError (width s) (height s) e])))
  ∧ (Forall keeps_log steps →
     let s' := foldl (run_step forward) s steps in
     (error_reported s = true → error_reported s' = true ∧ log s' = log s)
     ∧ (error_reported s = false → existsb (attempt_fails forward) steps = false →
        error_reported s' = false ∧ log s' = log s)
     ∧ (error_reported s = false → existsb (attempt_fails forward) steps = true →
        error_reported s' = true ∧ ∃ entry, log s' = log s ++ [entry])).
Proof.
  split; [intros out x'; apply unet_try_Ok|].
  split; [intros e x'; apply unet_try_Raise|].
  intros Hsteps. simpl. split; [by apply run_steps_flagged|].
  revert s. induction Hsteps as [|step steps Hstep Hsteps IH]; intros s.
  { split; [done|]. by intros _ [=]. }
  simpl. pose proof (run_step_log step s Hstep) as Hlog. simpl in Hlog.
  destruct (IH (run_step forward s step)) as [IH1 IH2].
  split; intros Hr Hex; rewrite Hr, andb_true_r in Hlog;
    destruct (attempt_fails forward step); simpl in Hex; try done.
  - destruct Hlog as [Hr' Hl'].
    destruct (IH1 Hr' Hex) as [? ?]. split; congruence.
  - destruct Hlog as [Hr' [e He]].
    destruct (run_steps_flagged steps (run_step forward s step) Hsteps Hr') as [? Hl].
    split; [done|]. exists (HypertileError (width s) (height s) e). congruence.
  - destruct Hlog as [Hr' Hl'].
    destruct (IH2 Hr' Hex) as [? [entry He]]. split; [done|].
    exists entry. congruence.
Qed.
End wrapper_state.

Section size_tracking.
Context `{ArgSort}.
Variables (tile_size min_tile_size swap_size : Z).
Hypothesis Hacc : accepted tile_size min_tile_size.

Lemma reset_nhs_Ok (s : wstate) :
  0 ≤ height s ≤ int64_max → 1 ≤ swap_size →
  ∃ l, possible_tile_sizes (height s) tile_size min_tile_size swap_size = Ok l
    ∧ reset_nhs tile_size min_tile_size swap_size s
      = (Ok tt, WState (height s) (width s) (max_h s) (max_w s)
                  (error_reported s) (reset_needed s) l (nws s) (log s)).
Proof.
  intros Hh Hk. eexists. split; [by apply possible_tile_sizes_Ok|].
  unfold reset_nhs, mbind, W_bind, get, lift, modify. simpl.
  by rewrite possible_tile_sizes_Ok.
Qed.

Lemma reset_nws_Ok (s : wstate) :
  0 ≤ width s ≤ int64_max → 1 ≤ swap_size →
  ∃ l, possible_tile_sizes (width s) tile_size min_tile_size swap_size = Ok l
    ∧ reset_nws tile_size min_tile_size swap_size s
      = (Ok tt, WState (height s) (width s) (max_h s) (max_w s)
                  (error_reported s) (reset_needed s) (nhs s) l (log s)).
Proof.
  intros Hw Hk. eexists. split; [by apply possible_tile_sizes_Ok|].
  unfold reset_nws, mbind, W_bind, get, lift, modify. simpl.
  by rewrite possible_tile_sizes_Ok.
Qed.

Lemma track_size_stage (h w : Z) (s : wstate) :
  reset_needed s = false → 1 ≤ swap_size →
  1 ≤ h → 8 * h ≤ int64_max → 1 ≤ w → 8 * w ≤ int64_max →
  0 ≤ max_h s → 0 ≤ max_w s →
  max_h s = 0 ∨ height s = 8 * max_h s →
  max_w s = 0 ∨ width s = 8 * max_w s →
  ∃ s', track_size tile_size min_tile_size swap_size h w s = (Ok tt, s')
    ∧ reset_needed s' = false
    ∧ max_h s' = Z.max (max_h s) h ∧ max_w s' = Z.max (max_w s) w
    ∧ height s' = 8 * max_h s' ∧ width s' = 8 * max_w s'
    ∧ 1 ≤ height s' / 8 / h
    ∧ (h ≤ max_h s → nhs s' = nhs s)
    ∧ (max_h s < h →
       possible_tile_sizes (8 * h) tile_size min_tile_size swap_size = Ok (nhs s'))
    ∧ (w ≤ max_w s → nws s' = nws s)
    ∧ (max_w s < w →
       possible_tile_sizes (8 * w) tile_size min_tile_size swap_size = Ok (nws s'))
    ∧ error_reported s' = error_reported s ∧ log s' = log s.
Proof.
  intros Hr Hk Hh Hh8 Hw Hw8 Hmh Hmw Hsh Hsw.
  assert (Hscale : ∀ M, h ≤ M → 1 ≤ 8 * M / 8 / h).
  { intros M HM. rewrite Z.mul_comm, Z.div_mul by lia.
    apply Z.div_le_lower_bound; lia. }
  unfold track_size. unfold mbind at 1. unfold W_bind, get. rewrite Hr.
  unfold when, mbind, W_bind, get, modify.
  case_bool_decide as Hgt1.
  - destruct (reset_nhs_Ok
                (WState (8 * h) (width s) (Z.max (max_h s) h) (max_w s)
                   (error_reported s) (reset_needed s) (nhs s) (nws s) (log s)))
      as (lh & Hlh & ->); [simpl; lia|done|]. simpl in Hlh.
    cbn [height width max_h max_w error_reported reset_needed nhs nws log].
    case_bool_decide as Hgt2;
      cbn [height width max_h max_w error_reported reset_needed nhs nws log].
    + destruct (reset_nws_Ok
                  (WState (8 * h) (8 * w) (Z.max (max_h s) h) (Z.max (max_w s) w)
                     (error_reported s) (reset_needed s) lh (nws s) (log s)))
        as (lw & Hlw & ->); [simpl; lia|done|]. simpl in Hlw.
      eexists. split; [done|]. simpl.
      repeat split; try done; try lia. apply Hscale. lia.
    + eexists. split; [done|]. simpl.
      repeat split; try done; try lia. apply Hscale. lia.
  - cbn [height width max_h max_w error_reported reset_needed nhs nws log mret W_ret].
    case_bool_decide as Hgt2;
      cbn [height width max_h max_w error_reported reset_needed nhs nws log].
    + destruct (reset_nws_Ok
                  (WState (height s) (8 * w) (max_h s) (Z.max (max_w s) w)
                     (error_reported s) (reset_needed s) (nhs s) (nws s) (log s)))
        as (lw & Hlw & ->); [simpl; lia|done|]. simpl in Hlw.
      eexists. split; [done|]. simpl.
      assert (height s = 8 * max_h s) as -> by lia.
      repeat split; try done; try lia. apply Hscale. lia.
    + exists s. split; [done|].
      assert (height s = 8 * max_h s) as -> by lia.
      repeat split; try done; try lia. apply Hscale. lia.
Qed.

(** Lines 84-94, while no new pass is pending, in a scope whose scalars
    the conversion accepts.  From the state that the
    host shims leave (nothing seen yet) or from a state where the size of
    the pass is eight times the largest stage seen, a call on a stage of
    [h] by [w] tokens keeps the size of the pass at eight times the
    largest stage seen, recomputes the candidates of a direction exactly
    when the stage is larger than every stage seen, and makes the ratio
    [height // 8 // h] at least 1, so that lines 93-94 do not raise. *)
Theorem track_size_keeps_scale (h w : Z) (s : wstate) :
  reset_needed s = false → 1 ≤ swap_size →
  1 ≤ h → 8 * h ≤ int64_max → 1 ≤ w → 8 * w ≤ int64_max →
  0 ≤ max_h s → 0 ≤ max_w s →
  max_h s = 0 ∨ height s = 8 * max_h s →
  max_w s = 0 ∨ width s = 8 * max_w s →
  ∃ s', track_size tile_size min_tile_size swap_size h w s = (Ok tt, s')
    ∧ reset_needed s' = false
    ∧ max_h s' = Z.max (max_h s) h ∧ max_w s' = Z.max (max_w s) w
    ∧ height s' = 8 * max_h s' ∧ width s' = 8 * max_w s'
    ∧ 1 ≤ height s' / 8 / h
    ∧ (h ≤ max_h s → nhs s' = nhs s)
    ∧ (max_h s < h →
       possible_tile_sizes (8 * h) tile_size min_tile_size swap_size = Ok (nhs s'))
    ∧ (w ≤ max_w s → nws s' = nws s)
    ∧ (max_w s < w →
       possible_tile_sizes (8 * w) tile_size min_tile_size swap_size = Ok (nws s'))
    ∧ error_reported s' = error_reported s ∧ log s' = log s.
Proof. apply track_size_stage. Qed.
End size_tracking.

(** * Properties of the host shims and of the entry of the scope *)

Section scope_entry.
Context `{ArgSort}.

Lemma init_candidates_Ok (tile_size min_tile_size swap_size : Z) (s : wstate) :
  accepted tile_size min_tile_size →
  0 ≤ height s ≤ int64_max → 0 ≤ width s ≤ int64_max → 1 ≤ swap_size →
  ∃ lh lw,
    possible_tile_sizes (height s) tile_size min_tile_size swap_size = Ok lh
    ∧ possible_tile_sizes (width s) tile_size min_tile_size swap_size = Ok lw
    ∧ init_candidates tile_size min_tile_size swap_size s
      = (Ok tt, WState (height s) (width s) (max_h s) (max_w s)
                  (error_reported s) (reset_needed s) lh lw (log s)).
Proof.
  intros Hacc Hh Hw Hk.
  destruct (reset_nhs_Ok tile_size min_tile_size swap_size Hacc s Hh Hk)
    as (lh & Hlh & Hrh).
  exists lh. eexists. split; [done|]. split; [by apply possible_tile_sizes_Ok|].
  unfold init_candidates, mbind, W_bind. rewrite Hrh.
  unfold reset_nws, mbind, W_bind, get, lift, modify. simpl.
  by rewrite possible_tile_sizes_Ok.
Qed.

Lemma scope_prologue_eq (tile_size min_tile_size swap_size : Z) (s : wstate) :
  scope_prologue tile_size min_tile_size swap_size s
  = if decide (width s = 0) then (Raise ZeroDivisionError, s)
    else init_candidates tile_size min_tile_size swap_size s.
Proof.
  unfold scope_prologue. unfold mbind at 1. unfold W_bind, get.
  unfold mbind at 1. unfold W_bind. by case_decide.
Qed.

Lemma scope_prologue_Ok (tile_size min_tile_size swap_size : Z) (s : wstate) :
  accepted tile_size min_tile_size →
  0 < width s ≤ int64_max → 1 ≤ swap_size → 0 ≤ height s ≤ int64_max →
  ∃ lh lw,
    possible_tile_sizes (height s) tile_size min_tile_size swap_size = Ok lh
    ∧ possible_tile_sizes (width s) tile_size min_tile_size swap_size = Ok lw
    ∧ scope_prologue tile_size min_tile_size swap_size s
      = (Ok tt, WState (height s) (width s) (max_h s) (max_w s)
                  (error_reported s) (reset_needed s) lh lw (log s)).
Proof.
  intros Hacc Hw Hk Hh. rewrite scope_prologue_eq. case_decide; [lia|].
  apply init_candidates_Ok; done || lia.
Qed.


Lemma single_candidate (dimension tile_size min_tile_size : Z) :
  accepted tile_size min_tile_size →
  1 ≤ dimension ≤ int64_max → dimension `mod` 8 = 0 →
  ∃ a, possible_tile_sizes dimension tile_size min_tile_size 1 = Ok [a].
Proof.
  intros Hacc Hd H8. rewrite possible_tile_sizes_Ok by (done || lia).
  set (cands := candidates dimension tile_size min_tile_size).
  pose proof (one_elem_of_candidates dimension tile_size min_tile_size
                (proj1 Hd) H8) as H1.
  pose proof (argsort_length (sort_keys dimension tile_size cands)) as Hlen.
  rewrite sort_keys_length in Hlen. fold cands in H1.
  destruct (argsort (sort_keys dimension tile_size cands)) as [|i pos].
  { destruct cands; [by apply elem_of_nil in H1|done]. }
  change (Z.to_nat 1) with 1%nat. simpl. by eexists.
Qed.

(** The scopes that the host shims build draw no random grid.  Whatever
    context [context_hypertile_vae] or [context_hypertile_unet] returns
    for a request whose height and width are positive multiples of 8 in
    the int64 range, with tile sizes in the options that the conversion
    to a scalar accepts,
    entering it does not raise; for a call of [split_attention] it leaves
    one candidate for the height and one for the width, since both shims
    ask for one option, and every call of the draw then returns that
    grid, whatever the random numbers. *)
Theorem shim_scope_grid_is_fixed (opts : options) (p : processing) (s s0 : wstate)
    (c : context) (msgs : list host_message) :
  context_hypertile_vae opts p s = (Returns c, msgs, s0)
  ∨ context_hypertile_unet opts p s = (Returns c, msgs, s0) →
  int64_min ≤ hypertile_vae_tile opts ≤ uint64_max →
  int64_min ≤ hypertile_unet_tile opts ≤ uint64_max →
  1 ≤ p_height p ≤ int64_max → p_height p `mod` 8 = 0 →
  1 ≤ p_width p ≤ int64_max → p_width p `mod` 8 = 0 →
  ∃ s1, enter_context c s0 = (Ok tt, s1)
    ∧ (c = NullContext ∧ s1 = s0
       ∨ ∃ a b, nhs s1 = [a] ∧ nws s1 = [b]
           ∧ ∀ r1 r2, make_ns r1 r2 s1 = (Ok (a, b), s1)).
Proof.
  intros Hshim Hvae Hunet Hh Hh8 Hw Hw8.
  assert (Hc : s0 = start_stage p s
    ∧ (c = NullContext
       ∨ ∃ layer tile, c = SplitAttention layer tile 128 1 0
           ∧ int64_min ≤ tile ≤ uint64_max)).
  { destruct Hshim as [Hshim|Hshim].
    - unfold context_hypertile_vae in Hshim.
      destruct (p_sd_model p) as [m|]; [|injection Hshim as <- _ <-; eauto].
      destruct (hypertile_vae_enabled opts); simpl in Hshim;
        [|injection Hshim as <- _ <-; eauto].
      destruct (if backend_is_diffusers opts then _ else _);
        injection Hshim as <- _ <-; eauto 10.
    - unfold context_hypertile_unet in Hshim.
      destruct (p_sd_model p) as [m|]; [|injection Hshim as <- _ <-; eauto].
      destruct (hypertile_unet_enabled opts); simpl in Hshim;
        [|injection Hshim as <- _ <-; eauto].
      destruct (if backend_is_diffusers opts then _ else _) as [[layer|]|];
        [injection Hshim as <- _ <-; eauto 10..|done]. }
  destruct Hc as [-> [->|(layer & tile & -> & Htile)]].
  { eexists. split; [done|]. by left. }
  simpl.
  assert (Hacc : accepted tile 128) by (split; [unfold int64_min; lia|done]).
  destruct (single_candidate (p_height p) tile 128 Hacc Hh Hh8) as [a Ha].
  destruct (single_candidate (p_width p) tile 128 Hacc Hw Hw8) as [b Hb].
  destruct (scope_prologue_Ok tile 128 1 (start_stage p s)) as (lh & lw & Hlh & Hlw & ->);
    [done|simpl; lia..|].
  simpl in Hlh, Hlw. rewrite Ha in Hlh. rewrite Hb in Hlw.
  injection Hlh as <-. injection Hlw as <-.
  eexists. split; [done|]. right. exists a, b. split; [done|]. split; [done|].
  intros r1 r2. unfold start_stage.
  cbn [height width max_h max_w error_reported reset_needed nhs nws log].
  destruct (make_ns_Ok r1 r2
              (WState (p_height p) (p_width p) 0 0 false (reset_needed s) [a] [b] (log s)))
    as (nh & nw & -> & Hnh & Hnw); [done..|].
  simpl in Hnh, Hnw. apply list_elem_of_singleton in Hnh, Hnw. by subst.
Qed.
End scope_entry.

Section new_pass.
Context `{ArgSort}.
Variables (tile_size min_tile_size swap_size : Z).
Hypothesis Hacc : accepted tile_size min_tile_size.

Lemma track_size_reset (h w : Z) (s : wstate) :
  reset_needed s = true → 1 ≤ swap_size →
  0 ≤ height s ≤ int64_max → 0 ≤ width s ≤ int64_max →
  ∃ lh lw,
    possible_tile_sizes (height s) tile_size min_tile_size swap_size = Ok lh
    ∧ possible_tile_sizes (width s) tile_size min_tile_size swap_size = Ok lw
    ∧ track_size tile_size min_tile_size swap_size h w s
      = (Ok tt, WState (height s) (width s) (height s) (width s)
                  (error_reported s) false lh lw (log s)).
Proof.
  intros Hr Hk Hh Hw.
  destruct (init_candidates_Ok tile_size min_tile_size swap_size s Hacc Hh Hw Hk)
    as (lh & lw & Hlh & Hlw & Hinit).
  exists lh, lw. split; [done|]. split; [done|].
  unfold track_size. unfold mbind at 1. unfold W_bind, get. rewrite Hr.
  unfold init_candidates in Hinit.
  unfold mbind at 1. unfold W_bind. unfold mbind at 1 in Hinit. unfold W_bind in Hinit.
  destruct (reset_nhs tile_size min_tile_size swap_size s) as [[[]|e] sa]; [|done].
  unfold mbind, W_bind, modify. rewrite Hinit. done.
Qed.

(** In a scope whose scalars the conversion accepts, the first
    flattened-sequence call after [hypertile_set] recomputes
    the candidates for the height and the width of the request, whatever
    the stage of the call, and sets the largest stage seen to the size of
    the request in pixels; after it, a call on a stage that is not larger
    than that size changes nothing. *)
Theorem track_size_new_pass (p : processing) (s : wstate) (h w : Z) :
  1 ≤ swap_size → 0 ≤ p_height p ≤ int64_max → 0 ≤ p_width p ≤ int64_max →
  ∃ lh lw s1,
    possible_tile_sizes (p_height p) tile_size min_tile_size swap_size = Ok lh
    ∧ possible_tile_sizes (p_width p) tile_size min_tile_size swap_size = Ok lw
    ∧ track_size tile_size min_tile_size swap_size h w (hypertile_set p s) = (Ok tt, s1)
    ∧ s1 = WState (p_height p) (p_width p) (p_height p) (p_width p)
             false false lh lw (log s)
    ∧ ∀ h' w', h' ≤ p_height p → w' ≤ p_width p →
        track_size tile_size min_tile_size swap_size h' w' s1 = (Ok tt, s1).
Proof.
  intros Hk Hh Hw.
  destruct (track_size_reset h w (hypertile_set p s)) as (lh & lw & Hlh & Hlw & Htrack);
    [done|done|done|done|].
  simpl in Hlh, Hlw, Htrack.
  exists lh, lw. eexists. split; [done|]. split; [done|]. split; [exact Htrack|].
  split; [done|].
  intros h' w' Hh' Hw'. unfold track_size, mbind, W_bind, get, when, modify. simpl.
  rewrite bool_decide_eq_false_2 by lia. unfold mret, W_ret. simpl.
  rewrite bool_decide_eq_false_2 by lia. done.
Qed.
End new_pass.

(** After [hypertile_set], in a scope whose scalars the conversion
    accepts, the first call on a flattened sequence whose
    stage is higher than an eighth of the requested height raises
    [ValueError]: the ratio [height // 8 // h] is 0 and [math.log] refuses
    it, outside the [try] statement. *)
Theorem wrapper_stage_above_pass `{ArgSort} {A : Type}
    (tile_size min_tile_size swap_size depth : Z)
    (stage_h stage_w round_log2 : Z → Z)
    (forward : tensor A → result (tensor A))
    (p : processing) (s : wstate) (r1 r2 hw : Z) (x : tensor A) :
  accepted tile_size min_tile_size →
  ndim x ≠ 4%nat → size x 1 = Ok hw →
  1 ≤ swap_size → 0 ≤ p_height p ≤ int64_max → 0 ≤ p_width p ≤ int64_max →
  nhs s ≠ [] → nws s ≠ [] →
  p_height p / 8 < stage_h hw →
  (wrapper tile_size min_tile_size swap_size depth stage_h stage_w round_log2
     forward r1 r2 x (hypertile_set p s)).1
  = Raise ValueError.
Proof.
  intros Hacc Hdim Hsize Hk Hh Hw Hnh Hnw Hstage.
  destruct (make_ns_Ok r1 r2 (hypertile_set p s)) as (nh & nw & Hns & _); [done..|].
  destruct (track_size_reset tile_size min_tile_size swap_size Hacc
              (stage_h hw) (stage_w hw) (hypertile_set p s))
    as (lh & lw & _ & _ & Htrack); [done..|].
  assert (0 ≤ p_height p / 8) by (apply Z.div_pos; lia).
  unfold wrapper. unfold mbind at 1. unfold W_bind. rewrite Hns.
  case_decide; [done|].
  unfold mbind at 1. unfold W_bind, lift. rewrite Hsize.
  unfold mbind at 1. unfold W_bind. rewrite Htrack.
  unfold mbind at 1. unfold W_bind, get.
  unfold mbind at 1. unfold W_bind, floordiv. simpl.
  case_decide; [lia|]. rewrite (Z.div_small (p_height p / 8) (stage_h hw)) by lia.
  unfold mbind at 1. unfold W_bind. by case_decide; [|lia].
Qed.

(** Tiling is exact for a computation that works element by element,
    through the whole flattened-sequence branch: when the stage that
    line 75 computes from the length of the sequence is its true height
    and width, the scalars of the scope are ones that the conversion
    accepts, and the state is one that the host shims or earlier calls
    leave, the wrapper returns what the wrapped [forward] returns on the
    whole input, whatever grid is drawn and whether the sequence is split
    or not, and the state is the one that the size tracking leaves. *)
Theorem wrapper_unet_pointwise `{ArgSort} {A : Type}
    (tile_size min_tile_size swap_size depth : Z)
    (stage_h stage_w round_log2 : Z → Z) (f : A → A)
    (r1 r2 : Z) (x : tensor A) (s : wstate) (b c : nat) (h w : Z) :
  accepted tile_size min_tile_size →
  shape x = [b; Z.to_nat (h * w); c] → well_formed x →
  stage_h (h * w) = h → stage_w (h * w) = w →
  nhs s ≠ [] → nws s ≠ [] →
  reset_needed s = false → 1 ≤ swap_size →
  1 ≤ h → 8 * h ≤ int64_max → 1 ≤ w → 8 * w ≤ int64_max →
  0 ≤ max_h s → 0 ≤ max_w s →
  max_h s = 0 ∨ height s = 8 * max_h s →
  max_w s = 0 ∨ width s = 8 * max_w s →
  ∃ s', track_size tile_size min_tile_size swap_size h w s = (Ok tt, s')
    ∧ wrapper tile_size min_tile_size swap_size depth stage_h stage_w round_log2
        (λ t, Ok (pointwise f t)) r1 r2 x s
      = (Ok (pointwise f x), s').
Proof.
  intros Hacc Hsh Hwf Hsth Hstw Hnhs Hnws Hr Hk Hh Hh8 Hw Hw8 Hmh Hmw Hsch Hscw.
  destruct (track_size_stage tile_size min_tile_size swap_size Hacc h w s)
    as (s' & Htrack & _ & _ & _ & _ & _ & Hratio & _); [done..|].
  exists s'. split; [done|].
  destruct (make_ns_Ok r1 r2 s Hnhs Hnws) as (nh & nw & Hns & _).
  unfold wrapper. unfold mbind at 1. unfold W_bind. rewrite Hns.
  case_decide as Hnd; [by unfold ndim in Hnd; rewrite Hsh in Hnd|].
  unfold mbind at 1. unfold W_bind, lift, size. rewrite Hsh.
  change ([b; Z.to_nat (h * w); c] !! 1%nat) with (Some (Z.to_nat (h * w))).
  cbv iota beta. rewrite Z2Nat.id by nia. rewrite Hsth, Hstw.
  unfold mbind at 1. unfold W_bind. rewrite Htrack.
  unfold mbind at 1. unfold W_bind, get.
  unfold mbind at 1. unfold W_bind, floordiv. case_decide; [lia|].
  unfold mbind at 1. unfold W_bind. case_decide; [lia|].
  set (down_ratio := height s' / 8 / h) in *.
  destruct (bool_decide (round_log2 down_ratio ≤ depth)
            && bool_decide (h `mod` Z.max 1 (nh / down_ratio) = 0)
            && bool_decide (w `mod` Z.max 1 (nw / down_ratio) = 0)
            && bool_decide (Z.max 1 (nh / down_ratio) * Z.max 1 (nw / down_ratio) > 1))
    eqn:Hsplit; [|done].
  apply andb_true_iff in Hsplit as [Hsplit _].
  apply andb_true_iff in Hsplit as [Hsplit Hdw].
  apply andb_true_iff in Hsplit as [_ Hdh].
  apply bool_decide_eq_true in Hdh, Hdw.
  apply (unet_try_pointwise_eq f x h w _ _ true s' b c); (done || lia).
Qed.

Lemma wrapper_unet_pointwise_witness :
  let x : tensor Z := Tensor [1; Z.to_nat (2 * 2); 1]%nat [10; 20; 30; 40] in
  let s := WState 16 16 0 0 false false [2] [2] [] in
  well_formed x
  ∧ ∃ s', @track_size stable_argsort 8 8 1 2 2 s = (Ok tt, s')
      ∧ @wrapper stable_argsort Z 8 8 1 0 (λ _, 2) (λ _, 2) (λ _, 0)
          (λ t, Ok (pointwise Z.succ t)) 0 0 x s
        = (Ok (pointwise Z.succ x), s').
Proof.
  split; [done|].
  apply (@wrapper_unet_pointwise stable_argsort Z 8 8 1 0 (λ _, 2) (λ _, 2) (λ _, 0)
           Z.succ 0 0 _ _ 1%nat 1%nat 2 2); try done; try in_range; by left.
Defined.

Lemma wrapper_4d_single_tile_witness :
  let x : tensor Z := Tensor [2; 1; 2; 2]%nat [1; 2; 3; 4; 5; 6; 7; 8] in
  let s := WState 8 8 0 0 false false [1] [1; 1] [] in
  @wrapper stable_argsort Z 8 8 2 0 (λ _, 2) (λ _, 2) (λ _, 0)
    batch_one_forward 5 9 x s
  = (batch_one_forward x, s).
Proof.
  apply (@wrapper_4d_single_tile stable_argsort Z 8 8 2 0 (λ _, 2) (λ _, 2) (λ _, 0)
           batch_one_forward 5 9); try done.
  - apply Forall_cons_2; [done|]. apply Forall_nil_2.
  - apply Forall_cons_2; [done|]. apply Forall_cons_2; [done|]. apply Forall_nil_2.
Defined.

Lemma wrapper_4d_indivisible_witness :
  let x : tensor Z := Tensor [1; 1; 3; 4]%nat [0; 1; 2; 3; 4; 5; 6; 7; 8; 9; 10; 11] in
  let s := WState 24 32 0 0 false false [2] [1] [] in
  @wrapper stable_argsort Z 8 8 1 0 (λ _, 2) (λ _, 2) (λ _, 0)
    (λ t, Ok t) 0 0 x s
  = (Raise EinopsError, s).
Proof.
  apply (@wrapper_4d_indivisible stable_argsort Z 8 8 1 0 (λ _, 2) (λ _, 2) (λ _, 0)
           (λ t, Ok t) 0 0 _ _ 1%nat 1%nat 3%nat 4%nat); try done.
  - apply Forall_cons_2; [split; [lia|done]|]. apply Forall_nil_2.
  - apply Forall_cons_2; [lia|]. apply Forall_nil_2.
Defined.

Lemma track_size_keeps_scale_witness :
  let s := WState 512 512 0 0 false false [2] [2] [] in
  ∃ s', @track_size stable_argsort 256 128 1 32 32 s = (Ok tt, s')
    ∧ max_h s' = 32 ∧ height s' = 256 ∧ 1 ≤ height s' / 8 / 32.
Proof.
  intros s.
  destruct (@track_size_keeps_scale stable_argsort 256 128 1 ltac:(in_range) 32 32 s)
    as (s' & Htrack & _ & Hmh & _ & Hh & _ & Hratio & _);
    [done|lia|lia|in_range|lia|in_range|simpl; lia|simpl; lia|by left|by left|].
  exists s'. split; [done|]. split; [by rewrite Hmh|]. split; [|done].
  rewrite Hh, Hmh. done.
Defined.

Lemma shim_scope_grid_is_fixed_witness :
  let opts := Options true true 256 256 true in
  let p := Processing 512 768 (Some (SdModel (Has demo_layer) Missing Missing Missing)) in
  let s := WState 0 0 0 0 true false [] [] [] in
  let c := SplitAttention demo_layer 256 128 1 0 in
  (context_hypertile_vae opts p s).1.1 = Returns c
  ∧ ∃ s1, @enter_context stable_argsort c (start_stage p s) = (Ok tt, s1)
      ∧ (c = NullContext ∧ s1 = start_stage p s
         ∨ ∃ a b, nhs s1 = [a] ∧ nws s1 = [b]
             ∧ ∀ r1 r2, make_ns r1 r2 s1 = (Ok (a, b), s1)).
Proof.
  intros opts p s c. split; [done|].
  eapply (@shim_scope_grid_is_fixed stable_argsort opts p s);
    [left; reflexivity|in_range|in_range|in_range|done|in_range|done].
Defined.

Lemma track_size_new_pass_witness :
  let p := Processing 512 768 None in
  let s := WState 1024 1024 64 64 true false [4] [4] [] in
  ∃ lh lw s1,
    @possible_tile_sizes stable_argsort 512 256 128 1 = Ok lh
    ∧ @possible_tile_sizes stable_argsort 768 256 128 1 = Ok lw
    ∧ @track_size stable_argsort 256 128 1 32 48 (hypertile_set p s) = (Ok tt, s1)
    ∧ s1 = WState 512 768 512 768 false false lh lw []
    ∧ ∀ h' w', h' ≤ 512 → w' ≤ 768 →
        @track_size stable_argsort 256 128 1 h' w' s1 = (Ok tt, s1).
Proof.
  intros p s.
  apply (@track_size_new_pass stable_argsort 256 128 1 ltac:(in_range) p s 32 48);
    in_range.
Defined.

Lemma wrapper_stage_above_pass_witness :
  let p := Processing 8 8 None in
  let s := WState 16 16 2 2 false false [1] [1] [] in
  (@wrapper stable_argsort Z 8 8 1 0 (λ _, 2) (λ _, 2) (λ _, 0)
     (λ t, Ok t) 0 0 four_tokens (hypertile_set p s)).1
  = Raise ValueError.
Proof.
  apply (@wrapper_stage_above_pass stable_argsort Z 8 8 1 0 (λ _, 2) (λ _, 2) (λ _, 0)
           (λ t, Ok t) (Processing 8 8 None) _ 0 0 4); try done; in_range.
Defined.

(** * Further properties of the scoped patching *)

Lemma named_modules_name_unique (layer : module_tree) (name name' : string) (id : nat) :
  (name, id) ∈ named_modules layer → (name', id) ∈ named_modules layer → name = name'.
Proof.
  pose proof (named_modules_NoDup layer) as Hnd. revert Hnd.
  induction (named_modules layer) as [|[a0 c0] l IH]; simpl.
  { by intros _ ?%elem_of_nil. }
  intros [Hnotin Hnd]%NoDup_cons.
  intros [[= -> ->]|H1]%elem_of_cons [[= ->]|H2]%elem_of_cons; [done| | |by apply IH].
  - destruct Hnotin. apply list_elem_of_fmap. by exists (name', c0).
  - subst. destruct Hnotin. apply list_elem_of_fmap. by exists (name, c0).
Qed.

Lemma patched_iff (layer : module_tree) (mods : gmap nat module_obj) (id : nat) :
  Patched id ∈ trace (enter_scope layer mods)
  ↔ ∃ name, (name, id) ∈ named_modules layer ∧ will_patch mods (name, id) = true.
Proof.
  destruct (enter_scope_spec layer mods) as (Htr & _ & _). rewrite Htr.
  rewrite list_elem_of_fmap. split.
  - intros ([name id'] & [= <-] & [Hf Hit]%list_elem_of_filter).
    exists name. split; [done|]. by apply Is_true_true.
  - intros (name & Hit & Hf). exists (name, id). split; [done|].
    apply list_elem_of_filter. split; [by apply Is_true_true|done].
Qed.

(** Lines 115-120 patch exactly the modules that [named_modules()] lists
    under a name that does not end in [attn2] or [attn_2] and whose class
    is one of the three attention classes; a patched module holds the
    wrapper of its former handle and that handle as [_original_forward],
    and every other module of the store is left as it was. *)
Theorem enter_scope_exact (layer : module_tree) (mods : gmap nat module_obj) (id : nat) :
  let s1 := enter_scope layer mods in
  (Patched id ∈ trace s1
   ↔ ∃ name m, (name, id) ∈ named_modules layer ∧ mods !! id = Some m
       ∧ is_attention m = true ∧ is_cross_attention name = false)
  ∧ (Patched id ∈ trace s1 →
     ∃ m, mods !! id = Some m
       ∧ modules s1 !! id
         = Some (Module (qualname m) (Wrapper (forward m)) (Some (forward m))))
  ∧ (Patched id ∉ trace s1 → modules s1 !! id = mods !! id).
Proof.
  simpl. destruct (enter_scope_spec layer mods) as (_ & Hother & Hin).
  split; [|split].
  - rewrite patched_iff. split.
    + intros (name & Hit & Hf). unfold will_patch in Hf. simpl in Hf.
      destruct (mods !! id) as [m|] eqn:Hm; [|done].
      apply andb_true_iff in Hf as [Ha Hc]. apply negb_true_iff in Hc. eauto 10.
    + intros (name & m & Hit & Hm & Ha & Hc). exists name. split; [done|].
      unfold will_patch. simpl. by rewrite Hm, Ha, Hc.
  - intros Hp. destruct (enter_scope_patched _ _ _ Hp) as (name & m0 & _ & Hm0 & Hm1).
    eauto.
  - intros Hnp. destruct (decide (id ∈ (named_modules layer).*2)) as [Hid|Hid];
      [|by apply Hother].
    apply list_elem_of_fmap in Hid as ([name id'] & -> & Hit).
    specialize (Hin _ Hit). simpl in *. rewrite Hin.
    destruct (will_patch mods (name, id')) eqn:Hf.
    + destruct Hnp. apply patched_iff. eauto.
    + by destruct (mods !! id').
Qed.

(** The [finally] suite restores from any [_original_forward] attribute
    that it finds, even one that this scope has not set: a module that
    [named_modules()] lists, that the scope does not patch and that
    carries the attribute before the scope has, after the scope, the
    handle of that attribute as [forward] and the attribute no more; the
    region is one that leaves this module as it is. *)
Theorem split_attention_restores_stale (layer : module_tree) (body : region)
    (mods : gmap nat module_obj) (name : string) (id : nat) (m : module_obj)
    (f : handle) :
  (name, id) ∈ named_modules layer → mods !! id = Some m →
  original_forward m = Some f →
  is_attention m = false ∨ is_cross_attention name = true →
  (body (modules (enter_scope layer mods))).2 !! id = Some m →
  let s3 := (split_attention layer body mods).2 in
  (Patched id ∉ trace s3)
  ∧ Restored id ∈ trace s3
  ∧ modules s3 !! id = Some (Module (qualname m) f None).
Proof.
  intros Hit Hm Hsaved Hskip Hbody. simpl.
  assert (Hnp : will_patch mods (name, id) = false).
  { unfold will_patch. simpl. rewrite Hm.
    destruct Hskip as [->| ->]; [done|]. by rewrite andb_false_r. }
  assert (Hnot : Patched id ∉ trace (enter_scope layer mods)).
  { intros (name' & Hit' & Hf)%patched_iff.
    rewrite (named_modules_name_unique _ _ _ _ Hit' Hit) in Hf. congruence. }
  rewrite split_attention_eq. simpl.
  destruct (body (modules (enter_scope layer mods))) as [r mods2]. simpl in *.
  destruct (exit_scope_spec layer (ScopeState mods2 (trace (enter_scope layer mods))))
    as (Htr & _ & Hin). simpl in *.
  assert (Hfire : has_saved mods2 (name, id) = true).
  { unfold has_saved. simpl. rewrite Hbody, Hsaved. done. }
  split; [|split].
  - rewrite Htr. intros [?|(? & ? & _)%list_elem_of_fmap]%elem_of_app; done.
  - rewrite Htr. apply elem_of_app. right.
    apply list_elem_of_fmap. exists (name, id). split; [done|].
    apply list_elem_of_filter. split; [by rewrite Hfire|done].
  - specialize (Hin _ Hit). simpl in Hin. rewrite Hin, Hfire, Hbody. simpl.
    unfold restored_obj. by rewrite Hsaved.
Qed.

Lemma reentering_region_eq (layer : module_tree) (mods : gmap nat module_obj) :
  reentering_region layer mods
  = (Returned,
     modules (exit_scope layer
                (ScopeState (modules (enter_scope layer mods))
                   (trace (enter_scope layer mods))))).
Proof. unfold reentering_region. by rewrite split_attention_eq. Qed.

(** Scopes do not nest on one network: when the region under the scope
    enters the scope again on the same network, the inner scope patches
    the patched modules once more, overwrites [_original_forward] with
    the outer wrapper and restores that wrapper; the outer [finally]
    suite then finds no attribute, so every module that the outer scope
    has patched still holds the wrapper of its former handle after both
    scopes have ended. *)
Theorem split_attention_reentered (layer : module_tree)
    (mods : gmap nat module_obj) (id : nat) :
  Patched id ∈ trace (enter_scope layer mods) →
  ∃ m0, mods !! id = Some m0
    ∧ modules (split_attention layer (reentering_region layer) mods).2 !! id
      = Some (Module (qualname m0) (Wrapper (forward m0)) None).
Proof.
  intros (name & Hit & Hf)%patched_iff.
  destruct (enter_scope_spec layer mods) as (_ & _ & Hin1).
  specialize (Hin1 _ Hit). simpl in Hin1. rewrite Hf in Hin1.
  unfold will_patch in Hf. simpl in Hf.
  destruct (mods !! id) as [m0|] eqn:Hm0; [|done]. simpl in Hin1.
  exists m0. split; [done|].
  rewrite split_attention_eq. cbv zeta. rewrite reentering_region_eq.
  set (mods1 := modules (enter_scope layer mods)) in *.
  destruct (enter_scope_spec layer mods1) as (_ & _ & Hin2).
  specialize (Hin2 _ Hit). simpl in Hin2.
  assert (Hf2 : will_patch mods1 (name, id) = true).
  { unfold will_patch. simpl. by rewrite Hin1. }
  rewrite Hf2, Hin1 in Hin2. simpl in Hin2.
  set (s2 := enter_scope layer mods1) in *.
  destruct (exit_scope_spec layer (ScopeState (modules s2) (trace s2)))
    as (_ & _ & Hin3).
  specialize (Hin3 _ Hit). simpl in Hin3.
  unfold has_saved in Hin3. simpl in Hin3. rewrite Hin2 in Hin3. simpl in Hin3.
  set (s3 := exit_scope layer (ScopeState (modules s2) (trace s2))) in *.
  destruct (exit_scope_spec layer (ScopeState (modules s3) (trace (enter_scope layer mods))))
    as (_ & _ & Hin4).
  specialize (Hin4 _ Hit). simpl in Hin4.
  unfold has_saved in Hin4. simpl in Hin4. rewrite Hin3 in Hin4. simpl in Hin4.
  simpl. exact Hin4.
Qed.

Lemma split_attention_restores_stale_witness :
  let stale := Module "Attention" (Wrapper (Native 13)) (Some (Native 13)) in
  let mods := <[3%nat := stale]> demo_modules in
  let s3 := (split_attention demo_layer raising_region mods).2 in
  is_cross_attention "down.attn2" = true
  ∧ (Patched 3%nat ∉ trace s3)
  ∧ Restored 3%nat ∈ trace s3
  ∧ modules s3 !! 3%nat = Some (Module "Attention" (Native 13) None).
Proof.
  intros stale mods s3. split; [done|].
  apply (split_attention_restores_stale demo_layer raising_region mods
           "down.attn2" 3%nat stale (Native 13)).
  - rewrite demo_named_modules. do 3 apply list_elem_of_further. apply list_elem_of_here.
  - reflexivity.
  - reflexivity.
  - by right.
  - vm_compute. reflexivity.
Defined.

Lemma split_attention_reentered_witness :
  ∃ m0, demo_modules !! 2%nat = Some m0
    ∧ modules (split_attention demo_layer (reentering_region demo_layer) demo_modules).2
        !! 2%nat
      = Some (Module (qualname m0) (Wrapper (forward m0)) None).
Proof.
  apply (split_attention_reentered demo_layer demo_modules 2%nat).
  replace (trace (enter_scope demo_layer demo_modules))
    with [Patched 2%nat; Patched 5%nat] by (vm_compute; reflexivity).
  apply list_elem_of_here.
Defined.

(** * The outcomes of the host shims *)


(** * The scope on the module objects with the identity of their attributes *)

Lemma getattr_forward_next (m : py_module) (next : nat) :
  (next ≤ (getattr_forward m next).2)%nat.
Proof. unfold getattr_forward. destruct (dict_forward m); simpl; lia. Qed.

(** What [module.forward] evaluates to: the entry of the instance
    dictionary, or a new bound method of the method of the class. *)
Lemma getattr_forward_spec (m : py_module) (next : nat) :
  handle_of (getattr_forward m next).1 = forward (module_of m)
  ∧ (∀ c, dict_forward m = Some c → (getattr_forward m next).1 = c)
  ∧ (dict_forward m = None →
     (getattr_forward m next).1 = BoundMethod next (class_forward m)).
Proof.
  unfold getattr_forward, module_of.
  destruct (dict_forward m); simpl; (split; [done|]); split; congruence.
Qed.

Lemma py_patched_next (m : py_module) (next : nat) :
  (next ≤ (py_patched next m).2)%nat.
Proof.
  unfold py_patched, getattr_forward. simpl.
  destruct (dict_forward m); simpl; lia.
Qed.

Lemma py_patched_saved (m : py_module) (next : nat) :
  dict_original_forward (py_patched next m).1 = Some (getattr_forward m next).1.
Proof.
  unfold py_patched. destruct (getattr_forward m next) as [saved next1]. simpl.
  by destruct (getattr_forward _ next1).
Qed.


Lemma py_restored_abstract (m : py_module) :
  module_of (py_restored m) = restored_obj (module_of m).
Proof.
  destruct m as [q cf df [c|]]; reflexivity.
Qed.

Lemma py_patch_module_other (s : py_state) (item : string * nat) (id : nat) :
  id ≠ item.2 → py_modules (py_patch_module s item) !! id = py_modules s !! id.
Proof.
  intros Hne. destruct item as [name id']. unfold py_patch_module. simpl in *.
  destruct (py_modules s !! id') as [m|]; [|done].
  destruct (py_is_attention m), (is_cross_attention name); simpl; try done.
  destruct (py_patched (next_addr s) m). simpl. by rewrite lookup_insert_ne.
Qed.

Lemma py_patch_module_self (s : py_state) (item : string * nat) :
  py_modules (py_patch_module s item) !! item.2
  = (if py_will_patch (py_modules s) item
     then λ m, (py_patched (next_addr s) m).1 else id) <$> py_modules s !! item.2.
Proof.
  destruct item as [name id']. unfold py_patch_module, py_will_patch. simpl.
  destruct (py_modules s !! id') as [m|] eqn:Hm; [|by rewrite Hm].
  destruct (py_is_attention m), (is_cross_attention name); simpl; rewrite ?Hm; try done.
  destruct (py_patched (next_addr s) m). simpl. by rewrite lookup_insert_eq.
Qed.

Lemma py_patch_module_trace (s : py_state) (item : string * nat) :
  py_trace (py_patch_module s item)
  = py_trace s ++ (if py_will_patch (py_modules s) item then [Patched item.2] else []).
Proof.
  destruct item as [name id']. unfold py_patch_module, py_will_patch. simpl.
  destruct (py_modules s !! id') as [m|]; [|by rewrite app_nil_r].
  destruct (py_is_attention m), (is_cross_attention name); simpl;
    rewrite ?app_nil_r; try done.
  by destruct (py_patched (next_addr s) m).
Qed.

Lemma py_patch_module_next (s : py_state) (item : string * nat) :
  (next_addr s ≤ next_addr (py_patch_module s item))%nat.
Proof.
  destruct item as [name id']. unfold py_patch_module.
  destruct (py_modules s !! id') as [m|]; [|done].
  destruct (py_is_attention m), (is_cross_attention name); simpl; try done.
  pose proof (py_patched_next m (next_addr s)).
  by destruct (py_patched (next_addr s) m).
Qed.

Lemma py_will_patch_ext (mods mods' : gmap nat py_module) (item : string * nat) :
  mods' !! item.2 = mods !! item.2 → py_will_patch mods' item = py_will_patch mods item.
Proof. unfold py_will_patch. by intros ->. Qed.

Lemma py_restore_module_other (s : py_state) (item : string * nat) (id : nat) :
  id ≠ item.2 → py_modules (py_restore_module s item) !! id = py_modules s !! id.
Proof.
  intros Hne. destruct item as [name id']. unfold py_restore_module. simpl in *.
  destruct (py_modules s !! id') as [m|]; [|done].
  destruct (dict_original_forward m); simpl; [|done].
  by rewrite lookup_insert_ne.
Qed.

Lemma py_restore_module_self (s : py_state) (item : string * nat) :
  py_modules (py_restore_module s item) !! item.2
  = (if py_has_saved (py_modules s) item then λ m, py_restored m else id)
    <$> py_modules s !! item.2.
Proof.
  destruct item as [name id']. unfold py_restore_module, py_has_saved, py_restored. simpl.
  destruct (py_modules s !! id') as [m|] eqn:Hm; [|by rewrite Hm].
  destruct (dict_original_forward m) as [c|] eqn:Hc; simpl; rewrite ?Hm; simpl.
  - rewrite lookup_insert_eq. by rewrite Hc.
  - done.
Qed.

Lemma py_restore_module_trace (s : py_state) (item : string * nat) :
  py_trace (py_restore_module s item)
  = py_trace s ++ (if py_has_saved (py_modules s) item then [Restored item.2] else []).
Proof.
  destruct item as [name id']. unfold py_restore_module, py_has_saved. simpl.
  destruct (py_modules s !! id') as [m|]; [|by rewrite app_nil_r].
  destruct (dict_original_forward m); simpl; by rewrite ?app_nil_r.
Qed.

Lemma py_restore_module_next (s : py_state) (item : string * nat) :
  (next_addr s ≤ next_addr (py_restore_module s item))%nat.
Proof.
  destruct item as [name id']. unfold py_restore_module.
  destruct (py_modules s !! id') as [m|]; [|done].
  by destruct (dict_original_forward m).
Qed.

Lemma py_has_saved_ext (mods mods' : gmap nat py_module) (item : string * nat) :
  mods' !! item.2 = mods !! item.2 → py_has_saved mods' item = py_has_saved mods item.
Proof. unfold py_has_saved. by intros ->. Qed.

(** A loop over the items of [named_modules()] whose step reads and
    writes the object of its item only, and builds objects at the free
    addresses: every object is seen in the state the loop started from,
    and what is built for it is built at an address that was free when
    the loop started. *)
Section py_loop_over_items.
Variable step : py_state → string * nat → py_state.
Variable fires : gmap nat py_module → string * nat → bool.
Variable update : nat → py_module → py_module.
Variable mark : nat → event.
Hypothesis step_other : ∀ s it id,
  id ≠ it.2 → py_modules (step s it) !! id = py_modules s !! id.
Hypothesis step_self : ∀ s it,
  py_modules (step s it) !! it.2
  = (if fires (py_modules s) it then update (next_addr s) else id)
    <$> py_modules s !! it.2.
Hypothesis step_trace : ∀ s it,
  py_trace (step s it)
  = py_trace s ++ (if fires (py_modules s) it then [mark it.2] else []).
Hypothesis step_next : ∀ s it, (next_addr s ≤ next_addr (step s it))%nat.
Hypothesis fires_ext : ∀ mods mods' it,
  mods' !! it.2 = mods !! it.2 → fires mods' it = fires mods it.

Lemma py_loop_over_items_spec (items : list (string * nat)) (s : py_state) :
  NoDup (items.*2) →
  let s' := foldl step s items in
  py_trace s'
  = py_trace s ++ (mark ∘ snd <$> filter (λ it, fires (py_modules s) it) items)
  ∧ (next_addr s ≤ next_addr s')%nat
  ∧ (∀ id, id ∉ (items.*2) → py_modules s' !! id = py_modules s !! id)
  ∧ (∀ it, it ∈ items →
       ∃ a, (next_addr s ≤ a)%nat
         ∧ py_modules s' !! it.2
           = (if fires (py_modules s) it then update a else id) <$> py_modules s !! it.2).
Proof.
  revert s. induction items as [|it items IH]; intros s Hnd; simpl.
  { split; [by rewrite app_nil_r|]. split; [done|]. split; [done|].
    intros it Hit. by apply elem_of_nil in Hit. }
  apply NoDup_cons in Hnd as [Hit Hnd].
  destruct (IH (step s it) Hnd) as (Htr & Hnext & Hother & Hin).
  assert (Hne : ∀ it', it' ∈ items → it'.2 ≠ it.2).
  { intros it' Hit' Heq. apply Hit. rewrite <- Heq. apply list_elem_of_fmap. eauto. }
  assert (Hsame : ∀ it', it' ∈ items →
    fires (py_modules (step s it)) it' = fires (py_modules s) it').
  { intros it' Hit'. apply fires_ext, step_other. auto. }
  pose proof (step_next s it) as Hstep.
  split; [|split; [|split]].
  - rewrite Htr, step_trace, <- app_assoc. f_equal.
    rewrite (filter_ext_elem_of _ (λ it', fires (py_modules s) it') items)
      by (intros it' Hit'; by rewrite Hsame).
    rewrite filter_cons. destruct (fires (py_modules s) it); by case_decide.
  - lia.
  - intros id' Hid. csimpl in Hid. apply not_elem_of_cons in Hid as [Hne' Hid].
    rewrite Hother by done. by apply step_other.
  - intros it' [->|Hit']%elem_of_cons.
    + exists (next_addr s). split; [done|]. rewrite Hother by done. apply step_self.
    + destruct (Hin it' Hit') as (a & Ha & Hlook). exists a. split; [lia|].
      rewrite Hlook, Hsame by done. f_equal. apply step_other. auto.
Qed.
End py_loop_over_items.

Lemma py_enter_scope_spec (layer : module_tree) (mods : gmap nat py_module) (next : nat) :
  let s1 := py_enter_scope layer mods next in
  py_trace s1
  = Patched ∘ snd <$> filter (λ it, py_will_patch mods it) (named_modules layer)
  ∧ (next ≤ next_addr s1)%nat
  ∧ (∀ id, id ∉ ((named_modules layer).*2) → py_modules s1 !! id = mods !! id)
  ∧ (∀ it, it ∈ named_modules layer →
       ∃ a, (next ≤ a)%nat
         ∧ py_modules s1 !! it.2
           = (if py_will_patch mods it then λ m, (py_patched a m).1 else id)
             <$> mods !! it.2).
Proof.
  apply (py_loop_over_items_spec py_patch_module py_will_patch
           (λ a m, (py_patched a m).1) Patched
           py_patch_module_other py_patch_module_self py_patch_module_trace
           py_patch_module_next py_will_patch_ext
           (named_modules layer) (PyState mods next [])),
    named_modules_NoDup.
Qed.

Lemma py_exit_scope_spec (layer : module_tree) (s : py_state) :
  let s' := py_exit_scope layer s in
  py_trace s'
  = py_trace s ++ (Restored ∘ snd <$> filter (λ it, py_has_saved (py_modules s) it)
                                        (named_modules layer))
  ∧ (∀ id, id ∉ ((named_modules layer).*2) → py_modules s' !! id = py_modules s !! id)
  ∧ (∀ it, it ∈ named_modules layer →
       py_modules s' !! it.2
       = (if py_has_saved (py_modules s) it then py_restored else id)
         <$> py_modules s !! it.2).
Proof.
  destruct (py_loop_over_items_spec py_restore_module py_has_saved
              (λ _ m, py_restored m) Restored
              py_restore_module_other py_restore_module_self py_restore_module_trace
              py_restore_module_next py_has_saved_ext
              (named_modules layer) s (named_modules_NoDup layer))
    as (Htr & _ & Hother & Hin).
  split; [done|]. split; [done|].
  intros it Hit. destruct (Hin it Hit) as (a & _ & Hlook). exact Hlook.
Qed.

Lemma py_split_attention_eq (layer : module_tree) (body : py_region)
    (mods : gmap nat py_module) (next : nat) :
  py_split_attention layer body mods next
  = ((body (py_modules (py_enter_scope layer mods next))
        (next_addr (py_enter_scope layer mods next))).1.1,
     py_exit_scope layer
       (PyState
          (body (py_modules (py_enter_scope layer mods next))
             (next_addr (py_enter_scope layer mods next))).1.2
          (body (py_modules (py_enter_scope layer mods next))
             (next_addr (py_enter_scope layer mods next))).2
          (py_trace (py_enter_scope layer mods next)))).
Proof.
  unfold py_split_attention, try_finally, py_enter_scope. simpl.
  by destruct (body _ _) as [[r mods2] next2].
Qed.

Lemma py_patched_iff (layer : module_tree) (mods : gmap nat py_module) (next id : nat) :
  Patched id ∈ py_trace (py_enter_scope layer mods next)
  ↔ ∃ name, (name, id) ∈ named_modules layer ∧ py_will_patch mods (name, id) = true.
Proof.
  destruct (py_enter_scope_spec layer mods next) as (Htr & _ & _). rewrite Htr.
  rewrite list_elem_of_fmap. split.
  - intros ([name id'] & [= <-] & [Hf Hit]%list_elem_of_filter).
    exists name. split; [done|]. by apply Is_true_true.
  - intros (name & Hit & Hf). exists (name, id). split; [done|].
    apply list_elem_of_filter. split; [by apply Is_true_true|done].
Qed.

(** ** The store up to addresses *)








(** ** Restoration *)

Lemma py_raising_region_keeps_saved : py_keeps_saved py_raising_region.
Proof. intros mods next id m Hm. by exists m. Qed.

(** What the [finally] suite leaves of a module that the scope has
    patched, after a region that keeps the saved entries: the entry
    [forward] holds the object that line 119 has saved. *)
Lemma py_exit_scope_patched (layer : module_tree) (body : py_region)
    (mods : gmap nat py_module) (next id : nat) :
  py_keeps_saved body →
  Patched id ∈ py_trace (py_enter_scope layer mods next) →
  ∃ m0 m2 a, mods !! id = Some m0 ∧ (next ≤ a)%nat
    ∧ py_modules (py_split_attention layer body mods next).2 !! id
      = Some (PyModule (py_qualname m2) (class_forward m2)
                (Some (getattr_forward m0 a).1) None).
Proof.
  intros Hbody (name & Hit & Hf)%py_patched_iff.
  destruct (py_enter_scope_spec layer mods next) as (_ & _ & _ & Hin1).
  destruct (Hin1 _ Hit) as (a & Ha & Hm1). simpl in Hm1. rewrite Hf in Hm1.
  unfold py_will_patch in Hf. simpl in Hf.
  destruct (mods !! id) as [m0|] eqn:Hm0; [|done]. simpl in Hm1.
  rewrite py_split_attention_eq. simpl.
  set (s1 := py_enter_scope layer mods next) in *.
  destruct (Hbody _ (next_addr s1) _ _ Hm1) as (m2 & Hm2 & Hsaved).
  rewrite py_patched_saved in Hsaved.
  destruct (py_exit_scope_spec layer
              (PyState (body (py_modules s1) (next_addr s1)).1.2
                 (body (py_modules s1) (next_addr s1)).2 (py_trace s1)))
    as (_ & _ & Hin3).
  specialize (Hin3 _ Hit). simpl in Hin3.
  unfold py_has_saved in Hin3. simpl in Hin3. rewrite Hm2, Hsaved in Hin3.
  simpl in Hin3. unfold py_restored in Hin3. rewrite Hsaved in Hin3.
  exists m0, m2, a. split; [done|]. split; [done|]. exact Hin3.
Qed.

(** C1, amended: after the scope, however the region under it ended,
    every module that the scope has patched has no [_original_forward]
    attribute, and its [forward] attribute is an entry of its instance
    dictionary that is equal, in the sense of Python's [==], to what the
    attribute was before the scope: the same object when [forward] was an
    entry of the instance dictionary before the scope, and otherwise a
    bound method of the same method of the class, which line 119 has
    built while the scope was entered.  The region is one that keeps the
    saved entries. *)
Theorem py_split_attention_restores (layer : module_tree) (body : py_region)
    (mods : gmap nat py_module) (next : nat) :
  py_keeps_saved body →
  let s1 := py_enter_scope layer mods next in
  let s3 := (py_split_attention layer body mods next).2 in
  (py_split_attention layer body mods next).1
  = (body (py_modules s1) (next_addr s1)).1.1
  ∧ ∀ id, Patched id ∈ py_trace s1 →
      ∃ m0 m3 c, mods !! id = Some m0
        ∧ py_modules s3 !! id = Some m3
        ∧ dict_original_forward m3 = None
        ∧ dict_forward m3 = Some c
        ∧ handle_of c = forward (module_of m0)
        ∧ (∀ c0, dict_forward m0 = Some c0 → c = c0)
        ∧ (dict_forward m0 = None →
           ∃ a, (next ≤ a)%nat ∧ c = BoundMethod a (class_forward m0)).
Proof.
  intros Hbody. simpl. split; [by rewrite py_split_attention_eq|].
  intros id Hpatched.
  destruct (py_exit_scope_patched layer body mods next id Hbody Hpatched)
    as (m0 & m2 & a & Hm0 & Ha & Hm3).
  destruct (getattr_forward_spec m0 a) as (Heq & Hsame & Hnew).
  eexists m0, _, _. split; [done|]. split; [exact Hm3|]. simpl.
  split; [done|]. split; [done|]. split; [done|]. split; [done|].
  intros Hnone. exists a. split; [done|]. by apply Hnew.
Qed.

Lemma py_split_attention_restores_witness :
  py_keeps_saved py_raising_region
  ∧ (py_split_attention demo_layer py_raising_region py_demo_modules 0).1
    = (py_raising_region
         (py_modules (py_enter_scope demo_layer py_demo_modules 0))
         (next_addr (py_enter_scope demo_layer py_demo_modules 0))).1.1
  ∧ ∀ id, Patched id ∈ py_trace (py_enter_scope demo_layer py_demo_modules 0) →
      ∃ m0 m3 c, py_demo_modules !! id = Some m0
        ∧ py_modules (py_split_attention demo_layer py_raising_region
                        py_demo_modules 0).2 !! id = Some m3
        ∧ dict_original_forward m3 = None
        ∧ dict_forward m3 = Some c
        ∧ handle_of c = forward (module_of m0)
        ∧ (∀ c0, dict_forward m0 = Some c0 → c = c0)
        ∧ (dict_forward m0 = None →
           ∃ a, (0 ≤ a)%nat ∧ c = BoundMethod a (class_forward m0)).
Proof.
  split; [exact py_raising_region_keeps_saved|].
  apply (py_split_attention_restores demo_layer py_raising_region py_demo_modules 0
           py_raising_region_keeps_saved).
Defined.

(** C1 as stated fails on a module whose [forward] is the method of its
    class, as it is on every module that nothing has patched before.
    The handle read before the scope is a bound method object; the scope
    patches the module, and after it the attribute is another bound method
    object, the one that line 119 has built, held by an entry [forward]
    of the instance dictionary that was not there before the scope.  The
    two are equal in the sense of [==], and they are not the same
    object. *)
Lemma split_attention_not_identity_equal :
  let m := PyModule "Attention" 12 None None in
  let pre := getattr_forward m 0 in
  let s3 := (py_split_attention demo_layer py_raising_region py_demo_modules pre.2).2 in
  py_demo_modules !! 2%nat = Some m
  ∧ Patched 2%nat ∈ py_trace s3
  ∧ pre.1 = BoundMethod 0 12
  ∧ py_modules s3 !! 2%nat
    = Some (PyModule "Attention" 12 (Some (BoundMethod 1 12)) None)
  ∧ handle_of (BoundMethod 1 12) = handle_of pre.1
  ∧ BoundMethod 1 12 ≠ pre.1
  ∧ dict_forward m = None.
Proof.
  simpl. split; [reflexivity|]. split.
  { replace (py_trace _) with [Patched 2; Patched 5; Restored 2; Restored 5]%nat
      by (vm_compute; reflexivity).
    apply list_elem_of_here. }
  split; [reflexivity|]. split; [vm_compute; reflexivity|].
  split; [reflexivity|]. split; [|reflexivity]. by intros [=].
Qed.

(** The scope is a round trip on the store up to the new entries.  When
    no module carries an [_original_forward] attribute before the scope
    and the region under it leaves the module objects as they are, then
    after the scope, however the region ended: the store seen up to
    addresses is the store before the scope; a module that the scope has
    not patched is the object it was; and a module that the scope has
    patched is the object it was when [forward] was an entry of its
    instance dictionary, and otherwise is that object with one new entry
    [forward] in the instance dictionary, a bound method of the method of
    the class that was built while the scope was entered. *)
Theorem py_split_attention_round_trip (layer : module_tree) (body : py_region)
    (mods : gmap nat py_module) (next : nat) :
  (∀ id m, mods !! id = Some m → dict_original_forward m = None) →
  (body (py_modules (py_enter_scope layer mods next))
     (next_addr (py_enter_scope layer mods next))).1.2
  = py_modules (py_enter_scope layer mods next) →
  let s1 := py_enter_scope layer mods next in
  let s3 := (py_split_attention layer body mods next).2 in
  module_of <$> py_modules s3 = module_of <$> mods
  ∧ ∀ id m0, mods !! id = Some m0 →
      (Patched id ∉ py_trace s1 → py_modules s3 !! id = Some m0)
      ∧ (Patched id ∈ py_trace s1 →
         (∀ c0, dict_forward m0 = Some c0 → py_modules s3 !! id = Some m0)
         ∧ (dict_forward m0 = None →
            ∃ a, (next ≤ a)%nat
              ∧ py_modules s3 !! id
                = Some (PyModule (py_qualname m0) (class_forward m0)
                          (Some (BoundMethod a (class_forward m0))) None))).
Proof.
  intros Hclean Hbody. simpl.
  destruct (py_enter_scope_spec layer mods next) as (_ & _ & Hother1 & Hin1).
  rewrite py_split_attention_eq. simpl. rewrite Hbody.
  set (s1 := py_enter_scope layer mods next) in *.
  destruct (py_exit_scope_spec layer
              (PyState (py_modules s1)
                 (body (py_modules s1) (next_addr s1)).2 (py_trace s1)))
    as (_ & Hother3 & Hin3).
  simpl in Hother3, Hin3.
  set (s3 := py_exit_scope layer _) in *.
  assert (Hobj : ∀ id m0, mods !! id = Some m0 →
    (Patched id ∉ py_trace s1 → py_modules s3 !! id = Some m0)
    ∧ (Patched id ∈ py_trace s1 →
       ∃ a, (next ≤ a)%nat
         ∧ py_modules s3 !! id
           = Some (PyModule (py_qualname m0) (class_forward m0)
                     (Some (getattr_forward m0 a).1) None))).
  { intros id m0 Hm0. pose proof (Hclean _ _ Hm0) as Hnone.
    destruct (decide (id ∈ (named_modules layer).*2)) as [Hid|Hid].
    - apply list_elem_of_fmap in Hid as ([name id'] & -> & Hit).
      destruct (Hin1 _ Hit) as (a & Ha & Hm1). specialize (Hin3 _ Hit).
      simpl in Hm0, Hm1, Hin3 |- *. rewrite Hm0 in Hm1. simpl in Hm1.
      unfold py_has_saved in Hin3. simpl in Hin3. rewrite Hm1 in Hin3.
      destruct (py_will_patch mods (name, id')) eqn:Hf; simpl in Hin3.
      + rewrite py_patched_saved in Hin3. simpl in Hin3.
        unfold py_restored in Hin3. rewrite py_patched_saved in Hin3.
        split.
        * intros Hnp. destruct Hnp. apply py_patched_iff. eauto.
        * intros _. exists a. split; [done|]. rewrite Hin3. do 2 f_equal.
          all: unfold py_patched; destruct (getattr_forward m0 a);
            simpl; by destruct (getattr_forward _ _).
      + rewrite Hnone in Hin3. simpl in Hin3. split; [done|].
        intros (name' & Hit' & Hf')%py_patched_iff.
        rewrite (named_modules_name_unique _ _ _ _ Hit' Hit) in Hf'. congruence.
    - split.
      + intros _. by rewrite Hother3, Hother1.
      + intros (name & Hit & _)%py_patched_iff. destruct Hid.
        apply list_elem_of_fmap. by exists (name, id). }
  split.
  - apply map_eq. intros id. rewrite !lookup_fmap.
    destruct (mods !! id) as [m0|] eqn:Hm0.
    + destruct (Hobj id m0 Hm0) as [Hnp Hp]. pose proof (Hclean _ _ Hm0) as Hnone.
      destruct (decide (Patched id ∈ py_trace s1)) as [Hin|Hin].
      * destruct (Hp Hin) as (a & _ & ->). simpl.
        destruct (getattr_forward_spec m0 a) as (Heq & _ & _).
        unfold module_of at 1. simpl. rewrite Heq.
        destruct m0 as [q cf df do]. simpl in *. by subst.
      * by rewrite (Hnp Hin).
    + destruct (decide (id ∈ (named_modules layer).*2)) as [Hid|Hid].
      * apply list_elem_of_fmap in Hid as ([name id'] & -> & Hit).
        destruct (Hin1 _ Hit) as (a & Ha & Hm1). specialize (Hin3 _ Hit).
        simpl in Hm0, Hm1, Hin3 |- *. rewrite Hm0 in Hm1.
        assert (Hnone1 : py_modules s1 !! id' = None) by (by rewrite Hm1).
        rewrite Hnone1 in Hin3. by rewrite Hin3.
      * by rewrite Hother3, Hother1, Hm0.
  - intros id m0 Hm0. destruct (Hobj id m0 Hm0) as [Hnp Hp]. split; [done|].
    intros Hin. destruct (Hp Hin) as (a & Ha & Hm3).
    pose proof (Hclean _ _ Hm0) as Hnone.
    destruct (getattr_forward_spec m0 a) as (_ & Hsame & Hnew). split.
    + intros c0 Hc0. rewrite Hm3, (Hsame _ Hc0).
      destruct m0 as [q cf df do]. simpl in *. by subst.
    + intros Hc0. exists a. split; [done|]. by rewrite Hm3, (Hnew Hc0).
Qed.

Lemma py_split_attention_round_trip_witness :
  let s1 := py_enter_scope demo_layer py_demo_modules 0 in
  let s3 := (py_split_attention demo_layer py_raising_region py_demo_modules 0).2 in
  module_of <$> py_modules s3 = module_of <$> py_demo_modules
  ∧ ∀ id m0, py_demo_modules !! id = Some m0 →
      (Patched id ∉ py_trace s1 → py_modules s3 !! id = Some m0)
      ∧ (Patched id ∈ py_trace s1 →
         (∀ c0, dict_forward m0 = Some c0 → py_modules s3 !! id = Some m0)
         ∧ (dict_forward m0 = None →
            ∃ a, (0 ≤ a)%nat
              ∧ py_modules s3 !! id
                = Some (PyModule (py_qualname m0) (class_forward m0)
                          (Some (BoundMethod a (class_forward m0))) None))).
Proof.
  apply (py_split_attention_round_trip demo_layer py_raising_region py_demo_modules 0);
    [|done].
  intros id m Hm. apply elem_of_list_to_map_2 in Hm.
  repeat (apply elem_of_cons in Hm as [[= -> ->]|Hm]; [done|]).
  by apply elem_of_nil in Hm.
Defined.
